(** * vpn-check popup: latency estimator and chat stream reducer

    A shallow embedding of the popup component ([Popup], with its handlers
    [fetchIpInfo], [singlePing], [testConnection], [testAverageConnection]
    and [sendChatMessage]), of the stream test script, and of the part of
    the JavaScript runtime they call, followed by the properties of each
    flow.

    Conventions of the embedding:
    - a JavaScript string is the list of its UTF-16 code units ([JS.JSString]);
    - a timer reading ([performance.now()]) is given by the rational number
      of milliseconds it denotes; the difference of two readings is the
      binary64 difference, and the samples, which are integers, are added
      and divided exactly;
    - an [async] handler is cut at its [await]s: the synchronous prefix is a
      function on the component state, and what remains after an [await] is a
      continuation resumed by the event that settles the awaited promise;
    - [setX(v)] and [setX(prev => f prev)] are applied to the component state
      in the order in which they are issued, and a handler started by the
      user reads the state as rendered after every update issued before;
    - an updater that throws (a text without a string form is appended)
      returns no state, and the state stays as it was; the properties that
      say what a stream appends are stated for texts that have a string
      form. *)

From Stdlib Require Import ZArith QArith Qround Qpower Qabs Lia Lqa Bool Ascii
  String.
From stdpp Require Import base decidable option list.

Local Open Scope Z_scope.

(* ===================================================================== *)
(** ** The JavaScript runtime used by the popup *)
(* ===================================================================== *)

Module JS.

(** A string is a sequence of UTF-16 code units. *)
Definition JSString := list Z.

(** The code units of an ASCII literal. *)
Definition lit (s : string) : JSString :=
  (fun a => Z.of_nat (nat_of_ascii a)) <$> list_ascii_of_string s.

(** The same, with every apostrophe of [s] standing for a double quote (code
    unit 34), so that JSON texts can be written as literals. *)
Definition litq (s : string) : JSString :=
  (fun c => if c =? 39 then 34 else c) <$> lit s.

(** [Math.round]: the integer nearest to [x], ties towards +infinity. *)
Definition Math_round (x : Q) : Z := Qfloor (x + (1 # 2))%Q.

(** [Math.min(...xs)] and [Math.max(...xs)] on a non-empty array of integers
    (on the empty array they are +Infinity and -Infinity, which the popup
    never computes: both calls sit behind [latencies.length > 0]). *)
Definition Math_min (xs : list Z) : option Z :=
  match xs with
  | [] => None
  | x :: r => Some (foldl Z.min x r)
  end.

Definition Math_max (xs : list Z) : option Z :=
  match xs with
  | [] => None
  | x :: r => Some (foldl Z.max x r)
  end.

(** [xs.reduce((a, b) => a + b, 0)] *)
Definition sum (xs : list Z) : Z := foldl Z.add 0 xs.

(** A [Response] as the popup sees it: its status code, and whether it has a
    body stream. [ok] is the Fetch standard's getter: status in 200..299. *)
Record Response := mkResponse { status : Z; hasBody : bool }.

Definition ok (r : Response) : bool := (200 <=? status r) && (status r <=? 299).

(** A value caught by [catch (err)]: an [Error] instance with its message,
    or anything else. *)
Inductive Thrown :=
| ErrorObject (message : JSString)
| NotAnError.

(** How a promise returned by [fetch] settles. *)
Inductive Fetched :=
| Rejected (err : Thrown)
| Resolved (response : Response).

(** *** Strings *)

(** [s.startsWith(prefix)] *)
Definition startsWith (s prefix : JSString) : bool :=
  bool_decide (take (length prefix) s = prefix).

(** [s.slice(n)] for a non-negative [n] *)
Definition slice (s : JSString) (n : nat) : JSString := drop n s.

(** [a === b] on two strings *)
Definition strictEquals (a b : JSString) : bool := bool_decide (a = b).

(** [s.split(sep)] for a separator of one code unit: the pieces between the
    occurrences of [sep]; a string without [sep] (the empty string too) is
    its own single piece. *)
Fixpoint split (sep : Z) (s : JSString) : list JSString :=
  match s with
  | [] => [[]]
  | c :: r =>
      if c =? sep then [] :: split sep r
      else match split sep r with
           | piece :: pieces => (c :: piece) :: pieces
           | [] => [[c]]
           end
  end.

(** White space and line terminators, as [String.prototype.trim] sees them. *)
Definition isWhiteSpace (c : Z) : bool :=
  ((9 <=? c) && (c <=? 13)) || (c =? 32) || (c =? 160) || (c =? 5760)
  || ((8192 <=? c) && (c <=? 8202)) || (c =? 8232) || (c =? 8233)
  || (c =? 8239) || (c =? 8287) || (c =? 12288) || (c =? 65279).

Fixpoint trimStart (s : JSString) : JSString :=
  match s with
  | c :: r => if isWhiteSpace c then trimStart r else s
  | [] => []
  end.

Definition trim (s : JSString) : JSString :=
  reverse (trimStart (reverse (trimStart s))).

(** The decimal digits of a non-negative integer, most significant first;
    [digitsFuel] bounds the number of digits. *)
Fixpoint digitsFuel (fuel : nat) (n : Z) (acc : JSString) : JSString :=
  match fuel with
  | O => acc
  | S fuel =>
      let acc := (48 + n mod 10) :: acc in
      if n <? 10 then acc else digitsFuel fuel (n / 10) acc
  end.

Definition digits (n : Z) : JSString :=
  digitsFuel (S (Z.to_nat (Z.log2 n))) n [].

(** *** Numbers

    A JSON number literal denotes a decimal; [JSON.parse] rounds it to the
    nearest IEEE 754 binary64 value, and string concatenation prints that
    value with [Number::toString]. *)

Record Decimal := mkDecimal { dneg : bool; dmant : Z; dexp : Z }.

(** A binary64 value other than NaN: a zero, an infinity, or
    [m * 2^e] with [0 < m < 2^53] and [-1074 <= e <= 971]. *)
Inductive Double :=
| DZero (neg : bool)
| DInfinity (neg : bool)
| DFinite (neg : bool) (m e : Z).

(** The integer nearest to [num / den], ties to even. *)
Definition divNearestEven (num den : Z) : Z :=
  let q := num / den in
  let r := num mod den in
  if 2 * r <? den then q
  else if den <? 2 * r then q + 1
  else if Z.even q then q else q + 1.

(** The binary64 value nearest to the positive rational [p / q]. *)
Definition roundRational (neg : bool) (p q : Z) : Double :=
  let t := Z.log2 p - Z.log2 q in
  let above := if 0 <=? t then q * 2 ^ t <=? p else q <=? p * 2 ^ (- t) in
  let b := if above then t else t - 1 in
  let e := Z.max (b - 52) (-1074) in
  let m := if 0 <=? e then divNearestEven p (q * 2 ^ e)
           else divNearestEven (p * 2 ^ (- e)) q in
  let '(m, e) := if m =? 2 ^ 53 then (2 ^ 52, e + 1) else (m, e) in
  if m =? 0 then DZero neg
  else if 971 <? e then DInfinity neg
  else DFinite neg m e.

Definition roundDecimal (d : Decimal) : Double :=
  let L := Z.log2 (dmant d) in
  if dmant d =? 0 then DZero (dneg d)
  else if 310 <=? dexp d + L / 4 then DInfinity (dneg d)
  else if dexp d + (L + 1) / 3 + 1 <=? -330 then DZero (dneg d)
  else if 0 <=? dexp d then roundRational (dneg d) (dmant d * 10 ^ dexp d) 1
  else roundRational (dneg d) (dmant d) (10 ^ (- dexp d)).

Definition Double_eqb (x y : Double) : bool :=
  match x, y with
  | DZero a, DZero b => Bool.eqb a b
  | DInfinity a, DInfinity b => Bool.eqb a b
  | DFinite a m e, DFinite b m' e' => Bool.eqb a b && (m =? m') && (e =? e')
  | _, _ => false
  end.

(** The value [s * 10^x] as a binary64. *)
Definition scaled (s x : Z) : Double := roundDecimal (mkDecimal false s x).

(** The [n] with [10^(n-1) <= m * 2^e < 10^n]. *)
Definition decimalExponent (m e : Z) : Z :=
  let est := (Z.log2 m + e) * 30103 / 100000 in
  let below (n : Z) : bool :=
    (* m * 2^e < 10^n *)
    let '(a, b) := if 0 <=? e then (m * 2 ^ e, 1) else (m, 2 ^ (- e)) in
    if 0 <=? n then a <? b * 10 ^ n else a * 10 ^ (- n) <? b in
  if below (est - 1) then est - 1
  else if below est then est
  else if below (est + 1) then est + 1
  else est + 2.

(** The shortest decimal [s * 10^(n-k)], with [k] digits in [s], that rounds
    to the positive finite value [m * 2^e]; among several of that length the
    nearest one. Returns [(s, k, n)]. *)
Definition shortestAt (m e n k : Z) : option (Z * Z * Z) :=
  let x := n - k in
  let '(a, b) := if 0 <=? e then (m * 2 ^ e, 1) else (m, 2 ^ (- e)) in
  (* m * 2^e / 10^x = num / den *)
  let '(num, den) := if 0 <=? x then (a, b * 10 ^ x) else (a * 10 ^ (- x), b) in
  let lo := num / den in
  let hi := lo + 1 in
  let okLo := (10 ^ (k - 1) <=? lo) && Double_eqb (scaled lo x) (DFinite false m e) in
  let okHi := Double_eqb (scaled hi x) (DFinite false m e) in
  let hiRep := if hi =? 10 ^ k then (10 ^ (k - 1), k, n + 1) else (hi, k, n) in
  let r := num mod den in
  match okLo, okHi with
  | true, false => Some (lo, k, n)
  | false, true => Some hiRep
  | true, true =>
      if 2 * r <? den then Some (lo, k, n)
      else if den <? 2 * r then Some hiRep
      else if Z.even lo then Some (lo, k, n) else Some hiRep
  | false, false => None
  end.

Fixpoint shortestFrom (fuel : nat) (m e n k : Z) : Z * Z * Z :=
  match fuel with
  | O => (m, 1, n)
  | S fuel =>
      match shortestAt m e n k with
      | Some r => r
      | None => shortestFrom fuel m e n (k + 1)
      end
  end.

Definition shortest (m e : Z) : Z * Z * Z :=
  shortestFrom 17 m e (decimalExponent m e) 1.

(** [Number::toString(x)] in radix 10. *)
Definition Number_toString (x : Double) : JSString :=
  match x with
  | DZero _ => lit "0"
  | DInfinity neg => (if neg then lit "-" else []) ++ lit "Infinity"
  | DFinite neg m e =>
      let '(s, k, n) := shortest m e in
      let ds := digits s in
      (if neg then lit "-" else []) ++
      (if (k <=? n) && (n <=? 21) then
         ds ++ replicate (Z.to_nat (n - k)) 48
       else if (0 <? n) && (n <=? 21) then
         take (Z.to_nat n) ds ++ lit "." ++ drop (Z.to_nat n) ds
       else if (-6 <? n) && (n <=? 0) then
         lit "0." ++ replicate (Z.to_nat (- n)) 48 ++ ds
       else
         let ex := (if 0 <=? n - 1 then lit "+" else lit "-")
                   ++ digits (Z.abs (n - 1)) in
         if k =? 1 then ds ++ lit "e" ++ ex
         else take 1 ds ++ lit "." ++ drop 1 ds ++ lit "e" ++ ex)
  end.

(** The binary64 value of an integer (a status code, a length). *)
Definition Double_of_Z (z : Z) : Double :=
  roundDecimal (mkDecimal (z <? 0) (Z.abs z) 0).

(** The rational a binary64 value denotes. An infinity denotes none: it
    stands for 2^1024, the magnitude at which rounding overflows. (The popup
    subtracts timer readings only, which are finite and not negative, so
    that their difference is finite.) *)
Definition Double_value (x : Double) : Q :=
  match x with
  | DZero _ => 0
  | DInfinity neg => if neg then - inject_Z (2 ^ 1024) else inject_Z (2 ^ 1024)
  | DFinite neg m e =>
      let v := if 0 <=? e then inject_Z (m * 2 ^ e)
               else m # Z.to_pos (2 ^ (- e)) in
      if neg then (- v)%Q else v
  end.

(** [a - b] on two finite binary64 values, given by the rationals they
    denote: the exact difference rounded to the nearest binary64 value, ties
    to even (IEEE 754); a difference of exactly zero is [+0]. *)
Definition Double_sub (a b : Q) : Double :=
  let d := (a - b)%Q in
  match Qnum d with
  | 0 => DZero false
  | Z.pos n => roundRational false (Z.pos n) (Z.pos (Qden d))
  | Z.neg n => roundRational true (Z.pos n) (Z.pos (Qden d))
  end.

(** *** Values and [JSON.parse] *)

(** The values the popup handles: what [JSON.parse] builds, and [undefined]
    for a property that is not there. An object lists its members in source
    order; of two members with one key the later one is the property. *)
#[warnings="-register-all"]
Inductive JSValue :=
| JUndefined
| JNull
| JBool (b : bool)
| JNumber (x : Double)
| JString (s : JSString)
| JArray (elements : list JSValue)
| JObject (members : list (JSString * JSValue)).

Inductive Token :=
| TLBrace | TRBrace | TLBracket | TRBracket | TColon | TComma
| TString (s : JSString)
| TNumber (d : Decimal)
| TTrue | TFalse | TNull.

(** Where the lexer is inside a number literal. *)
Inductive NumPhase :=
| NMinus | NZero | NInt | NDot | NFrac | NExpMark | NExpSign | NExp.

Record NumAcc := mkNumAcc {
  nneg : bool; nmant : Z; nscale : Z; eneg : bool; emag : Z;
}.

Inductive LexState :=
| LReady
| LString (acc : JSString)
| LEscape (acc : JSString)
| LUnicode (acc : JSString) (value : Z) (count : nat)
| LNumber (ph : NumPhase) (a : NumAcc)
| LLiteral (rest : JSString) (tok : Token).

Definition isDigit (c : Z) : bool := (48 <=? c) && (c <=? 57).

Definition hexValue (c : Z) : option Z :=
  if isDigit c then Some (c - 48)
  else if (97 <=? c) && (c <=? 102) then Some (c - 87)
  else if (65 <=? c) && (c <=? 70) then Some (c - 55)
  else None.

(** JSON white space: tab, line feed, carriage return, space. *)
Definition isJSONWhiteSpace (c : Z) : bool :=
  (c =? 9) || (c =? 10) || (c =? 13) || (c =? 32).

(** One code unit read between tokens. *)
Definition stepReady (c : Z) : option (LexState * list Token) :=
  if isJSONWhiteSpace c then Some (LReady, [])
  else if c =? 123 then Some (LReady, [TLBrace])
  else if c =? 125 then Some (LReady, [TRBrace])
  else if c =? 91 then Some (LReady, [TLBracket])
  else if c =? 93 then Some (LReady, [TRBracket])
  else if c =? 58 then Some (LReady, [TColon])
  else if c =? 44 then Some (LReady, [TComma])
  else if c =? 34 then Some (LString [], [])
  else if c =? 45 then Some (LNumber NMinus (mkNumAcc true 0 0 false 0), [])
  else if c =? 48 then Some (LNumber NZero (mkNumAcc false 0 0 false 0), [])
  else if isDigit c then
    Some (LNumber NInt (mkNumAcc false (c - 48) 0 false 0), [])
  else if c =? 116 then Some (LLiteral (lit "rue") TTrue, [])
  else if c =? 102 then Some (LLiteral (lit "alse") TFalse, [])
  else if c =? 110 then Some (LLiteral (lit "ull") TNull, [])
  else None.

(** The number a literal denotes once it is complete; [None] while the
    literal cannot end where it is. *)
Definition numberToken (ph : NumPhase) (a : NumAcc) : option Token :=
  match ph with
  | NZero | NInt | NFrac | NExp =>
      Some (TNumber
              (mkDecimal (nneg a) (nmant a)
                 ((if eneg a then - emag a else emag a) - nscale a)))
  | NMinus | NDot | NExpMark | NExpSign => None
  end.

(** A code unit that continues a number literal. *)
Definition stepNumber (ph : NumPhase) (a : NumAcc) (c : Z)
  : option (NumPhase * NumAcc) :=
  let digit := c - 48 in
  let isE := (c =? 101) || (c =? 69) in
  match ph with
  | NMinus =>
      if c =? 48 then Some (NZero, a)
      else if isDigit c then
        Some (NInt, mkNumAcc (nneg a) digit 0 false 0)
      else None
  | NZero =>
      if c =? 46 then Some (NDot, a)
      else if isE then Some (NExpMark, a)
      else None
  | NInt =>
      if isDigit c then
        Some (NInt, mkNumAcc (nneg a) (nmant a * 10 + digit) 0 false 0)
      else if c =? 46 then Some (NDot, a)
      else if isE then Some (NExpMark, a)
      else None
  | NDot | NFrac =>
      if isDigit c then
        Some (NFrac,
              mkNumAcc (nneg a) (nmant a * 10 + digit) (nscale a + 1) false 0)
      else match ph with
           | NFrac => if isE then Some (NExpMark, a) else None
           | _ => None
           end
  | NExpMark =>
      if isDigit c then
        Some (NExp, mkNumAcc (nneg a) (nmant a) (nscale a) false digit)
      else if c =? 43 then Some (NExpSign, a)
      else if c =? 45 then
        Some (NExpSign, mkNumAcc (nneg a) (nmant a) (nscale a) true 0)
      else None
  | NExpSign | NExp =>
      if isDigit c then
        Some (NExp,
              mkNumAcc (nneg a) (nmant a) (nscale a) (eneg a)
                (emag a * 10 + digit))
      else None
  end.

Definition lexStep (st : LexState) (c : Z)
  : option (LexState * list Token) :=
  match st with
  | LReady => stepReady c
  | LString acc =>
      if c =? 34 then Some (LReady, [TString acc])
      else if c =? 92 then Some (LEscape acc, [])
      else if c <? 32 then None
      else Some (LString (acc ++ [c]), [])
  | LEscape acc =>
      if (c =? 34) || (c =? 92) || (c =? 47) then Some (LString (acc ++ [c]), [])
      else if c =? 98 then Some (LString (acc ++ [8]), [])
      else if c =? 102 then Some (LString (acc ++ [12]), [])
      else if c =? 110 then Some (LString (acc ++ [10]), [])
      else if c =? 114 then Some (LString (acc ++ [13]), [])
      else if c =? 116 then Some (LString (acc ++ [9]), [])
      else if c =? 117 then Some (LUnicode acc 0 0, [])
      else None
  | LUnicode acc value count =>
      match hexValue c with
      | Some h =>
          let value := value * 16 + h in
          if (count =? 3)%nat then Some (LString (acc ++ [value]), [])
          else Some (LUnicode acc value (S count), [])
      | None => None
      end
  | LNumber ph a =>
      match stepNumber ph a c with
      | Some (ph', a') => Some (LNumber ph' a', [])
      | None =>
          match numberToken ph a, stepReady c with
          | Some tok, Some (st', toks) => Some (st', tok :: toks)
          | _, _ => None
          end
      end
  | LLiteral rest tok =>
      match rest with
      | x :: rest' =>
          if c =? x then
            match rest' with
            | [] => Some (LReady, [tok])
            | _ => Some (LLiteral rest' tok, [])
            end
          else None
      | [] => None
      end
  end.

(** The end of the text. *)
Definition finish (st : LexState) : option (list Token) :=
  match st with
  | LReady => Some []
  | LNumber ph a => tok ← numberToken ph a; Some [tok]
  | _ => None
  end.

Fixpoint lex (st : LexState) (s : JSString) : option (list Token) :=
  match s with
  | [] => finish st
  | c :: r =>
      '(st', toks) ← lexStep st c;
      rest ← lex st' r;
      Some (toks ++ rest)
  end.

(** An array or an object under construction. *)
Inductive Frame :=
| InArray (elements : list JSValue)
| InObject (members : list (JSString * JSValue)) (key : JSString).

Inductive ParseState :=
| PValue (stack : list Frame)
| PArrayStart (stack : list Frame)
| PAfterElement (elements : list JSValue) (stack : list Frame)
| PObjectStart (stack : list Frame)
| PKey (members : list (JSString * JSValue)) (stack : list Frame)
| PColon (members : list (JSString * JSValue)) (key : JSString)
    (stack : list Frame)
| PAfterMember (members : list (JSString * JSValue)) (stack : list Frame)
| PDone (v : JSValue).

(** A value is complete: it is the text's value, or the next element or
    member of the frame on top. *)
Definition complete (v : JSValue) (stack : list Frame) : ParseState :=
  match stack with
  | [] => PDone v
  | InArray elements :: stack => PAfterElement (elements ++ [v]) stack
  | InObject members key :: stack =>
      PAfterMember (members ++ [(key, v)]) stack
  end.

Definition startValue (tok : Token) (stack : list Frame)
  : option ParseState :=
  match tok with
  | TString s => Some (complete (JString s) stack)
  | TNumber d => Some (complete (JNumber (roundDecimal d)) stack)
  | TTrue => Some (complete (JBool true) stack)
  | TFalse => Some (complete (JBool false) stack)
  | TNull => Some (complete JNull stack)
  | TLBracket => Some (PArrayStart stack)
  | TLBrace => Some (PObjectStart stack)
  | TRBrace | TRBracket | TColon | TComma => None
  end.

Definition parseStep (st : ParseState) (tok : Token) : option ParseState :=
  match st, tok with
  | PValue stack, _ => startValue tok stack
  | PArrayStart stack, TRBracket => Some (complete (JArray []) stack)
  | PArrayStart stack, _ => startValue tok (InArray [] :: stack)
  | PAfterElement elements stack, TComma =>
      Some (PValue (InArray elements :: stack))
  | PAfterElement elements stack, TRBracket =>
      Some (complete (JArray elements) stack)
  | PObjectStart stack, TRBrace => Some (complete (JObject []) stack)
  | PObjectStart stack, TString key => Some (PColon [] key stack)
  | PKey members stack, TString key => Some (PColon members key stack)
  | PColon members key stack, TColon =>
      Some (PValue (InObject members key :: stack))
  | PAfterMember members stack, TComma => Some (PKey members stack)
  | PAfterMember members stack, TRBrace =>
      Some (complete (JObject members) stack)
  | _, _ => None
  end.

Fixpoint parseTokens (st : ParseState) (toks : list Token) : option JSValue :=
  match toks with
  | [] => match st with PDone v => Some v | _ => None end
  | tok :: toks => st' ← parseStep st tok; parseTokens st' toks
  end.

(** [JSON.parse(text)]: the value, or [None] where it throws a SyntaxError. *)
Definition JSON_parse (text : JSString) : option JSValue :=
  toks ← lex LReady text; parseTokens (PValue []) toks.

(** *** Property access, truthiness, coercion *)

(** The own property [key] of an object's member list. *)
Fixpoint lookup (key : JSString) (members : list (JSString * JSValue))
  : JSValue :=
  match members with
  | [] => JUndefined
  | (k, v) :: rest =>
      match lookup key rest with
      | JUndefined =>
          if bool_decide (k = key) then v else JUndefined
      | found => found
      end
  end.

(** [v.key] for one of the keys the popup reads ([type], [delta], [message],
    [content], [text]): no prototype and no primitive has a property of such
    a name, so only an object's own member answers. [None] where the access
    throws a TypeError ([v] is [null] or [undefined]). *)
Definition get (v : JSValue) (key : JSString) : option JSValue :=
  match v with
  | JUndefined | JNull => None
  | JObject members => Some (lookup key members)
  | _ => Some JUndefined
  end.

(** [v?.key] *)
Definition getOptional (v : JSValue) (key : JSString) : JSValue :=
  match v with
  | JUndefined | JNull => JUndefined
  | JObject members => lookup key members
  | _ => JUndefined
  end.

(** [ToBoolean] *)
Definition truthy (v : JSValue) : bool :=
  match v with
  | JUndefined | JNull => false
  | JBool b => b
  | JNumber (DZero _) => false
  | JNumber _ => true
  | JString s => negb (bool_decide (s = []))
  | JArray _ | JObject _ => true
  end.

(** [a || b] *)
Definition or (a b : JSValue) : JSValue := if truthy a then a else b.

(** [ToString] of the values above, as string concatenation and the lookup
    of a property by a computed key apply it; [None] where it throws a
    TypeError. An array is joined with commas, [null] and [undefined]
    elements giving nothing. An object built by [JSON.parse] is turned into
    a primitive by the [toString] it finds: a member of its own named
    [toString] is no function, [valueOf] (inherited, or skipped as no
    function) gives no primitive, and the conversion throws; otherwise
    [Object.prototype.toString] answers. *)
Fixpoint ToString (v : JSValue) : option JSString :=
  match v with
  | JUndefined => Some (lit "undefined")
  | JNull => Some (lit "null")
  | JBool true => Some (lit "true")
  | JBool false => Some (lit "false")
  | JNumber x => Some (Number_toString x)
  | JString s => Some s
  | JArray elements =>
      (fix join (first : bool) (vs : list JSValue) : option JSString :=
         match vs with
         | [] => Some []
         | v :: vs =>
             s ← match v with
                 | JUndefined | JNull => Some []
                 | _ => ToString v
                 end;
             rest ← join false vs;
             Some ((if first then [] else lit ",") ++ s ++ rest)
         end) true elements
  | JObject members =>
      if bool_decide (lit "toString" ∈ members.*1) then None
      else Some (lit "[object Object]")
  end.

(** [s + v] with a string on the left. *)
Definition concat (s : JSString) (v : JSValue) : option JSString :=
  t ← ToString v; Some (s ++ t).

(** *** [TextDecoder]

    The UTF-8 decoder of the Encoding standard, as [new TextDecoder()] runs
    it: errors are replaced by U+FFFD, and a byte order mark at the start of
    the stream is dropped. A byte is an integer in 0..255. *)

Record TextDecoder := mkTextDecoder {
  codePoint : Z;
  bytesSeen : Z;
  bytesNeeded : Z;
  lowerBoundary : Z;
  upperBoundary : Z;
  bomSeen : bool;
}.

(** [new TextDecoder()] *)
Definition newTextDecoder : TextDecoder := mkTextDecoder 0 0 0 128 191 false.

(** A byte read when no sequence is open: the code points it yields (an
    error is U+FFFD) and the sequence it opens. *)
Definition leadByte (bom : bool) (b : Z) : TextDecoder * list Z :=
  if b <=? 127 then (mkTextDecoder 0 0 0 128 191 bom, [b])
  else if (194 <=? b) && (b <=? 223) then
    (mkTextDecoder (Z.land b 31) 0 1 128 191 bom, [])
  else if (224 <=? b) && (b <=? 239) then
    (mkTextDecoder (Z.land b 15) 0 2
       (if b =? 224 then 160 else 128) (if b =? 237 then 159 else 191) bom, [])
  else if (240 <=? b) && (b <=? 244) then
    (mkTextDecoder (Z.land b 7) 0 3
       (if b =? 240 then 144 else 128) (if b =? 244 then 143 else 191) bom, [])
  else (mkTextDecoder 0 0 0 128 191 bom, [65533]).

Definition decodeByte (d : TextDecoder) (b : Z) : TextDecoder * list Z :=
  if bytesNeeded d =? 0 then leadByte (bomSeen d) b
  else if (b <? lowerBoundary d) || (upperBoundary d <? b) then
    let '(d', cps) := leadByte (bomSeen d) b in (d', 65533 :: cps)
  else
    let cp := Z.lor (Z.shiftl (codePoint d) 6) (Z.land b 63) in
    if bytesSeen d + 1 =? bytesNeeded d then
      (mkTextDecoder 0 0 0 128 191 (bomSeen d), [cp])
    else
      (mkTextDecoder cp (bytesSeen d + 1) (bytesNeeded d) 128 191 (bomSeen d),
       []).

(** The UTF-16 code units of a code point. *)
Definition codeUnits (cp : Z) : JSString :=
  if cp <? 65536 then [cp]
  else [55296 + Z.shiftr (cp - 65536) 10; 56320 + Z.land (cp - 65536) 1023].

(** The code points leave the decoder as code units; the first code point of
    the stream is dropped if it is the byte order mark. *)
Fixpoint serialize (bom : bool) (cps : list Z) : bool * JSString :=
  match cps with
  | [] => (bom, [])
  | cp :: cps =>
      let '(bom', out) := serialize true cps in
      (bom', (if negb bom && (cp =? 65279) then [] else codeUnits cp) ++ out)
  end.

(** [decoder.decode(value, { stream: true })]: the decoder after the chunk
    and the text it yields; an unfinished sequence at the end of the chunk
    stays in the decoder. *)
Fixpoint decode (d : TextDecoder) (value : list Z) : TextDecoder * JSString :=
  match value with
  | [] => (d, [])
  | b :: value =>
      let '(d1, cps) := decodeByte d b in
      let '(bom, out) := serialize (bomSeen d1) cps in
      let d2 := mkTextDecoder (codePoint d1) (bytesSeen d1) (bytesNeeded d1)
                  (lowerBoundary d1) (upperBoundary d1) bom in
      let '(d3, text) := decode d2 value in
      (d3, out ++ text)
  end.

(** *** The lexer and the parser as runs of their step functions *)

(** The state the lexer reaches on [s] from [st], with the tokens it has
    produced on the way. *)
Fixpoint lexRun (st : LexState) (s : JSString)
  : option (LexState * list Token) :=
  match s with
  | [] => Some (st, [])
  | c :: r =>
      '(st1, t1) ← lexStep st c;
      '(st2, t2) ← lexRun st1 r;
      Some (st2, t1 ++ t2)
  end.

(** The state the parser reaches on [toks] from [st]. *)
Fixpoint parseRun (st : ParseState) (toks : list Token) : option ParseState :=
  match toks with
  | [] => Some st
  | tok :: toks => st' ← parseStep st tok; parseRun st' toks
  end.

(** The value of a text parsed to its end. *)
Definition result (st : ParseState) : option JSValue :=
  match st with
  | PDone v => Some v
  | _ => None
  end.

End JS.

(* ===================================================================== *)
(** ** Latency flow *)
(* ===================================================================== *)

Module Latency.
Import JS.

Inductive Status := pending | success | error.

(** [interface PingResult]; an optional field that an object literal leaves
    out is [None]. *)
Record PingResult := mkPingResult {
  url : JSString;
  latency : option Z;
  status : Status;
  isAverage : option bool;
  testCount : option Z;
  allLatencies : option (list Z);
}.

(** The state hooks of the latency flow. *)
Record State := mkState {
  pingResult : option PingResult;
  testing : bool;
  testingAverage : bool;
  avgProgress : Z;
}.

(** One probe as the network and the clock decide it: the two readings of
    [performance.now()], and the way [fetch] settles. A reading is a
    binary64 value, given by the rational number of milliseconds it denotes
    (for the reading printed as 300.3, that is 5282933469138125 / 2^44). *)
Record Probe := mkProbe {
  startTime : Q;
  endTime : Q;
  fetched : Fetched;
}.

(** What an observer of the handler sees, in order. *)
Inductive Event :=
| SetTesting (b : bool)
| SetTestingAverage (b : bool)
| SetAvgProgress (n : Z)
| SetPingResult (r : PingResult)
| ProbeStart (k : nat)
| ProbeEnd (k : nat) (sample : option Z)
| Sleep (ms : Z).

(** The world a handler runs in: the component state, the number of probe
    requests issued so far, and the events so far (oldest first). *)
Record World := mkWorld {
  state : State;
  issued : nat;
  trace : list Event;
}.

(** A small state monad over [World]. *)
Definition M (A : Type) : Type := World -> A * World.
Definition ret {A} (a : A) : M A := fun w => (a, w).
Definition bind {A B} (m : M A) (k : A -> M B) : M B :=
  fun w => let (a, w') := m w in k a w'.

Declare Scope latency_scope.
Delimit Scope latency_scope with lat.
Notation "x <- m ;; k" := (bind m (fun x => k))
  (at level 100, m at next level, right associativity) : latency_scope.
Notation "m ;; k" := (bind m (fun _ => k))
  (at level 100, right associativity) : latency_scope.
Local Open Scope latency_scope.

Definition emit (e : Event) : M unit :=
  fun w => (tt, mkWorld (state w) (issued w) (trace w ++ [e])).

Definition modify (f : State -> State) : M unit :=
  fun w => (tt, mkWorld (f (state w)) (issued w) (trace w)).

Definition setTesting (b : bool) : M unit :=
  modify (fun s => mkState (pingResult s) b (testingAverage s) (avgProgress s)) ;;
  emit (SetTesting b).

Definition setTestingAverage (b : bool) : M unit :=
  modify (fun s => mkState (pingResult s) (testing s) b (avgProgress s)) ;;
  emit (SetTestingAverage b).

Definition setAvgProgress (n : Z) : M unit :=
  modify (fun s => mkState (pingResult s) (testing s) (testingAverage s) n) ;;
  emit (SetAvgProgress n).

Definition setPingResult (r : PingResult) : M unit :=
  modify (fun s => mkState (Some r) (testing s) (testingAverage s) (avgProgress s)) ;;
  emit (SetPingResult r).

(** [await new Promise(resolve => setTimeout(resolve, ms))] *)
Definition sleep (ms : Z) : M unit := emit (Sleep ms).

(** [endTime - startTime], a subtraction of two binary64 values: what the
    probe takes for the elapsed time. *)
Definition elapsed (p : Probe) : Q :=
  Double_value (Double_sub (endTime p) (startTime p)).

(** The value [singlePing] returns for one probe:
<<
    const startTime = performance.now();
    try {
      const response = await fetch(..., { method: 'GET', cache: 'no-store' });
      const endTime = performance.now();
      if (response.ok) { return Math.round(endTime - startTime); }
      return null;
    } catch { return null; }
>> *)
Definition singlePing_result (p : Probe) : option Z :=
  match fetched p with
  | Resolved response =>
      if ok response then Some (Math_round (elapsed p))
      else None
  | Rejected _ => None
  end.

Section Handlers.

(** The network: how the [k]-th probe request of the session goes. *)
Variable net : nat -> Probe.

Definition singlePing : M (option Z) :=
  fun w =>
    let k := issued w in
    let r := singlePing_result (net k) in
    (r, mkWorld (state w) (S k) (trace w ++ [ProbeStart k; ProbeEnd k r])).

Definition cloudflare : JSString := lit "cloudflare.com".

Definition testConnection : M unit :=
  setTesting true ;;
  setPingResult (mkPingResult cloudflare None pending None None None) ;;
  latency <- singlePing ;;
  match latency with
  | Some l =>
      setPingResult (mkPingResult cloudflare (Some l) success None None None)
  | None =>
      setPingResult (mkPingResult cloudflare None error None None None)
  end ;;
  setTesting false.

(** The body of [for (let i = 0; i < TEST_COUNT; i++)], run for the [n]
    indices from [i] on; [latencies] is the array the loop pushes to. *)
Fixpoint probeLoop (TEST_COUNT : Z) (n : nat) (i : Z) (latencies : list Z)
  : M (list Z) :=
  match n with
  | O => ret latencies
  | S n' =>
      setAvgProgress (i + 1) ;;
      latency <- singlePing ;;
      let latencies :=
        match latency with
        | Some l => latencies ++ [l]
        | None => latencies
        end in
      (if i <? TEST_COUNT - 1 then sleep 200 else ret tt) ;;
      probeLoop TEST_COUNT n' (i + 1) latencies
  end.

(** [testAverageConnection] with its constant [TEST_COUNT] as a parameter. *)
Definition testAverageConnectionN (TEST_COUNT : nat) : M unit :=
  setTestingAverage true ;;
  setAvgProgress 0 ;;
  setPingResult
    (mkPingResult cloudflare None pending (Some true)
       (Some (Z.of_nat TEST_COUNT)) None) ;;
  latencies <- probeLoop (Z.of_nat TEST_COUNT) TEST_COUNT 0 [] ;;
  (if Z.of_nat (length latencies) >? 0 then
     let avgLatency :=
       Math_round (inject_Z (sum latencies) / inject_Z (Z.of_nat (length latencies)))%Q in
     let minLatency := Math_min latencies in
     let maxLatency := Math_max latencies in
     setPingResult
       (mkPingResult cloudflare (Some avgLatency) success (Some true)
          (Some (Z.of_nat (length latencies))) (Some latencies))
   else
     setPingResult
       (mkPingResult cloudflare None error (Some true) None None)) ;;
  setTestingAverage false ;;
  setAvgProgress 0.

(** [const TEST_COUNT = 5] *)
Definition TEST_COUNT : nat := 5.

Definition testAverageConnection : M unit := testAverageConnectionN TEST_COUNT.

End Handlers.

(** The state of a freshly mounted popup. *)
Definition initialState : State := mkState None false false 0.
Definition initialWorld : World := mkWorld initialState 0 [].

(** *** Notions used to state the properties of the latency flow *)

(** The successful samples of the [n] probes from request [first] on, in
    order: what the loop leaves in [latencies]. *)
Definition samplesOf (net : nat -> Probe) (first n : nat) : list Z :=
  omap (fun k => singlePing_result (net k)) (seq first n).

(** The events of loop iteration [j] (0-based) when the loop's first probe is
    request [first]. *)
Definition iterationEvents (net : nat -> Probe) (TEST_COUNT : Z)
    (first j : nat) : list Event :=
  [SetAvgProgress (Z.of_nat j + 1);
   ProbeStart (first + j);
   ProbeEnd (first + j) (singlePing_result (net (first + j)%nat))]
  ++ (if Z.of_nat j <? TEST_COUNT - 1 then [Sleep 200] else []).

(** The state with its progress counter set to [n]. *)
Definition withProgress (s : State) (n : Z) : State :=
  mkState (pingResult s) (testing s) (testingAverage s) n.

(** The mean the handler computes. *)
Definition mean (xs : list Z) : Z :=
  Math_round (inject_Z (sum xs) / inject_Z (Z.of_nat (length xs)))%Q.

(** The result the handler publishes for the samples it collected. *)
Definition finalResult (latencies : list Z) : PingResult :=
  if Z.of_nat (length latencies) >? 0 then
    mkPingResult cloudflare (Some (mean latencies)) success (Some true)
      (Some (Z.of_nat (length latencies))) (Some latencies)
  else
    mkPingResult cloudflare None error (Some true) None None.

(** The result the handler publishes before the first probe. *)
Definition pendingResult (N : nat) : PingResult :=
  mkPingResult cloudflare None pending (Some true) (Some (Z.of_nat N)) None.

(** C8 as stated: in trace [t], the progress setter for probe [k] (0-based;
    reported index [k + 1]) fires after that probe has completed. *)
Definition firesAfterProbe (t : list Event) (k : nat) : Prop :=
  exists (i j : nat) (sample : option Z),
    t !! i = Some (ProbeEnd k sample) /\
    t !! j = Some (SetAvgProgress (Z.of_nat k + 1)) /\
    (i < j)%nat.

(** Three networks to run the handler on: every other probe fails; every
    probe fails; every probe succeeds. *)
Definition net_alternating (k : nat) : Probe :=
  mkProbe 0 (inject_Z (Z.of_nat k) + (49 # 4))%Q
    (if Nat.even k then Resolved (mkResponse 200 true)
     else Rejected (ErrorObject (lit "Failed to fetch"))).

Definition net_down (k : nat) : Probe :=
  mkProbe 0 30 (if Nat.even k then Resolved (mkResponse 503 true)
                else Rejected (ErrorObject (lit "Failed to fetch"))).

Definition net_up (k : nat) : Probe :=
  mkProbe 0 (41 # 2) (Resolved (mkResponse 200 true)).

(** *** The rest of the latency view *)

(** [getLatencyColor]:
<<
    if (latency < 100) return 'good';
    if (latency < 300) return 'warn';
    return 'bad';
>> *)
Definition getLatencyColor (latency : Z) : JSString :=
  if latency <? 100 then lit "good"
  else if latency <? 300 then lit "warn"
  else lit "bad".

(** The status label under a successful result:
    [latency < 100 ? '* Excellent' : latency < 300 ? '* Good' : '* Slow'],
    where the three symbols are U+2728, U+1F44D and U+1F40C. *)
Definition statusLabel (latency : Z) : JSString :=
  if latency <? 100 then codeUnits 10024 ++ lit " Excellent"
  else if latency <? 300 then codeUnits 128077 ++ lit " Good"
  else codeUnits 128012 ++ lit " Slow".

(** [const isAnyTestRunning = testing || testingAverage], which disables both
    test buttons. *)
Definition isAnyTestRunning (s : State) : bool :=
  testing s || testingAverage s.

(** The pauses among the events of a trace. *)
Definition isSleep (e : Event) : bool :=
  match e with
  | Sleep _ => true
  | _ => false
  end.

(** *** The state along a trace *)

(** The events that are calls of a state setter. *)
Definition isSetter (e : Event) : bool :=
  match e with
  | ProbeStart _ | ProbeEnd _ _ | Sleep _ => false
  | _ => true
  end.

(** What the setter behind an event does to the state. *)
Definition applyEvent (e : Event) (s : State) : State :=
  match e with
  | SetTesting b => mkState (pingResult s) b (testingAverage s) (avgProgress s)
  | SetTestingAverage b => mkState (pingResult s) (testing s) b (avgProgress s)
  | SetAvgProgress n => mkState (pingResult s) (testing s) (testingAverage s) n
  | SetPingResult r =>
      mkState (Some r) (testing s) (testingAverage s) (avgProgress s)
  | ProbeStart _ | ProbeEnd _ _ | Sleep _ => s
  end.

(** The state after the events of a trace, from state [s]. *)
Definition replay (events : list Event) (s : State) : State :=
  foldl (fun s e => applyEvent e s) s events.

(** Every probe and every pause of the trace happens in a state that
    disables the test buttons. *)
Fixpoint guarded (events : list Event) (s : State) : bool :=
  match events with
  | [] => true
  | e :: events =>
      (isSetter e || isAnyTestRunning s) && guarded events (applyEvent e s)
  end.

End Latency.

(* ===================================================================== *)
(** ** Chat flow *)
(* ===================================================================== *)

Module Chat.
Import JS.

Inductive Role := user | assistant.

(** [interface ChatMessage] *)
Record ChatMessage := mkChatMessage { role : Role; content : JSString }.

(** The state hooks of the chat flow. *)
Record State := mkState {
  chatMessages : list ChatMessage;
  chatInput : JSString;
  chatLoading : bool;
}.

Definition setChatMessages
    (f : list ChatMessage -> list ChatMessage) (s : State) : State :=
  mkState (f (chatMessages s)) (chatInput s) (chatLoading s).

Definition setChatInput (v : JSString) (s : State) : State :=
  mkState (chatMessages s) v (chatLoading s).

Definition setChatLoading (b : bool) (s : State) : State :=
  mkState (chatMessages s) (chatInput s) b.

(** [a[i]] for an integer index: [undefined] outside the array. *)
Definition at_ {A} (a : list A) (i : Z) : option A :=
  if i <? 0 then None else a !! Z.to_nat i.

(** [a[i] = x] for an index inside the array (the popup assigns only behind
    a test that [a[i]] is there; other indices leave [a] as it is here). *)
Definition assign {A} (a : list A) (i : Z) (x : A) : list A :=
  if i <? 0 then a else <[Z.to_nat i := x]> a.

(** [prev => [...prev, m]] *)
Definition push (m : ChatMessage) (prev : list ChatMessage)
  : list ChatMessage := prev ++ [m].

(** The updater of the stream loop:
<<
    prev => {
      const updated = [...prev];
      const lastIdx = updated.length - 1;
      if (updated[lastIdx]?.role === 'assistant') {
        updated[lastIdx] = { ...updated[lastIdx],
                             content: updated[lastIdx].content + text };
      }
      return updated;
    }
>>
    Where [content + text] throws (the text has no string form), the updater
    returns no transcript: nothing is appended, and the state keeps the
    transcript it had. *)
Definition appendText (text : JSValue) (prev : list ChatMessage)
  : list ChatMessage :=
  let updated := prev in
  let lastIdx := Z.of_nat (length updated) - 1 in
  match at_ updated lastIdx with
  | Some last =>
      match role last with
      | assistant =>
          match concat (content last) text with
          | Some content' =>
              assign updated lastIdx (mkChatMessage (role last) content')
          | None => prev
          end
      | user => updated
      end
  | None => updated
  end.

(** [err instanceof Error ? err.message : 'Failed to connect'] *)
Definition errorMessage (err : Thrown) : JSString :=
  match err with
  | ErrorObject message => message
  | NotAnError => lit "Failed to connect"
  end.

(** The updater of the [catch] block: the same shape, with
    [content: `Error: ${...}`]. *)
Definition replaceWithError (err : Thrown) (prev : list ChatMessage)
  : list ChatMessage :=
  let updated := prev in
  let lastIdx := Z.of_nat (length updated) - 1 in
  match at_ updated lastIdx with
  | Some last =>
      match role last with
      | assistant =>
          assign updated lastIdx
            (mkChatMessage (role last) (lit "Error: " ++ errorMessage err))
      | user => updated
      end
  | None => updated
  end.

(** [v === s] for a string literal [s] *)
Definition isString (v : JSValue) (s : JSString) : bool :=
  match v with
  | JString t => strictEquals t s
  | _ => false
  end.

(** The body of [for (const line of lines)], as an updater of the
    transcript. [None] inside the [match] is an exception thrown in the
    [try] block ([JSON.parse] on a malformed text, [parsed.type] on [null]),
    which the empty [catch] swallows. (The auto-scroll of the message pane
    touches the DOM only and is left out.) *)
Definition processLine (line : JSString) (prev : list ChatMessage)
  : list ChatMessage :=
  if startsWith line (lit "data: ") then
    let data := slice line 6 in
    if strictEquals data (lit "[DONE]") then prev
    else
      match
        parsed ← JSON_parse data;
        type ← get parsed (lit "type");
        if isString type (lit "content-delta") then
          delta ← get parsed (lit "delta");
          let text :=
            or (getOptional
                  (getOptional (getOptional delta (lit "message"))
                     (lit "content"))
                  (lit "text"))
               (JString []) in
          Some (appendText text prev)
        else Some prev
      with
      | Some updated => updated
      | None => prev
      end
  else prev.

(** [const lines = chunk.split('\n'); for (const line of lines) ...] *)
Definition processChunk (chunk : JSString) (prev : list ChatMessage)
  : list ChatMessage :=
  foldl (fun msgs line => processLine line msgs) prev (split 10 chunk).

(** What is left of a call of [sendChatMessage] that is suspended at an
    [await]: at [fetch], or at [reader.read()] with the decoder it holds. *)
Inductive Pending :=
| AwaitFetch
| AwaitRead (decoder : TextDecoder).

(** How the promise of [reader.read()] settles. *)
Inductive ReadResult :=
| ReadValue (value : list Z)
| ReadDone
| ReadRejected (err : Thrown).

(** The [messages] of the body of a POST to the chat endpoint. *)
Record Request := mkRequest { messages : list ChatMessage }.

(** The popup and its surroundings: the component state, the suspended calls
    of [sendChatMessage], and the requests sent so far. *)
Record World := mkWorld {
  state : State;
  inflight : list Pending;
  requests : list Request;
}.

(** [catch (err) { ... setChatMessages(prev => ...) }] *)
Definition catch_ (err : Thrown) (s : State) : State :=
  setChatMessages (replaceWithError err) s.

(** [finally { setChatLoading(false); }] *)
Definition finally_ (s : State) : State := setChatLoading false s.

Section Handlers.

(** [import.meta.env.VITE_COHERE_KEY]: a string, or [undefined]. *)
Variable apiKey : option JSString.

(** [!apiKey] *)
Definition noApiKey : bool :=
  match apiKey with
  | None => true
  | Some key => bool_decide (key = [])
  end.

(** [sendChatMessage] up to its first [await]. Without a key the [throw]
    runs the [catch] and [finally] blocks at once; with one, the call is
    suspended at [fetch]. The handler reads [chatInput], [chatLoading] and
    [chatMessages] as rendered, that is, from the current state. *)
Definition sendChatMessage (w : World) : World :=
  let s := state w in
  if (bool_decide (trim (chatInput s) = [])) || chatLoading s then w
  else
    let userMessage := trim (chatInput s) in
    let s1 := setChatInput [] s in
    let s2 := setChatMessages (push (mkChatMessage user userMessage)) s1 in
    let s3 := setChatLoading true s2 in
    let s4 := setChatMessages (push (mkChatMessage assistant [])) s3 in
    if noApiKey then
      let err := ErrorObject (lit "VITE_COHERE_KEY not set") in
      mkWorld (finally_ (catch_ err s4)) (inflight w) (requests w)
    else
      let allMessages := chatMessages s ++ [mkChatMessage user userMessage] in
      mkWorld s4 (inflight w ++ [AwaitFetch])
        (requests w ++ [mkRequest allMessages]).

(** From [await fetch(...)] to the first [await reader.read()]. *)
Definition afterFetch (f : Fetched) (s : State) : State * option Pending :=
  match f with
  | Rejected err => (finally_ (catch_ err s), None)
  | Resolved response =>
      if negb (ok response) then
        let err :=
          ErrorObject
            (lit "API error: "
             ++ Number_toString (Double_of_Z (status response))) in
        (finally_ (catch_ err s), None)
      else if negb (hasBody response) then
        let err := ErrorObject (lit "No response body") in
        (finally_ (catch_ err s), None)
      else (s, Some (AwaitRead newTextDecoder))
  end.

(** One turn of [while (true)]: from one [await reader.read()] to the next,
    or out of the loop. *)
Definition afterRead (decoder : TextDecoder) (r : ReadResult) (s : State)
  : State * option Pending :=
  match r with
  | ReadRejected err => (finally_ (catch_ err s), None)
  | ReadDone => (finally_ s, None)
  | ReadValue value =>
      let '(decoder', chunk) := decode decoder value in
      (setChatMessages (processChunk chunk) s, Some (AwaitRead decoder'))
  end.

(** What happens to the popup: the user edits the input box, the user
    submits (Enter, or the send button), or the promise awaited by the
    [k]-th suspended call settles. (The popup disables the input box and the
    button while [chatLoading] is set; here both events may come at any
    time, which only adds behaviours.) *)
Inductive Event :=
| Input (value : JSString)
| Submit
| FetchSettles (k : nat) (f : Fetched)
| ReadSettles (k : nat) (r : ReadResult).

(** The suspended calls after call [k] went on to [p], or ended. *)
Definition resumed (k : nat) (p : option Pending) (calls : list Pending)
  : list Pending :=
  match p with
  | Some p' => <[k := p']> calls
  | None => delete k calls
  end.

(** One event; [None] where the event cannot happen (there is no such
    suspended call, or it awaits something else). *)
Definition step (w : World) (e : Event) : option World :=
  match e with
  | Input value =>
      Some (mkWorld (setChatInput value (state w)) (inflight w) (requests w))
  | Submit => Some (sendChatMessage w)
  | FetchSettles k f =>
      match inflight w !! k with
      | Some AwaitFetch =>
          let '(s, p) := afterFetch f (state w) in
          Some (mkWorld s (resumed k p (inflight w)) (requests w))
      | _ => None
      end
  | ReadSettles k r =>
      match inflight w !! k with
      | Some (AwaitRead decoder) =>
          let '(s, p) := afterRead decoder r (state w) in
          Some (mkWorld s (resumed k p (inflight w)) (requests w))
      | _ => None
      end
  end.

Fixpoint run (w : World) (events : list Event) : option World :=
  match events with
  | [] => Some w
  | e :: events => w' ← step w e; run w' events
  end.

End Handlers.

(** The state of a freshly mounted popup. *)
Definition initialState : State := mkState [] [] false.
Definition initialWorld : World := mkWorld initialState [] [].

(** *** Notions used to state the properties of the chat flow *)

(** The text a line hands to the updater, if it hands any: the [text] of
    the loop body. *)
Definition lineText (line : JSString) : option JSValue :=
  if startsWith line (lit "data: ") then
    let data := slice line 6 in
    if strictEquals data (lit "[DONE]") then None
    else
      parsed ← JSON_parse data;
      type ← get parsed (lit "type");
      if isString type (lit "content-delta") then
        delta ← get parsed (lit "delta");
        Some (or (getOptional
                    (getOptional (getOptional delta (lit "message"))
                       (lit "content"))
                    (lit "text"))
                 (JString []))
      else None
  else None.

(** What a line adds to the content of the last Assistant turn: the string
    form of its text, and nothing where the text has none. *)
Definition lineFragment (line : JSString) : JSString :=
  match lineText line with
  | Some text => default [] (ToString text)
  | None => []
  end.

(** The text of the line, if it hands one to the updater, has a string
    form: the updater does not throw. *)
Definition coerces (line : JSString) : bool :=
  match lineText line with
  | Some text => bool_decide (is_Some (ToString text))
  | None => true
  end.

(** A line that hands nothing to the updater leaves every transcript as it
    is. *)
Definition silent (line : JSString) : Prop := lineText line = None.

Definition processLines (lines : list JSString) (prev : list ChatMessage)
  : list ChatMessage :=
  foldl (fun msgs line => processLine line msgs) prev lines.

(** The stream loop on the texts the decoder yields, chunk after chunk. *)
Definition reduce (chunks : list JSString) (prev : list ChatMessage)
  : list ChatMessage :=
  foldl (fun msgs chunk => processChunk chunk msgs) prev chunks.

(** The texts the decoder of the loop yields for the chunks read, and the
    decoder after them. *)
Fixpoint decodeChunks (d : TextDecoder) (values : list (list Z))
  : TextDecoder * list JSString :=
  match values with
  | [] => (d, [])
  | value :: values =>
      let '(d1, text) := decode d value in
      let '(d2, texts) := decodeChunks d1 values in
      (d2, text :: texts)
  end.

(** Lines, each followed by a line feed. *)
Definition unlines (lines : list JSString) : JSString :=
  mjoin ((fun line => line ++ [10]) <$> lines).

(** The member [key] of [v], if [v] is an object that has one. *)
Definition member (key : JSString) (v : JSValue) : option JSValue :=
  match v with
  | JObject members =>
      match lookup key members with
      | JUndefined => None
      | found => Some found
      end
  | _ => None
  end.

(** The text fragment of an envelope at the path
    [delta.message.content.text]: the string found there, the empty string
    if the path is missing. For a value there that is not a string the
    specification names no fragment. *)
Definition fragmentAtPath (envelope : JSValue) : option JSString :=
  match
    delta ← member (lit "delta") envelope;
    message ← member (lit "message") delta;
    content ← member (lit "content") message;
    member (lit "text") content
  with
  | None => Some []
  | Some (JString s) => Some s
  | Some _ => None
  end.

(** The fragment of a line: lines without the prefix [data: ], the sentinel,
    malformed payloads and envelopes of another type contribute nothing; an
    envelope of type [content-delta] contributes its text fragment. *)
Definition specFragment (line : JSString) : option JSString :=
  if startsWith line (lit "data: ") then
    let payload := slice line 6 in
    if bool_decide (payload = lit "[DONE]") then Some []
    else
      match JSON_parse payload with
      | None => Some []
      | Some envelope =>
          match member (lit "type") envelope with
          | Some (JString type) =>
              if bool_decide (type = lit "content-delta")
              then fragmentAtPath envelope
              else Some []
          | _ => Some []
          end
      end
  else Some [].

(** What holds of every world the popup reaches: either no call is suspended
    and the loading flag is down, or exactly one call is suspended, the flag
    is up, and the transcript ends with an Assistant turn. *)
Definition Inv (w : World) : Prop :=
  (inflight w = [] /\ chatLoading (state w) = false) \/
  (exists (p : Pending) (init : list ChatMessage) (c : JSString),
     inflight w = [p] /\ chatLoading (state w) = true /\
     chatMessages (state w) = init ++ [mkChatMessage assistant c]).

(** The submission is taken: the trimmed input is not empty and no exchange
    is loading. *)
Definition accepted (w : World) : Prop :=
  trim (chatInput (state w)) <> [] /\ chatLoading (state w) = false.

(** The event lines of the running example. *)
Definition line_Hi : JSString :=
  litq "data: {'type':'content-delta','delta':{'message':{'content':{'text':'Hi'}}}}".
Definition line_there : JSString :=
  litq "data: {'type':'content-delta','delta':{'message':{'content':{'text':' there'}}}}".
Definition line_DONE : JSString := lit "data: [DONE]".

Definition key : option JSString := Some (lit "secret").

(** *** The rest of the chat view *)

(** What [handleKeyDown] reads of a [React.KeyboardEvent]. *)
Module KeyboardEvent.
Record t := mk { key : JSString; shiftKey : bool }.
End KeyboardEvent.

(** [handleKeyDown]:
<<
    if (e.key === 'Enter' && !e.shiftKey) {
      e.preventDefault();
      sendChatMessage();
    }
>>
    The boolean tells whether [preventDefault] was called. *)
Definition handleKeyDown (apiKey : option JSString) (e : KeyboardEvent.t)
    (w : World) : bool * World :=
  if strictEquals (KeyboardEvent.key e) (lit "Enter")
     && negb (KeyboardEvent.shiftKey e)
  then (true, sendChatMessage apiKey w)
  else (false, w).

(** [disabled={chatLoading || !chatInput.trim()}] on the send button. *)
Definition sendButtonDisabled (s : State) : bool :=
  chatLoading s || bool_decide (trim (chatInput s) = []).

(** An updater of the transcript that leaves it alone or changes only the
    content of a last, Assistant, turn. *)
Definition lastOnly (f : list ChatMessage -> list ChatMessage) : Prop :=
  forall l,
    f l = l \/
    exists (init : list ChatMessage) (c c' : JSString),
      l = init ++ [mkChatMessage assistant c] /\
      f l = init ++ [mkChatMessage assistant c'].

(** The states in which the lexer may stand inside a literal name: what is
    left of the name holds no white space. *)
Definition literalState (st : LexState) : Prop :=
  match st with
  | LLiteral rest _ => Forall (fun x => isJSONWhiteSpace x = false) rest
  | _ => True
  end.

(** A text without white space at either end, and not empty. *)
Definition trimmed (s : JSString) : Prop := s <> [] /\ trim s = s.

(** Lines, each followed by a carriage return and a line feed. *)
Definition unlinesCRLF (lines : list JSString) : JSString :=
  mjoin ((fun line => line ++ [13; 10]) <$> lines).

(** The states in which the lexer stands outside a string. *)
Definition outsideString (st : LexState) : Prop :=
  match st with
  | LReady | LNumber _ _ | LLiteral _ _ => True
  | LString _ | LEscape _ | LUnicode _ _ _ => False
  end.

(** The states in which the lexer may stand inside a literal name: what is
    left of the name is made of letters of [true], [false] and [null]. *)
Definition literalLetters (st : LexState) : Prop :=
  match st with
  | LLiteral rest _ => Forall (fun x => x ∈ lit "truefalsn") rest
  | _ => True
  end.

End Chat.

(* ===================================================================== *)
(** ** Geo-lookup flow *)
(* ===================================================================== *)

Module Geo.
Import JS.

(** [interface IpInfo]. The fields hold what the response holds at the
    names read, of whatever type it is there. *)
Record IpInfo := mkIpInfo {
  ip : JSValue;
  country : JSValue;
  city : JSValue;
  region : JSValue;
  org : JSValue;
}.

(** The state hooks of the geo-lookup flow. *)
Record State := mkState {
  ipInfo : option IpInfo;
  loading : bool;
  error : option JSString;
}.

(** [useState(null)], [useState(true)], [useState(null)] *)
Definition initialState : State := mkState None true None.

Definition setIpInfo (v : option IpInfo) (s : State) : State :=
  mkState v (loading s) (error s).

Definition setLoading (b : bool) (s : State) : State :=
  mkState (ipInfo s) b (error s).

Definition setError (v : option JSString) (s : State) : State :=
  mkState (ipInfo s) (loading s) v.

(** The object handed to [setIpInfo], built from the parsed body [data];
    [None] where the [try] block throws instead.
<<
    if (!data.success) throw new Error(data.message || 'API error');
    setIpInfo({
      ip: data.ip, country: data.country, city: data.city,
      region: data.region,
      org: data.connection?.isp || data.connection?.org || 'Unknown',
    });
>>
    The names read here are names of no inherited member, so [get] and
    [getOptional] answer for them as for the names of the chat flow. *)
Definition record (data : JSValue) : option IpInfo :=
  success ← get data (lit "success");
  if negb (truthy success) then None
  else
    ip ← get data (lit "ip");
    country ← get data (lit "country");
    city ← get data (lit "city");
    region ← get data (lit "region");
    connection ← get data (lit "connection");
    Some (mkIpInfo ip country city region
            (or (or (getOptional connection (lit "isp"))
                    (getOptional connection (lit "org")))
                (JString (lit "Unknown")))).

(** [catch (err) { ... setError('Failed to fetch IP information'); }],
    whatever was thrown. *)
Definition catch_ (s : State) : State :=
  setError (Some (lit "Failed to fetch IP information")) s.

(** [finally { setLoading(false); }] *)
Definition finally_ (s : State) : State := setLoading false s.

(** What is left of a call of [fetchIpInfo] that is suspended at an
    [await]: at [fetch], or at [response.json()]. *)
Inductive Pending :=
| AwaitFetch
| AwaitJson.

(** The popup and the suspended calls of [fetchIpInfo]. Nothing disables
    the buttons that start a call, so several calls may be suspended. *)
Record World := mkWorld {
  state : State;
  inflight : list Pending;
}.

(** [fetchIpInfo] up to its first [await]:
    [setLoading(true); setError(null);], and the call is suspended at
    [fetch]. *)
Definition fetchIpInfo (w : World) : World :=
  mkWorld (setError None (setLoading true (state w)))
    (inflight w ++ [AwaitFetch]).

(** From [await fetch(...)] to [await response.json()], or through [catch]
    and [finally] to the end:
<<
    const response = await fetch('https://ipwho.is/');
    if (!response.ok) throw new Error('Failed to fetch IP info');
    const data = await response.json();
>> *)
Definition afterFetch (f : Fetched) (s : State) : State * option Pending :=
  match f with
  | Rejected _ => (finally_ (catch_ s), None)
  | Resolved response =>
      if negb (ok response) then (finally_ (catch_ s), None)
      else (s, Some AwaitJson)
  end.

(** From [await response.json()] to the end. [body] is the text of the
    body, or [None] where reading it fails; [response.json()] rejects in
    that case, and where the text is no JSON text. *)
Definition afterJson (body : option JSString) (s : State) : State :=
  match text ← body; data ← JSON_parse text; record data with
  | Some info => finally_ (setIpInfo (Some info) s)
  | None => finally_ (catch_ s)
  end.

(** What happens to the popup: a call of [fetchIpInfo] starts (the effect
    that runs when the popup is mounted, a click on [retry] or on
    [refresh]), or the promise awaited by the [k]-th suspended call
    settles. *)
Inductive Event :=
| Fetch
| FetchSettles (k : nat) (f : Fetched)
| JsonSettles (k : nat) (body : option JSString).

(** The suspended calls after call [k] went on to [p], or ended. *)
Definition resumed (k : nat) (p : option Pending) (calls : list Pending)
  : list Pending :=
  match p with
  | Some p' => <[k := p']> calls
  | None => delete k calls
  end.

(** One event; [None] where the event cannot happen (there is no such
    suspended call, or it awaits something else). *)
Definition step (w : World) (e : Event) : option World :=
  match e with
  | Fetch => Some (fetchIpInfo w)
  | FetchSettles k f =>
      match inflight w !! k with
      | Some AwaitFetch =>
          let '(s, p) := afterFetch f (state w) in
          Some (mkWorld s (resumed k p (inflight w)))
      | _ => None
      end
  | JsonSettles k body =>
      match inflight w !! k with
      | Some AwaitJson =>
          Some (mkWorld (afterJson body (state w)) (delete k (inflight w)))
      | _ => None
      end
  end.

Fixpoint run (w : World) (events : list Event) : option World :=
  match events with
  | [] => Some w
  | e :: events => w' ← step w e; run w' events
  end.

(** The popup before the effect that starts the first call. *)
Definition initialWorld : World := mkWorld initialState [].

(** The flag of a two-letter country code: its letters as regional
    indicator symbols (U+1F1E6 is the symbol of A). *)
Definition regional (iso : string) : JSString :=
  mjoin ((fun c => codeUnits (127462 + (c - 65))) <$> lit iso).

(** The object literal [flags] of [getCountryFlag], member by member. *)
Definition flags : list (JSString * JSString) :=
  [ (lit "United States", regional "US");
    (lit "Canada", regional "CA");
    (lit "United Kingdom", regional "GB");
    (lit "Germany", regional "DE");
    (lit "France", regional "FR");
    (lit "Japan", regional "JP");
    (lit "Australia", regional "AU");
    (lit "Netherlands", regional "NL");
    (lit "Singapore", regional "SG");
    (lit "Hong Kong", regional "HK");
    (lit "China", regional "CN");
    (lit "Taiwan", regional "TW");
    (lit "South Korea", regional "KR");
    (lit "India", regional "IN");
    (lit "Brazil", regional "BR");
    (lit "Mexico", regional "MX");
    (lit "Switzerland", regional "CH");
    (lit "Sweden", regional "SE");
    (lit "Norway", regional "NO");
    (lit "Ireland", regional "IE") ].

(** The default, U+1F30D. *)
Definition globe : JSString := codeUnits 127757.

(** The names of the members an object literal inherits from
    [Object.prototype]; each of them is a function or an object, hence
    truthy. *)
Definition inherited : list JSString :=
  lit <$> [ "constructor"; "__defineGetter__"; "__defineSetter__";
            "hasOwnProperty"; "__lookupGetter__"; "__lookupSetter__";
            "isPrototypeOf"; "propertyIsEnumerable"; "toString"; "valueOf";
            "__proto__"; "toLocaleString" ]%string.

(** The own member [name] of an object literal given by its members. *)
Fixpoint own (name : JSString) (members : list (JSString * JSString))
  : option JSString :=
  match members with
  | [] => None
  | (k, v) :: rest =>
      match own name rest with
      | Some found => Some found
      | None => if bool_decide (k = name) then Some v else None
      end
  end.

(** What [getCountryFlag] returns: a string, or an inherited member. *)
Inductive FlagResult :=
| Flag (s : JSString)
| Inherited (name : JSString).

(** [return flags[countryName] || globe] *)
Definition getCountryFlag (countryName : JSString) : FlagResult :=
  match own countryName flags with
  | Some flag => if bool_decide (flag = []) then Flag globe else Flag flag
  | None =>
      if bool_decide (countryName ∈ inherited) then Inherited countryName
      else Flag globe
  end.

(** A value that React renders as a child: a string, a number, nothing for
    a boolean, [null] or [undefined], the elements of an array one after
    the other; a plain object makes the render throw. *)
Fixpoint renderable (v : JSValue) : bool :=
  match v with
  | JObject _ => false
  | JArray elements => forallb renderable elements
  | _ => true
  end.

(** Whether the block of the record renders without an exception:
<<
    <span className="country-flag">{getCountryFlag(ipInfo.country)}</span>
    <span className="country-name">{ipInfo.country}</span>
    ... {ipInfo.ip} ... {ipInfo.city}, {ipInfo.region} ...
    <span ... title={ipInfo.org}>{ipInfo.org}</span>
>>
    [flags[countryName]] turns the country into a property key, which
    throws where the value has no string form; an inherited member comes
    back as it is, and renders as nothing if it is a function, while
    [__proto__], an object, makes the render throw. (The [title] is turned
    into a string, which never throws for a value that renders as a
    child.) *)
Definition infoRenders (info : IpInfo) : bool :=
  match ToString (country info) with
  | Some name =>
      match getCountryFlag name with
      | Flag _ => true
      | Inherited member => negb (bool_decide (member = lit "__proto__"))
      end
  | None => false
  end
  && renderable (country info) && renderable (ip info)
  && renderable (city info) && renderable (region info)
  && renderable (org info).

(** What the IP card shows:
    [loading ? spinner : error ? error-state : ipInfo && info], or that the
    render throws. *)
Inductive Panel :=
| Spinner
| ErrorState (text : JSString)
| Info (info : IpInfo)
| Blank
| RenderError.

Definition ipPanel (s : State) : Panel :=
  if loading s then Spinner
  else
    let info :=
      match ipInfo s with
      | Some i => if infoRenders i then Info i else RenderError
      | None => Blank
      end in
    match error s with
    | Some text => if bool_decide (text = []) then info else ErrorState text
    | None => info
    end.

(** The body of a refusal of the service. *)
Definition refusedBody : JSString :=
  litq "{'success':false,'message':'Invalid IP address'}".

(** The body of an answer. *)
Definition goodBody : JSString :=
  litq "{'ip':'8.8.8.8','success':true,'country':'United States','region':'California','city':'Mountain View','connection':{'org':'Google LLC','isp':''}}".

End Geo.

(* ===================================================================== *)
(** ** The stream test script *)
(* ===================================================================== *)

Module Script.
Import JS.

(** The variables of the script while it reads the stream, with what it has
    written to the standard output and the number of calls of [Date.now()]
    so far. *)
Record Loop := mkLoop {
  stdout : JSString;
  chunkCount : Z;
  firstChunkTime : option Z;
  calls : nat;
}.

(** What the script has at its end. *)
Record Report := mkReport {
  output : JSString;
  chunks : Z;
  firstChunk : option Z;
  totalTime : Z;
}.

(** [console.log(text)] *)
Definition console_log (text : JSString) (out : JSString) : JSString :=
  out ++ text ++ [10].

(** An integer in a template literal. *)
Definition number (z : Z) : JSString := Number_toString (Double_of_Z z).

(** [${firstChunkTime}], which is [null] until the first chunk. *)
Definition showTime (t : option Z) : JSString :=
  match t with
  | Some z => number z
  | None => lit "null"
  end.

(** The line logged at the first chunk; the text ends with a line feed of
    its own. *)
Definition firstChunkLog (t : Z) : JSString :=
  lit "[First chunk arrived after " ++ number t ++ lit "ms]" ++ [10].

(** The three lines after the stream; the first text starts with two line
    feeds. *)
Definition stats (n : Z) (first : option Z) (total : Z) : JSString :=
  console_log (lit "Total time: " ++ number total ++ lit "ms")
    (console_log (lit "Time to first chunk: " ++ showTime first ++ lit "ms")
       (console_log (lit "Total chunks: " ++ number n)
          (console_log ([10; 10] ++ lit "---Stats---") []))).

(** The two lines before the stream; each text ends with a line feed of its
    own. *)
Definition header : JSString :=
  console_log (lit "---Response---" ++ [10])
    (console_log (lit "Starting Cohere stream test..." ++ [10]) []).

Section Run.

(** The clock: what the [k]-th call of [Date.now()] returns. *)
Variable now : nat -> Z.

(** The body of [for await (const chatEvent of stream)]:
<<
    if (chatEvent.type === 'content-delta') {
      if (firstChunkTime === null) {
        firstChunkTime = Date.now() - startTime;
        console.log(`[First chunk arrived after ${firstChunkTime}ms]\n`);
      }
      chunkCount++;
      process.stdout.write(chatEvent.delta?.message?.content?.text || '');
    }
>>
    [None] where it throws: [chatEvent.type] on [null], and
    [process.stdout.write] on anything but a string. *)
Definition onEvent (startTime : Z) (chatEvent : JSValue) (st : Loop)
  : option Loop :=
  type ← get chatEvent (lit "type");
  if Chat.isString type (lit "content-delta") then
    let st :=
      match firstChunkTime st with
      | None =>
          let t := now (calls st) - startTime in
          mkLoop (console_log (firstChunkLog t) (stdout st)) (chunkCount st)
            (Some t) (S (calls st))
      | Some _ => st
      end in
    let st :=
      mkLoop (stdout st) (chunkCount st + 1) (firstChunkTime st) (calls st) in
    delta ← get chatEvent (lit "delta");
    match
      or (getOptional
            (getOptional (getOptional delta (lit "message")) (lit "content"))
            (lit "text"))
         (JString [])
    with
    | JString text =>
        Some (mkLoop (stdout st ++ text) (chunkCount st) (firstChunkTime st)
                (calls st))
    | _ => None
    end
  else Some st.

Fixpoint onEvents (startTime : Z) (events : list JSValue) (st : Loop)
  : option Loop :=
  match events with
  | [] => Some st
  | chatEvent :: events =>
      st' ← onEvent startTime chatEvent st; onEvents startTime events st'
  end.

(** The script on a stream that delivers [events] and ends; [None] where an
    exception ends it first. *)
Definition main (events : list JSValue) : option Report :=
  let startTime := now 0 in
  st ← onEvents startTime events (mkLoop header 0 None 1);
  let total := now (calls st) - startTime in
  Some (mkReport
          (stdout st ++ stats (chunkCount st) (firstChunkTime st) total)
          (chunkCount st) (firstChunkTime st) total).

End Run.

(** An event of type [content-delta]. *)
Definition isDelta (chatEvent : JSValue) : bool :=
  match get chatEvent (lit "type") with
  | Some type => Chat.isString type (lit "content-delta")
  | None => false
  end.

(** The text at [delta.message.content.text] of an event, the empty text if
    there is none. *)
Definition textOf (chatEvent : JSValue) : JSValue :=
  or (getOptional
        (getOptional
           (getOptional (getOptional chatEvent (lit "delta")) (lit "message"))
           (lit "content"))
        (lit "text"))
     (JString []).

(** What the script writes for an event it survives. *)
Definition written (chatEvent : JSValue) : JSString :=
  if isDelta chatEvent then
    match textOf chatEvent with
    | JString text => text
    | _ => []
    end
  else [].

(** The events of the running example, and a clock. *)
Definition event_Hi : JSValue :=
  JObject [(lit "type", JString (lit "content-delta"));
           (lit "delta",
            JObject [(lit "message",
                      JObject [(lit "content",
                                JObject [(lit "text", JString (lit "Hi"))])])])].

Definition event_end : JSValue :=
  JObject [(lit "type", JString (lit "message-end"))].

Definition clock (k : nat) : Z := 1700000000000 + 250 * Z.of_nat k.

End Script.

(* ===================================================================== *)
(** ** Properties of the latency flow *)
(* ===================================================================== *)

Module LatencyFacts.
Import JS Latency.
Local Open Scope latency_scope.

(** *** Arithmetic of the runtime *)

Lemma Math_round_inject_Z (z : Z) : Math_round (inject_Z z) = z.
Proof.
  unfold Math_round.
  assert (H : (inject_Z z + (1 # 2) == (2 * z + 1) # 2)%Q).
  { unfold Qeq, Qplus, inject_Z; simpl. lia. }
  rewrite H. unfold Qfloor. symmetry. apply Z.div_unique with (r := 1); lia.
Qed.

Lemma Math_round_mono (x y : Q) : (x <= y)%Q -> Math_round x <= Math_round y.
Proof.
  intros H. unfold Math_round. apply Qfloor_resp_le.
  apply Qplus_le_l. exact H.
Qed.

Lemma Math_round_between (lo hi : Z) (x : Q) :
  (inject_Z lo <= x)%Q -> (x <= inject_Z hi)%Q -> lo <= Math_round x <= hi.
Proof.
  intros Hlo Hhi. split.
  - rewrite <- (Math_round_inject_Z lo). by apply Math_round_mono.
  - rewrite <- (Math_round_inject_Z hi). by apply Math_round_mono.
Qed.

(** [Math.round] is within half a unit of its argument. *)
Lemma Math_round_nearest (x : Q) :
  (inject_Z (Math_round x) - (1 # 2) <= x)%Q /\
  (x < inject_Z (Math_round x) + (1 # 2))%Q.
Proof.
  unfold Math_round.
  pose proof (Qfloor_le (x + (1 # 2))) as Hle.
  pose proof (Qlt_floor (x + (1 # 2))) as Hlt.
  rewrite inject_Z_plus in Hlt.
  split.
  - apply Qplus_le_l with (z := (1 # 2)%Q).
    eapply Qle_trans; [|exact Hle].
    apply Qle_lteq; right. ring.
  - apply Qplus_lt_l with (z := (1 # 2)%Q).
    eapply Qlt_le_trans; [exact Hlt|].
    apply Qle_lteq; right. ring.
Qed.

Lemma foldl_add_shift (a : Z) (xs : list Z) : foldl Z.add a xs = a + sum xs.
Proof.
  unfold sum. revert a. induction xs as [|x xs IH]; intros a; simpl; [lia|].
  rewrite (IH (a + x)), (IH (0 + x)). lia.
Qed.

Lemma sum_cons (x : Z) (xs : list Z) : sum (x :: xs) = x + sum xs.
Proof. unfold sum at 1. simpl. apply foldl_add_shift. Qed.

Lemma sum_bounds (lo hi : Z) (xs : list Z) :
  Forall (fun x => lo <= x <= hi) xs ->
  lo * Z.of_nat (length xs) <= sum xs <= hi * Z.of_nat (length xs).
Proof.
  induction 1 as [|x xs Hx _ IH].
  - unfold sum; simpl. lia.
  - rewrite sum_cons. simpl length. lia.
Qed.

Lemma foldl_min_spec (x : Z) (xs : list Z) :
  foldl Z.min x xs <= x /\ Forall (fun y => foldl Z.min x xs <= y) xs.
Proof.
  revert x. induction xs as [|y xs IH]; intros x; simpl.
  - split; [lia | constructor].
  - destruct (IH (Z.min x y)) as [H1 H2]. split; [lia|].
    constructor; [lia | exact H2].
Qed.

Lemma foldl_max_spec (x : Z) (xs : list Z) :
  x <= foldl Z.max x xs /\ Forall (fun y => y <= foldl Z.max x xs) xs.
Proof.
  revert x. induction xs as [|y xs IH]; intros x; simpl.
  - split; [lia | constructor].
  - destruct (IH (Z.max x y)) as [H1 H2]. split; [lia|].
    constructor; [lia | exact H2].
Qed.

Lemma Math_min_lower (xs : list Z) (lo : Z) :
  Math_min xs = Some lo -> Forall (fun y => lo <= y) xs.
Proof.
  destruct xs as [|x xs]; [discriminate|]. intros [= <-].
  destruct (foldl_min_spec x xs). by constructor.
Qed.

Lemma Math_max_upper (xs : list Z) (hi : Z) :
  Math_max xs = Some hi -> Forall (fun y => y <= hi) xs.
Proof.
  destruct xs as [|x xs]; [discriminate|]. intros [= <-].
  destruct (foldl_max_spec x xs). by constructor.
Qed.

Lemma mean_between (xs : list Z) (lo hi : Z) :
  xs <> [] ->
  Math_min xs = Some lo -> Math_max xs = Some hi ->
  lo <= mean xs <= hi.
Proof.
  intros Hne Hmin Hmax.
  assert (Hlen : 0 < Z.of_nat (length xs)) by (destruct xs; [done | simpl; lia]).
  assert (Hb : Forall (fun x => lo <= x <= hi) xs).
  { pose proof (Math_min_lower _ _ Hmin) as H1.
    pose proof (Math_max_upper _ _ Hmax) as H2.
    rewrite Forall_forall in *. intros y Hy. split; auto. }
  destruct (sum_bounds _ _ _ Hb) as [Hs1 Hs2].
  assert (HlenQ : (0 < inject_Z (Z.of_nat (length xs)))%Q).
  { rewrite <- (Zlt_Qlt 0). exact Hlen. }
  unfold mean. apply Math_round_between.
  - apply Qle_shift_div_l; [exact HlenQ|].
    rewrite <- inject_Z_mult, <- Zle_Qle. exact Hs1.
  - apply Qle_shift_div_r; [exact HlenQ|].
    rewrite <- inject_Z_mult, <- Zle_Qle. exact Hs2.
Qed.

(** *** What a run of the averaged test does *)

Lemma probeLoop_spec (net : nat -> Probe) (TC : Z) (n : nat) :
  forall (j : nat) (lat : list Z) (w : World) (first : nat),
    issued w = (first + j)%nat ->
    probeLoop net TC n (Z.of_nat j) lat w =
    (lat ++ samplesOf net (issued w) n,
     mkWorld
       (match n with
        | O => state w
        | S _ => withProgress (state w) (Z.of_nat (j + n))
        end)
       (issued w + n)
       (trace w ++ flat_map (iterationEvents net TC first) (seq j n))).
Proof.
  induction n as [|n IH]; intros j lat w first Hw.
  - simpl. unfold ret, samplesOf. simpl.
    rewrite !app_nil_r, Nat.add_0_r. by destruct w.
  - cbn [probeLoop]. unfold bind at 1. unfold setAvgProgress, bind, modify, emit.
    cbn [state issued trace]. unfold singlePing at 1. cbn [state issued trace].
    replace (Z.of_nat j + 1) with (Z.of_nat (S j)) by lia.
    set (r := singlePing_result (net (issued w))).
    assert (Hsleep : forall (w1 : World),
      (if Z.of_nat j <? TC - 1 then sleep 200 else ret tt) w1 =
      (tt, mkWorld (state w1) (issued w1)
             (trace w1 ++ (if Z.of_nat j <? TC - 1 then [Sleep 200] else [])))).
    { intros w1. destruct (Z.of_nat j <? TC - 1); unfold sleep, emit, ret; simpl.
      - done.
      - rewrite app_nil_r. by destruct w1. }
    rewrite Hsleep. cbn [state issued trace].
    rewrite (IH (S j) _ _ first) by (cbn [issued]; lia).
    cbn [state issued trace]. f_equal.
    + unfold samplesOf. subst r. cbn.
      destruct (singlePing_result (net (issued w))); cbn;
        by rewrite <- ?app_assoc.
    + f_equal.
      * destruct n; unfold withProgress; cbn; f_equal; lia.
      * lia.
      * cbn [seq flat_map]. unfold iterationEvents at 2.
        rewrite <- Hw. subst r.
        replace (Z.of_nat j + 1) with (Z.of_nat (S j)) by lia.
        rewrite <- !app_assoc. reflexivity.
Qed.

Lemma testAverageConnectionN_spec (net : nat -> Probe) (N : nat) (w : World) :
  testAverageConnectionN net N w =
  (tt,
   mkWorld
     (mkState (Some (finalResult (samplesOf net (issued w) N)))
        (testing (state w)) false 0)
     (issued w + N)
     (trace w
      ++ [SetTestingAverage true; SetAvgProgress 0; SetPingResult (pendingResult N)]
      ++ flat_map (iterationEvents net (Z.of_nat N) (issued w)) (seq 0 N)
      ++ [SetPingResult (finalResult (samplesOf net (issued w) N));
          SetTestingAverage false; SetAvgProgress 0])).
Proof.
  unfold testAverageConnectionN.
  unfold bind at 1. unfold setTestingAverage at 1. unfold bind at 1, modify, emit.
  cbn [state issued trace testing testingAverage avgProgress pingResult].
  unfold bind at 1. unfold setAvgProgress at 1. unfold bind at 1, modify, emit.
  cbn [state issued trace testing testingAverage avgProgress pingResult].
  unfold bind at 1. unfold setPingResult at 1. unfold bind at 1, modify, emit.
  cbn [state issued trace testing testingAverage avgProgress pingResult].
  unfold bind at 1.
  rewrite (probeLoop_spec net (Z.of_nat N) N 0 [] _ (issued w))
    by (cbn [issued]; lia).
  cbn [state issued trace app].
  set (lat := samplesOf net (issued w) N).
  fold (pendingResult N).
  assert (Hfin : forall (w1 : World),
    (if Z.of_nat (length lat) >? 0
     then setPingResult
            (mkPingResult cloudflare
               (Some (Math_round (inject_Z (sum lat) / inject_Z (Z.of_nat (length lat)))%Q))
               success (Some true) (Some (Z.of_nat (length lat))) (Some lat))
     else setPingResult (mkPingResult cloudflare None error (Some true) None None)) w1
    = setPingResult (finalResult lat) w1).
  { intros w1. unfold finalResult, mean. by destruct (Z.of_nat (length lat) >? 0). }
  unfold bind at 1. rewrite Hfin.
  unfold setPingResult, setTestingAverage, setAvgProgress, bind, modify, emit.
  cbn [state issued trace testing testingAverage avgProgress pingResult].
  f_equal. f_equal.
  - destruct N; unfold withProgress; reflexivity.
  - rewrite <- !app_assoc. reflexivity.
Qed.

Lemma samplesOf_length (net : nat -> Probe) (first n : nat) :
  (length (samplesOf net first n) <= n)%nat.
Proof.
  unfold samplesOf. revert first.
  induction n as [|n IH]; intros first; cbn; [lia|].
  specialize (IH (S first)).
  destruct (singlePing_result (net first)); cbn in *; lia.
Qed.

Lemma samplesOf_elem (net : nat -> Probe) (first n : nat) (x : Z) :
  x ∈ samplesOf net first n <->
  exists k, (k < n)%nat /\ singlePing_result (net (first + k)%nat) = Some x.
Proof.
  unfold samplesOf. rewrite list_elem_of_omap. split.
  - intros (i & Hi & Hx). apply elem_of_seq in Hi.
    exists (i - first)%nat. split; [lia|].
    by replace (first + (i - first))%nat with i by lia.
  - intros (k & Hk & Hx). exists (first + k)%nat. split; [|done].
    apply elem_of_seq. lia.
Qed.

Lemma samplesOf_nil (net : nat -> Probe) (first n : nat) :
  (forall k, (k < n)%nat -> singlePing_result (net (first + k)%nat) = None) ->
  samplesOf net first n = [].
Proof.
  intros Hall. destruct (samplesOf net first n) as [|x l] eqn:E; [done|].
  assert (Hx : x ∈ samplesOf net first n) by (rewrite E; left).
  apply samplesOf_elem in Hx as (k & Hk & Hx).
  rewrite (Hall k Hk) in Hx. discriminate.
Qed.

(** *** The claims on the latency flow *)

(** C1. In a run of the averaged test over [N] probes in which at least one
    probe succeeds, the published result is a success whose sample list is
    the successful samples in order, whose [testCount] is their number (at
    most [N]), whose [latency] is [Math.round] of their sum divided by their
    number, and that mean lies between the least and the greatest sample. *)
Theorem average_of_successful_samples
    (net : nat -> Probe) (N : nat) (w : World) :
  (exists k, (k < N)%nat /\
             is_Some (singlePing_result (net (issued w + k)%nat))) ->
  let samples := samplesOf net (issued w) N in
  exists (r : PingResult) (m lo hi : Z),
    pingResult (state (testAverageConnectionN net N w).2) = Some r /\
    status r = success /\
    allLatencies r = Some samples /\
    testCount r = Some (Z.of_nat (length samples)) /\
    (0 < length samples <= N)%nat /\
    latency r = Some m /\
    m = Math_round (inject_Z (sum samples) /
                    inject_Z (Z.of_nat (length samples)))%Q /\
    Math_min samples = Some lo /\ Math_max samples = Some hi /\
    lo <= m <= hi.
Proof.
  intros (k & Hk & [x Hx]) samples.
  assert (Hin : x ∈ samples) by (apply samplesOf_elem; eauto).
  assert (Hne : samples <> []) by (intros E; rewrite E in Hin; inversion Hin).
  assert (Hlen : (0 < length samples)%nat) by (destruct samples; [done | simpl; lia]).
  destruct (Math_min samples) as [lo|] eqn:Hmin; [|by destruct samples].
  destruct (Math_max samples) as [hi|] eqn:Hmax; [|by destruct samples].
  rewrite testAverageConnectionN_spec. cbn [snd state pingResult].
  fold samples. unfold finalResult.
  replace (Z.of_nat (length samples) >? 0) with true by (symmetry; lia).
  exists (mkPingResult cloudflare (Some (mean samples)) success (Some true)
            (Some (Z.of_nat (length samples))) (Some samples)),
         (mean samples), lo, hi.
  cbn [status allLatencies testCount latency].
  pose proof (samplesOf_length net (issued w) N) as Hle. fold samples in Hle.
  pose proof (mean_between samples lo hi Hne Hmin Hmax) as Hbetween.
  split_and!; done || lia.
Qed.

Lemma average_of_successful_samples_witness :
  exists (r : PingResult) (m lo hi : Z),
    pingResult (state (testAverageConnection net_alternating initialWorld).2)
      = Some r /\
    status r = success /\
    allLatencies r = Some [12; 14; 16] /\
    testCount r = Some 3 /\
    (0 < 3 <= 5)%nat /\
    latency r = Some m /\
    m = 14 /\
    Math_min [12; 14; 16] = Some lo /\ Math_max [12; 14; 16] = Some hi /\
    lo <= m <= hi.
Proof.
  apply (average_of_successful_samples net_alternating 5 initialWorld).
  exists 0%nat. split; [lia|]. vm_compute. eauto.
Defined.

(** C7. In a run of the averaged test over [N] probes in which every probe
    fails, whatever [N] is, the published result has status [error], a null
    [latency], and neither [testCount] nor [allLatencies]. *)
Theorem all_probes_fail_error
    (net : nat -> Probe) (N : nat) (w : World) :
  (forall k, (k < N)%nat ->
             singlePing_result (net (issued w + k)%nat) = None) ->
  pingResult (state (testAverageConnectionN net N w).2) =
    Some (mkPingResult cloudflare None error (Some true) None None).
Proof.
  intros Hall. rewrite testAverageConnectionN_spec. cbn [snd state pingResult].
  by rewrite (samplesOf_nil _ _ _ Hall).
Qed.

Lemma all_probes_fail_error_witness :
  pingResult (state (testAverageConnection net_down initialWorld).2) =
    Some (mkPingResult cloudflare None error (Some true) None None).
Proof.
  apply (all_probes_fail_error net_down 5 initialWorld).
  intros k Hk. unfold net_down, singlePing_result. cbn [fetched].
  by destruct (Nat.even _).
Defined.

(** C8, counterexample: in a run of [testAverageConnection] with every probe
    succeeding, [setAvgProgress(1)] is not issued after the first probe
    completes: it is the event just before that probe starts. *)
Lemma progress_after_probe_counterexample :
  ~ (forall k, (k < TEST_COUNT)%nat ->
       firesAfterProbe
         (trace (testAverageConnection net_up initialWorld).2) k).
Proof.
  intros H. destruct (H 0%nat) as (i & j & sample & Hi & Hj & Hlt).
  { unfold TEST_COUNT. lia. }
  vm_compute in Hi, Hj.
  assert (Hj3 : j = 3%nat).
  { do 25 (destruct j as [|j]; [first [discriminate Hj | reflexivity]|]).
    destruct j; discriminate Hj. }
  subst j.
  do 3 (destruct i as [|i]; [discriminate Hi|]). lia.
Qed.

(** C8, amended. A run of the averaged test over [N] probes issues, for each
    probe [j] (0-based) in turn, [setAvgProgress(j + 1)] immediately before
    that probe starts, then the probe, then the 200 ms pause unless the probe
    is the last; the progress is also set to 0 before the loop and after the
    result is published. So the setter fires once per probe with its 1-based
    index, and the index reported while probe [j + 1] runs and when it
    completes is [j + 1]. *)
Theorem progress_before_each_probe
    (net : nat -> Probe) (N : nat) (w : World) :
  exists (final : PingResult),
    trace (testAverageConnectionN net N w).2 =
      trace w
      ++ [SetTestingAverage true; SetAvgProgress 0;
          SetPingResult
            (mkPingResult cloudflare None pending (Some true)
               (Some (Z.of_nat N)) None)]
      ++ flat_map
           (fun j =>
              [SetAvgProgress (Z.of_nat j + 1);
               ProbeStart (issued w + j);
               ProbeEnd (issued w + j)
                 (singlePing_result (net (issued w + j)%nat))]
              ++ (if Z.of_nat j <? Z.of_nat N - 1 then [Sleep 200] else []))
           (seq 0 N)
      ++ [SetPingResult final; SetTestingAverage false; SetAvgProgress 0].
Proof.
  exists (finalResult (samplesOf net (issued w) N)).
  rewrite testAverageConnectionN_spec. reflexivity.
Qed.

(** *** The difference of two timer readings *)

Lemma pw_pos (k : Z) : (0 < 2 ^ k)%Q.
Proof. by apply Qpower_0_lt. Qed.

Lemma pw_add (a b : Z) : (2 ^ (a + b) == 2 ^ a * 2 ^ b)%Q.
Proof. by apply Qpower_plus. Qed.

Lemma pw_inject (k : Z) : 0 <= k -> (inject_Z (2 ^ k) == 2 ^ k)%Q.
Proof. intros Hk. by rewrite Zpower_Qpower. Qed.

Lemma pw_cancel (k : Z) : (2 ^ k * 2 ^ (- k) == 1)%Q.
Proof. rewrite <- pw_add. by replace (k + - k) with 0 by lia. Qed.

(** [2 * |m * den - num| <= den] *)
Lemma divNearestEven_half (num den : Z) :
  0 < den ->
  let m := divNearestEven num den in
  - den <= 2 * (m * den - num) <= den.
Proof.
  intros Hd. unfold divNearestEven. cbv zeta.
  pose proof (Z.div_mod num den ltac:(lia)) as Hdm.
  pose proof (Z.mod_pos_bound num den Hd) as Hr.
  repeat case_match; nia.
Qed.

(** The exponent the rounding starts from brackets the ratio. *)
Lemma bracket (p q : Z) :
  0 < p -> 0 < q ->
  let t := Z.log2 p - Z.log2 q in
  let above := if 0 <=? t then q * 2 ^ t <=? p else q <=? p * 2 ^ (- t) in
  let b := if above then t else t - 1 in
  (2 ^ b * inject_Z q <= inject_Z p)%Q /\
  (inject_Z p < 2 ^ (b + 1) * inject_Z q)%Q.
Proof.
  intros Hp Hq. cbv zeta.
  destruct (Z.log2_spec p Hp) as [Hp1 Hp2].
  destruct (Z.log2_spec q Hq) as [Hq1 Hq2].
  pose proof (Z.log2_nonneg p) as Hlp. pose proof (Z.log2_nonneg q) as Hlq.
  set (lp := Z.log2 p) in *. set (lq := Z.log2 q) in *.
  assert (Hp1' : (2 ^ lp <= inject_Z p)%Q).
  { rewrite <- pw_inject by done. by rewrite <- Zle_Qle. }
  assert (Hp2' : (inject_Z p < 2 ^ (lp + 1))%Q).
  { rewrite <- pw_inject by lia. rewrite <- Zlt_Qlt. by rewrite <- Z.add_1_r in Hp2. }
  assert (Hq1' : (2 ^ lq <= inject_Z q)%Q).
  { rewrite <- pw_inject by done. by rewrite <- Zle_Qle. }
  assert (Hq2' : (inject_Z q < 2 ^ (lq + 1))%Q).
  { rewrite <- pw_inject by lia. rewrite <- Zlt_Qlt. by rewrite <- Z.add_1_r in Hq2. }
  assert (Hq0 : (0 < inject_Z q)%Q) by (by rewrite <- (Zlt_Qlt 0)).
  assert (Hp0 : (0 < inject_Z p)%Q) by (by rewrite <- (Zlt_Qlt 0)).
  set (t := lp - lq).
  destruct (Z.leb_spec 0 t) as [Ht|Ht].
  - destruct (Z.leb_spec (q * 2 ^ t) p) as [Ha|Ha].
    + split.
      * rewrite <- pw_inject by done. rewrite <- inject_Z_mult, <- Zle_Qle. lia.
      * replace (t + 1) with ((lp + 1) + - lq) by (unfold t; lia).
        rewrite pw_add.
        pose proof (pw_cancel lq) as Hc.
        pose proof (pw_pos (lp + 1)). pose proof (pw_pos lq).
        pose proof (pw_pos (- lq)).
        apply Qlt_le_trans with (2 ^ (lp + 1) * (2 ^ (- lq) * 2 ^ lq))%Q.
        -- rewrite (Qmult_comm (2 ^ (- lq))), Hc, Qmult_1_r. done.
        -- rewrite <- Qmult_assoc. apply Qmult_le_l; [done|].
           apply Qmult_le_l; done.
    + split.
      * replace (t - 1) with (lp + - (lq + 1)) by (unfold t; lia).
        rewrite pw_add.
        pose proof (pw_cancel (lq + 1)) as Hc.
        pose proof (pw_pos lp). pose proof (pw_pos (lq + 1)).
        pose proof (pw_pos (- (lq + 1))).
        apply Qle_trans with (2 ^ lp * (2 ^ (- (lq + 1)) * 2 ^ (lq + 1)))%Q.
        -- rewrite <- Qmult_assoc. apply Qmult_le_l; [done|].
           apply Qmult_le_l; [done|]. by apply Qlt_le_weak.
        -- rewrite (Qmult_comm (2 ^ (- (lq + 1)))), Hc, Qmult_1_r. done.
      * replace (t - 1 + 1) with t by lia.
        rewrite <- pw_inject by done. rewrite <- inject_Z_mult, <- Zlt_Qlt. lia.
  - assert (Hnt : 0 <= - t) by lia.
    pose proof (pw_cancel t) as Hc. pose proof (pw_pos t) as Hpt.
    pose proof (pw_pos (- t)) as Hpnt.
    destruct (Z.leb_spec q (p * 2 ^ (- t))) as [Ha|Ha].
    + split.
      * assert (Hq' : (inject_Z q <= inject_Z p * 2 ^ (- t))%Q).
        { rewrite <- pw_inject by done.
          rewrite <- inject_Z_mult, <- Zle_Qle. lia. }
        apply Qle_trans with (2 ^ t * (inject_Z p * 2 ^ (- t)))%Q.
        -- by apply Qmult_le_l.
        -- rewrite (Qmult_comm (inject_Z p)), Qmult_assoc, Hc, Qmult_1_l.
           apply Qle_refl.
      * replace (t + 1) with ((lp + 1) + - lq) by (unfold t; lia).
        rewrite pw_add.
        pose proof (pw_cancel lq) as Hc'.
        pose proof (pw_pos (lp + 1)). pose proof (pw_pos lq).
        pose proof (pw_pos (- lq)).
        apply Qlt_le_trans with (2 ^ (lp + 1) * (2 ^ (- lq) * 2 ^ lq))%Q.
        -- rewrite (Qmult_comm (2 ^ (- lq))), Hc', Qmult_1_r. done.
        -- rewrite <- Qmult_assoc. apply Qmult_le_l; [done|].
           apply Qmult_le_l; done.
    + split.
      * replace (t - 1) with (lp + - (lq + 1)) by (unfold t; lia).
        rewrite pw_add.
        pose proof (pw_cancel (lq + 1)) as Hc'.
        pose proof (pw_pos lp). pose proof (pw_pos (lq + 1)).
        pose proof (pw_pos (- (lq + 1))).
        apply Qle_trans with (2 ^ lp * (2 ^ (- (lq + 1)) * 2 ^ (lq + 1)))%Q.
        -- rewrite <- Qmult_assoc. apply Qmult_le_l; [done|].
           apply Qmult_le_l; [done|]. by apply Qlt_le_weak.
        -- rewrite (Qmult_comm (2 ^ (- (lq + 1)))), Hc', Qmult_1_r. done.
      * replace (t - 1 + 1) with t by lia.
        assert (Hq' : (inject_Z p * 2 ^ (- t) < inject_Z q)%Q).
        { rewrite <- pw_inject by done.
          rewrite <- inject_Z_mult, <- Zlt_Qlt. lia. }
        apply Qle_lt_trans with (2 ^ t * (inject_Z p * 2 ^ (- t)))%Q.
        -- rewrite (Qmult_comm (inject_Z p)), Qmult_assoc, Hc, Qmult_1_l.
           apply Qle_refl.
        -- by apply Qmult_lt_l.
Qed.

Lemma Double_value_finite (neg : bool) (m e : Z) :
  (Double_value (DFinite neg m e) ==
   if neg then - (inject_Z m * 2 ^ e) else inject_Z m * 2 ^ e)%Q.
Proof.
  cbn [Double_value].
  assert (H : ((if 0 <=? e then inject_Z (m * 2 ^ e)
                else m # Z.to_pos (2 ^ (- e))) == inject_Z m * 2 ^ e)%Q).
  { destruct (Z.leb_spec 0 e) as [He|He].
    - by rewrite inject_Z_mult, pw_inject.
    - assert (Hpos : 0 < 2 ^ (- e)) by (apply Z.pow_pos_nonneg; lia).
      rewrite (Qmake_Qdiv m). rewrite Z2Pos.id by done.
      rewrite pw_inject by lia.
      pose proof (pw_cancel e) as Hc. pose proof (pw_pos (- e)) as Hp.
      unfold Qdiv. apply Qmult_inj_r with (2 ^ (- e))%Q.
      { intros E. rewrite E in Hp. by apply Qlt_irrefl in Hp. }
      rewrite <- !Qmult_assoc, Hc, Qmult_1_r.
      rewrite (Qmult_comm (/ _)), Qmult_inv_r, Qmult_1_r; [done|].
      intros E. rewrite E in Hp. by apply Qlt_irrefl in Hp. }
  destruct neg; by rewrite H.
Qed.

Lemma roundRational_accurate (neg : bool) (p q : Z) :
  0 < p -> 0 < q ->
  (2 ^ (-1022) * inject_Z q <= inject_Z p)%Q ->
  (inject_Z p < 2 ^ 1023 * inject_Z q)%Q ->
  exists m e : Z,
    roundRational neg p q = DFinite neg m e /\
    (- (inject_Z p * 2 ^ (-53)) <= inject_Z m * 2 ^ e * inject_Z q - inject_Z p)%Q /\
    (inject_Z m * 2 ^ e * inject_Z q - inject_Z p <= inject_Z p * 2 ^ (-53))%Q.
Proof.
  intros Hp Hq Hlo Hhi.
  destruct (bracket p q Hp Hq) as [Hb1 Hb2]. cbv zeta in Hb1, Hb2.
  unfold roundRational.
  set (t := Z.log2 p - Z.log2 q) in *.
  set (above := if 0 <=? t then q * 2 ^ t <=? p else q <=? p * 2 ^ (- t)) in *.
  set (b := if above then t else t - 1) in *.
  assert (Hq0 : (0 < inject_Z q)%Q) by (by rewrite <- (Zlt_Qlt 0)).
  assert (Hp0 : (0 < inject_Z p)%Q) by (by rewrite <- (Zlt_Qlt 0)).
  assert (Hb_lo : -1022 <= b).
  { assert (H : (2 ^ (-1022) < 2 ^ (b + 1))%Q).
    { apply (Qmult_lt_r _ _ (inject_Z q)); [done|].
      eapply Qle_lt_trans; [exact Hlo | exact Hb2]. }
    apply Qpower_lt_compat_l_inv in H; [lia | done]. }
  assert (Hb_hi : b <= 1022).
  { assert (H : (2 ^ b < 2 ^ 1023)%Q).
    { apply (Qmult_lt_r _ _ (inject_Z q)); [done|].
      eapply Qle_lt_trans; [exact Hb1 | exact Hhi]. }
    apply Qpower_lt_compat_l_inv in H; [lia | done]. }
  replace (Z.max (b - 52) (-1074)) with (b - 52) by lia.
  set (e := b - 52).
  set (m0 := if 0 <=? e then divNearestEven p (q * 2 ^ e)
             else divNearestEven (p * 2 ^ (- e)) q).
  (* the rounded mantissa, against the exact quotient *)
  assert (Hm0 :
    (- (2 ^ e * inject_Z q) <= 2 * (inject_Z m0 * 2 ^ e * inject_Z q - inject_Z p)
     <= 2 ^ e * inject_Z q)%Q).
  { subst m0. destruct (Z.leb_spec 0 e) as [He|He].
    - assert (HD : 0 < q * 2 ^ e)
        by (apply Z.mul_pos_pos; [done | by apply Z.pow_pos_nonneg]).
      pose proof (divNearestEven_half p _ HD) as [H1 H2]. cbv zeta in H1, H2.
      set (m := divNearestEven p (q * 2 ^ e)) in *.
      rewrite Zle_Qle in H1, H2.
      unfold Z.sub in H1, H2.
      repeat (rewrite ?inject_Z_mult, ?inject_Z_plus, ?inject_Z_opp in H1).
      repeat (rewrite ?inject_Z_mult, ?inject_Z_plus, ?inject_Z_opp in H2).
      rewrite !pw_inject in H1, H2 by done.
      change (inject_Z 2) with 2%Q in *.
      split; lra.
    - pose proof (divNearestEven_half (p * 2 ^ (- e)) q Hq) as [H1 H2].
      cbv zeta in H1, H2.
      set (m := divNearestEven (p * 2 ^ (- e)) q) in *.
      rewrite Zle_Qle in H1, H2.
      unfold Z.sub in H1, H2.
      repeat (rewrite ?inject_Z_mult, ?inject_Z_plus, ?inject_Z_opp in H1).
      repeat (rewrite ?inject_Z_mult, ?inject_Z_plus, ?inject_Z_opp in H2).
      rewrite !pw_inject in H1, H2 by lia.
      change (inject_Z 2) with 2%Q in *.
      pose proof (pw_cancel e) as Hc. pose proof (pw_pos e) as Hpe.
      assert (E : (2 * (inject_Z m * 2 ^ e * inject_Z q - inject_Z p) ==
                   2 ^ e * (2 * (inject_Z m * inject_Z q
                                 - inject_Z p * 2 ^ (- e))))%Q).
      { assert (E' : (2 ^ e * (2 * (inject_Z m * inject_Z q
                                    - inject_Z p * 2 ^ (- e))) ==
                      2 * (inject_Z m * 2 ^ e * inject_Z q
                           - inject_Z p * (2 ^ e * 2 ^ (- e))))%Q) by ring.
        rewrite E', Hc. ring. }
      rewrite E. split.
      + setoid_replace (- (2 ^ e * inject_Z q))%Q
          with (2 ^ e * - inject_Z q)%Q using relation Qeq by ring.
        by apply Qmult_le_l.
      + by apply Qmult_le_l. }
  (* half a unit of the last place is within the relative bound *)
  assert (Hulp : (2 ^ e * inject_Z q <= 2 * (inject_Z p * 2 ^ (-53)))%Q).
  { assert (E : (2 ^ e == 2 * (2 ^ b * 2 ^ (-53)))%Q).
    { unfold e. replace (b - 52) with (1 + (b + -53)) by lia.
      rewrite pw_add, pw_add. reflexivity. }
    rewrite E.
    pose proof (pw_pos (-53)) as H53.
    setoid_replace (2 * (2 ^ b * 2 ^ (-53)) * inject_Z q)%Q
      with (2 * 2 ^ (-53) * (2 ^ b * inject_Z q))%Q using relation Qeq by ring.
    setoid_replace (2 * (inject_Z p * 2 ^ (-53)))%Q
      with (2 * 2 ^ (-53) * inject_Z p)%Q using relation Qeq by ring.
    apply Qmult_le_l; [lra | done]. }
  (* the mantissa is positive *)
  assert (Hm0_pos : 0 < m0).
  { rewrite Zlt_Qlt. change (inject_Z 0) with 0%Q.
    pose proof (pw_pos e) as Hpe.
    assert (H : (0 < inject_Z m0 * (2 ^ e * inject_Z q))%Q).
    { pose proof (pw_pos (-53)) as H53.
      assert (H53' : (2 ^ (-53) <= 1 # 2)%Q).
      { apply Qle_trans with (2 ^ (-1))%Q; [|done].
        apply Qpower_le_compat_l; [lia | done]. }
      assert (Hx : (inject_Z p * 2 ^ (-53) <= inject_Z p * (1 # 2))%Q)
        by (by apply Qmult_le_l).
      destruct Hm0 as [Hm1 _]. lra. }
    assert (Hpos : (0 < 2 ^ e * inject_Z q)%Q) by (by apply Qmult_lt_0_compat).
    destruct (Qlt_le_dec 0 (inject_Z m0)) as [|Hneg]; [done|].
    exfalso. apply (Qlt_not_le _ _ H).
    setoid_replace 0%Q with (0 * (2 ^ e * inject_Z q))%Q
      using relation Qeq by ring.
    apply Qmult_le_compat_r; [done | by apply Qlt_le_weak]. }
  destruct (Z.eqb_spec m0 (2 ^ 53)) as [E53|N53].
  - exists (2 ^ 52), (e + 1).
    replace (2 ^ 52 =? 0) with false by done.
    replace (971 <? e + 1) with false by (symmetry; apply Z.ltb_ge; lia).
    split; [done|].
    assert (E : (inject_Z (2 ^ 52) * 2 ^ (e + 1) == inject_Z m0 * 2 ^ e)%Q).
    { rewrite E53, (Z.add_comm e 1), pw_add.
      change (inject_Z (2 ^ 53)) with (inject_Z (2 ^ 52) * 2 ^ 1)%Q.
      ring. }
    rewrite E. destruct Hm0. split; lra.
  - exists m0, e.
    replace (m0 =? 0) with false by (symmetry; apply Z.eqb_neq; lia).
    replace (971 <? e) with false by (symmetry; apply Z.ltb_ge; lia).
    split; [done|].
    destruct Hm0. split; lra.
Qed.

Lemma Double_sub_accurate (a b : Q) :
  (2 ^ (-1022) <= Qabs (a - b))%Q ->
  (Qabs (a - b) < 2 ^ 1023)%Q ->
  (Qabs (Double_value (Double_sub a b) - (a - b)) <=
   Qabs (a - b) * 2 ^ (-53))%Q.
Proof.
  unfold Double_sub. cbv zeta. generalize (a - b)%Q. intros [n den].
  cbn [Qnum Qden]. intros Hlo Hhi.
  assert (Hden : (0 < inject_Z (Z.pos den))%Q) by done.
  assert (core : forall (neg : bool) (k : positive),
    (2 ^ (-1022) <= Z.pos k # den)%Q -> (Z.pos k # den < 2 ^ 1023)%Q ->
    exists v : Q,
      (Double_value (roundRational neg (Z.pos k) (Z.pos den)) ==
       if neg then - v else v)%Q /\
      (- ((Z.pos k # den) * 2 ^ (-53)) <= v - (Z.pos k # den))%Q /\
      (v - (Z.pos k # den) <= (Z.pos k # den) * 2 ^ (-53))%Q).
  { intros neg k Hk1 Hk2.
    assert (EX : ((Z.pos k # den) * inject_Z (Z.pos den) ==
                  inject_Z (Z.pos k))%Q).
    { unfold Qeq. cbn. lia. }
    destruct (roundRational_accurate neg (Z.pos k) (Z.pos den))
      as (m & e & Hr & H1 & H2); [done|done| |  |].
    { rewrite <- EX. by apply Qmult_le_compat_r; [|apply Qlt_le_weak]. }
    { rewrite <- EX. by apply Qmult_lt_r. }
    exists (inject_Z m * 2 ^ e)%Q. rewrite Hr. split.
    { apply Double_value_finite. }
    rewrite <- EX in H1, H2.
    split.
    - apply (Qmult_le_r _ _ (inject_Z (Z.pos den))); [done|].
      lra.
    - apply (Qmult_le_r _ _ (inject_Z (Z.pos den))); [done|].
      lra. }
  destruct n as [|n|n].
  - exfalso. pose proof (pw_pos (-1022)) as H.
    apply (Qlt_not_le _ _ H). exact Hlo.
  - change (Qabs (Z.pos n # den)) with (Z.pos n # den) in *.
    destruct (core false n Hlo Hhi) as (v & Ev & H1 & H2).
    rewrite Ev. apply Qabs_Qle_condition. split; lra.
  - change (Qabs (Z.neg n # den)) with (Z.pos n # den) in *.
    destruct (core true n Hlo Hhi) as (v & Ev & H1 & H2).
    rewrite Ev.
    assert (E : (Z.neg n # den == - (Z.pos n # den))%Q) by done.
    rewrite E. apply Qabs_Qle_condition. split; lra.
Qed.

(** C2 as stated, first half: a resolved fetch with a 2xx or 3xx status
    yields the elapsed milliseconds. Counterexample: a response with status
    304 resolves the fetch, yet [singlePing] returns [null]. *)
Lemma singlePing_3xx_counterexample :
  ~ (forall (p : Probe) (response : Response),
       fetched p = Resolved response ->
       200 <= JS.status response <= 399 ->
       singlePing_result p = Some (Math_round (endTime p - startTime p)%Q)).
Proof.
  intros H.
  specialize (H (mkProbe 0 (41 # 2) (Resolved (mkResponse 304 true)))
                (mkResponse 304 true) eq_refl).
  cbn [JS.status] in H. specialize (H ltac:(lia)). discriminate H.
Qed.

(** C2, amended. [singlePing] returns a number exactly when the fetch
    resolves with a status in 200..299 ([response.ok]); the number is the
    difference of the two timer readings as binary64 subtraction gives it,
    rounded by [Math.round]: an integer within half a millisecond of that
    difference, which is within 2^-53, relatively, of the exact difference of
    the readings (in the normal range of binary64).
    In every other case (the fetch rejects, or it resolves with any other
    status, 3xx included) it returns [null]. *)
Theorem singlePing_contract (p : Probe) :
  (forall ms : Z,
     singlePing_result p = Some ms <->
     (exists response,
        fetched p = Resolved response /\
        200 <= JS.status response <= 299) /\
     ms = Math_round (elapsed p) /\
     (inject_Z ms - (1 # 2) <= elapsed p)%Q /\
     (elapsed p < inject_Z ms + (1 # 2))%Q) /\
  ((2 ^ (-1022) <= Qabs (endTime p - startTime p))%Q ->
   (Qabs (endTime p - startTime p) < 2 ^ 1023)%Q ->
   (Qabs (elapsed p - (endTime p - startTime p)) <=
    Qabs (endTime p - startTime p) * 2 ^ (-53))%Q) /\
  (singlePing_result p = None <->
     (exists err, fetched p = Rejected err) \/
     (exists response,
        fetched p = Resolved response /\
        ~ (200 <= JS.status response <= 299))).
Proof.
  unfold singlePing_result, ok.
  pose proof (Math_round_nearest (elapsed p)) as [Hlo Hhi].
  pose proof (Double_sub_accurate (endTime p) (startTime p)) as Hacc.
  fold (elapsed p) in Hacc.
  destruct (fetched p) as [err|response].
  - split; [|split; [exact Hacc|]].
    + intros ms. split; [discriminate|]. by intros [(r & [=] & _) _].
    + split; [eauto | done].
  - destruct (Z.leb_spec 200 (JS.status response));
      destruct (Z.leb_spec (JS.status response) 299); cbn [andb].
    2-4: split; [|split; [exact Hacc|]];
      [ intros ms; split; [discriminate|];
        intros [(r & [= <-] & Hr) _]; lia
      | split; [intros _; right; exists response; split; [done | lia] | done] ].
    split; [|split; [exact Hacc|]].
    + intros ms. split.
      * intros [= <-]. split_and!; try done. exists response. split; [done | lia].
      * by intros [_ (-> & _)].
    + split; [discriminate|].
      intros [[err [=]] | (r & [= <-] & Hr)]. lia.
Qed.

Lemma singlePing_contract_witness :
  singlePing_result
    (mkProbe (5282933469138125 # 17592186044416)
       (5720978901644083 # 4398046511104)
       (Resolved (mkResponse 204 false)))
    = Some 1001 /\
  singlePing_result
    (mkProbe (5282933469138125 # 17592186044416)
       (5720978901644083 # 4398046511104)
       (Resolved (mkResponse 301 true)))
    = None.
Proof.
  split.
  - apply (singlePing_contract
             (mkProbe (5282933469138125 # 17592186044416)
                (5720978901644083 # 4398046511104)
                (Resolved (mkResponse 204 false)))).
    split_and!; try (vm_compute; congruence).
    exists (mkResponse 204 false). cbn. split; [done | lia].
  - apply (singlePing_contract
             (mkProbe (5282933469138125 # 17592186044416)
                (5720978901644083 # 4398046511104)
                (Resolved (mkResponse 301 true)))).
    right. exists (mkResponse 301 true). cbn. split; [done | lia].
Defined.

(** *** Further properties of the latency flow *)

(** X1. The single test issues exactly one probe and publishes a result that
    is never left pending: a success carrying the probe's sample when the
    probe succeeded, an error with a null latency otherwise; in both cases
    without the fields of an averaged result. It ends with [testing] reset,
    and leaves the flag and the progress of the averaged test alone. *)
Theorem testConnection_outcome (net : nat -> Probe) (w : World) :
  let w' := (testConnection net w).2 in
  let sample := singlePing_result (net (issued w)) in
  issued w' = S (issued w) /\
  testing (state w') = false /\
  testingAverage (state w') = testingAverage (state w) /\
  avgProgress (state w') = avgProgress (state w) /\
  pingResult (state w') =
    Some (mkPingResult cloudflare sample
            (match sample with Some _ => success | None => error end) None None None) /\
  trace w' =
    trace w
    ++ [SetTesting true;
        SetPingResult (mkPingResult cloudflare None pending None None None);
        ProbeStart (issued w); ProbeEnd (issued w) sample;
        SetPingResult
          (mkPingResult cloudflare sample
             (match sample with Some _ => success | None => error end) None None None);
        SetTesting false].
Proof.
  unfold testConnection, bind, setTesting, setPingResult, singlePing, bind,
    modify, emit.
  cbn [state issued trace testing testingAverage avgProgress pingResult].
  destruct (singlePing_result (net (issued w))) as [l|];
    cbn [state issued trace testing testingAverage avgProgress pingResult snd];
    rewrite <- !app_assoc; by split_and!.
Qed.

Lemma count_sleeps (net : nat -> Probe) (first N : nat) :
  forall j : nat,
    (j <= N)%nat ->
    filter (fun e => isSleep e = true)
      (flat_map (iterationEvents net (Z.of_nat N) first) (seq j (N - j))) =
    replicate (N - j - 1) (Sleep 200).
Proof.
  intros j Hj. remember (N - j)%nat as n eqn:Hn.
  revert j Hj Hn. induction n as [|n IH]; intros j Hj Hn; [done|].
  cbn [seq flat_map]. rewrite filter_app.
  rewrite (IH (S j)) by lia.
  unfold iterationEvents.
  destruct (Z.ltb_spec (Z.of_nat j) (Z.of_nat N - 1)).
  - replace (S n - 1)%nat with (S (n - 1)) by lia. reflexivity.
  - replace n with 0%nat by lia. reflexivity.
Qed.

(** X2. The averaged test over [N] probes issues exactly [N] probe requests
    and pauses exactly [N - 1] times, 200 ms each: once between two probes,
    and not after the last one, whose end is followed at once by the
    publication of the result. *)
Theorem pauses_between_probes (net : nat -> Probe) (N : nat) (w : World) :
  let w' := (testAverageConnectionN net N w).2 in
  issued w' = (issued w + N)%nat /\
  filter (fun e => isSleep e = true) (drop (length (trace w)) (trace w')) =
    replicate (N - 1) (Sleep 200) /\
  ((0 < N)%nat ->
   exists (t : list Event) (final : PingResult),
     trace w' =
       t ++ [ProbeEnd (issued w + (N - 1))
               (singlePing_result (net (issued w + (N - 1))%nat));
             SetPingResult final; SetTestingAverage false; SetAvgProgress 0]).
Proof.
  cbn zeta. rewrite testAverageConnectionN_spec. cbn [snd issued trace].
  split; [done|]. split.
  - rewrite drop_app_length, !filter_app.
    pose proof (count_sleeps net (issued w) N 0 ltac:(lia)) as Hc.
    rewrite !Nat.sub_0_r in Hc. rewrite Hc.
    cbn [filter list_filter]. by rewrite app_nil_r.
  - intros HN. destruct N as [|n]; [lia|].
    replace (S n - 1)%nat with n by lia.
    exists (trace w
            ++ [SetTestingAverage true; SetAvgProgress 0;
                SetPingResult (pendingResult (S n))]
            ++ flat_map (iterationEvents net (Z.of_nat (S n)) (issued w))
                 (seq 0 n)
            ++ [SetAvgProgress (Z.of_nat n + 1); ProbeStart (issued w + n)]),
           (finalResult (samplesOf net (issued w) (S n))).
    rewrite seq_S, flat_map_app. cbn [flat_map Nat.add].
    unfold iterationEvents at 2.
    replace (Z.of_nat n <? Z.of_nat (S n) - 1) with false
      by (symmetry; apply Z.ltb_ge; lia).
    rewrite !app_nil_r, <- !app_assoc. reflexivity.
Qed.

Lemma Math_round_nonneg (x : Q) : (0 <= x)%Q -> 0 <= Math_round x.
Proof.
  intros H. rewrite <- (Math_round_inject_Z 0). by apply Math_round_mono.
Qed.

Lemma divNearestEven_nonneg (num den : Z) :
  0 <= num -> 0 < den -> 0 <= divNearestEven num den.
Proof.
  intros Hn Hd. unfold divNearestEven.
  pose proof (Z.div_pos num den Hn Hd).
  repeat case_match; lia.
Qed.

Lemma roundRational_nonneg (p q : Z) :
  0 < p -> 0 < q -> (0 <= Double_value (roundRational false p q))%Q.
Proof.
  intros Hp Hq. unfold roundRational.
  set (e := Z.max _ (-1074)).
  set (m := if 0 <=? e then _ else _).
  assert (Hm : 0 <= m).
  { subst m. destruct (Z.leb_spec 0 e).
    - apply divNearestEven_nonneg; [lia|]. apply Z.mul_pos_pos; [done|].
      by apply Z.pow_pos_nonneg.
    - apply divNearestEven_nonneg; [|done]. apply Z.mul_nonneg_nonneg; [lia|].
      apply Z.pow_nonneg. lia. }
  assert (Hv : forall m' e', 0 <= m' ->
    (0 <= Double_value
            (if m' =? 0 then DZero false
             else if 971 <? e' then DInfinity false
             else DFinite false m' e'))%Q).
  { intros m' e' Hm'. destruct (m' =? 0); [done|].
    destruct (971 <? e'); [done|]. cbn [Double_value].
    destruct (Z.leb_spec 0 e').
    - rewrite <- (Zle_Qle 0). apply Z.mul_nonneg_nonneg; [done|].
      apply Z.pow_nonneg. lia.
    - unfold Qle. cbn. lia. }
  destruct (m =? 2 ^ 53); apply Hv; [done | exact Hm].
Qed.

Lemma elapsed_nonneg (p : Probe) :
  (startTime p <= endTime p)%Q -> (0 <= elapsed p)%Q.
Proof.
  intros H. unfold elapsed, Double_sub.
  assert (Hd : (0 <= endTime p - startTime p)%Q).
  { by apply (Qplus_le_l _ _ (startTime p)); ring_simplify. }
  cbv zeta. destruct (Qnum (endTime p - startTime p)) as [|n|n] eqn:Hn.
  - done.
  - by apply roundRational_nonneg.
  - unfold Qle in Hd. rewrite Hn in Hd. cbn in Hd. lia.
Qed.

Lemma sum_nonneg (xs : list Z) : Forall (fun x => 0 <= x) xs -> 0 <= sum xs.
Proof.
  induction 1 as [|x xs Hx _ IH]; [done|]. rewrite sum_cons. lia.
Qed.

(** X3. When the timer does not run backwards during any probe, no sample
    is negative, and neither is the published average. *)
Theorem latencies_nonnegative (net : nat -> Probe) (N : nat) (w : World) :
  (forall k, (k < N)%nat ->
     (startTime (net (issued w + k)%nat) <= endTime (net (issued w + k)%nat))%Q) ->
  forall r : PingResult,
    pingResult (state (testAverageConnectionN net N w).2) = Some r ->
    (forall xs, allLatencies r = Some xs -> Forall (fun x => 0 <= x) xs) /\
    (forall m, latency r = Some m -> 0 <= m).
Proof.
  intros Hclock r. rewrite testAverageConnectionN_spec.
  cbn [snd state pingResult]. intros [= <-].
  assert (Hs : Forall (fun x => 0 <= x) (samplesOf net (issued w) N)).
  { apply Forall_forall. intros x Hx.
    apply samplesOf_elem in Hx as (k & Hk & Hx).
    unfold singlePing_result in Hx. specialize (Hclock k Hk).
    destruct (fetched _) as [|response]; [done|].
    destruct (ok response); [|done]. injection Hx as <-.
    apply Math_round_nonneg. by apply elapsed_nonneg. }
  unfold finalResult.
  destruct (Z.gtb_spec (Z.of_nat (length (samplesOf net (issued w) N))) 0)
    as [Hlen|Hlen]; cbn [allLatencies latency]; split; try done.
  - by intros xs [= <-].
  - intros m [= <-]. unfold mean. apply Math_round_nonneg.
    apply Qle_shift_div_l.
    + by rewrite <- (Zlt_Qlt 0).
    + rewrite Qmult_0_l, <- (Zle_Qle 0). by apply sum_nonneg.
Qed.

Lemma latencies_nonnegative_witness :
  (forall xs,
     Some [12; 14; 16] = Some xs -> Forall (fun x => 0 <= x) xs) /\
  (forall m, Some 14 = Some m -> 0 <= m).
Proof.
  refine (latencies_nonnegative net_alternating 5 initialWorld _
            (mkPingResult cloudflare (Some 14) success (Some true) (Some 3)
               (Some [12; 14; 16])) _).
  - intros k _. unfold net_alternating. cbn [startTime endTime].
    unfold Qle. cbn. lia.
  - reflexivity.
Defined.

(** X4. The colour class of a latency and the label under it always agree
    (good with Excellent, warn with Good, bad with Slow), every latency has
    exactly one of the three classes, and a larger latency is never rated
    better: below 100 ms good, from 100 below 300 warn, from 300 on bad. *)
Theorem colour_agrees_with_label (l : Z) :
  (getLatencyColor l = lit "good" <-> l < 100) /\
  (getLatencyColor l = lit "warn" <-> 100 <= l < 300) /\
  (getLatencyColor l = lit "bad" <-> 300 <= l) /\
  (getLatencyColor l = lit "good" <->
   statusLabel l = codeUnits 10024 ++ lit " Excellent") /\
  (getLatencyColor l = lit "warn" <->
   statusLabel l = codeUnits 128077 ++ lit " Good") /\
  (getLatencyColor l = lit "bad" <->
   statusLabel l = codeUnits 128012 ++ lit " Slow").
Proof.
  unfold getLatencyColor, statusLabel.
  destruct (Z.ltb_spec l 100); [|destruct (Z.ltb_spec l 300)];
    split_and!; split; try done; try lia; intros _; lia.
Qed.

(** X5. In every averaged test with a success, if all the samples shown
    have one colour class, the average shown above them has that class too:
    the summary is never rated better or worse than every single test. *)
Theorem average_colour_of_uniform_samples
    (net : nat -> Probe) (N : nat) (w : World)
    (r : PingResult) (m : Z) (xs : list Z) (c : JSString) :
  pingResult (state (testAverageConnectionN net N w).2) = Some r ->
  latency r = Some m ->
  allLatencies r = Some xs ->
  Forall (fun x => getLatencyColor x = c) xs ->
  getLatencyColor m = c.
Proof.
  rewrite testAverageConnectionN_spec. cbn [snd state pingResult].
  intros [= <-]. unfold finalResult.
  destruct (Z.gtb_spec (Z.of_nat (length (samplesOf net (issued w) N))) 0)
    as [Hlen|Hlen]; cbn [allLatencies latency]; [|done].
  intros [= <-] [= <-] Hall.
  set (ys := samplesOf net (issued w) N) in *.
  assert (Hne : ys <> []) by (intros E; rewrite E in Hlen; cbn in Hlen; lia).
  destruct (Math_min ys) as [lo|] eqn:Hmin; [|by destruct ys].
  destruct (Math_max ys) as [hi|] eqn:Hmax; [|by destruct ys].
  pose proof (mean_between ys lo hi Hne Hmin Hmax) as Hm.
  assert (Hlo : lo ∈ ys).
  { destruct ys as [|y ys']; [done|]. injection Hmin as <-.
    clear. revert y. induction ys' as [|z zs IH]; intros y; cbn.
    - left.
    - pose proof (IH (Z.min y z)) as HI.
      apply elem_of_cons in HI as [E|E].
      + rewrite E. destruct (Z.min_spec y z) as [[_ ->]|[_ ->]];
          [left | right; left].
      + right. by right. }
  assert (Hhi : hi ∈ ys).
  { destruct ys as [|y ys']; [done|]. injection Hmax as <-.
    clear. revert y. induction ys' as [|z zs IH]; intros y; cbn.
    - left.
    - pose proof (IH (Z.max y z)) as HI.
      apply elem_of_cons in HI as [E|E].
      + rewrite E. destruct (Z.max_spec y z) as [[_ ->]|[_ ->]];
          [right; left | left].
      + right. by right. }
  rewrite Forall_forall in Hall.
  pose proof (Hall lo Hlo) as Clo. pose proof (Hall hi Hhi) as Chi.
  unfold getLatencyColor in *.
  destruct (Z.ltb_spec lo 100), (Z.ltb_spec lo 300),
    (Z.ltb_spec hi 100), (Z.ltb_spec hi 300),
    (Z.ltb_spec (mean ys) 100), (Z.ltb_spec (mean ys) 300);
    try lia; try done; subst c; try discriminate.
Qed.

Lemma average_colour_of_uniform_samples_witness :
  getLatencyColor 14 = lit "good".
Proof.
  apply (average_colour_of_uniform_samples net_alternating 5 initialWorld
           (mkPingResult cloudflare (Some 14) success (Some true) (Some 3)
              (Some [12; 14; 16])) 14 [12; 14; 16]); try reflexivity.
  by repeat constructor.
Defined.


Lemma replay_app (a b : list Event) (s : State) :
  replay (a ++ b) s = replay b (replay a s).
Proof. unfold replay. by rewrite foldl_app. Qed.

Lemma guarded_app (a b : list Event) (s : State) :
  guarded (a ++ b) s = guarded a s && guarded b (replay a s).
Proof.
  revert s. induction a as [|e a IH]; intros s; [done|].
  cbn [app guarded]. rewrite IH. unfold replay. cbn [foldl].
  by rewrite andb_assoc.
Qed.

(** The events of one test that are neither the first nor the last ones
    leave the two flags alone. *)
Lemma replay_flags (events : list Event) (s : State) :
  Forall (fun e => forall b, e <> SetTesting b /\ e <> SetTestingAverage b)
    events ->
  testing (replay events s) = testing s /\
  testingAverage (replay events s) = testingAverage s.
Proof.
  revert s. induction events as [|e events IH]; intros s H; [done|].
  apply Forall_cons in H as [He H]. unfold replay in *. cbn [foldl].
  destruct (IH (applyEvent e s) H) as [-> ->].
  destruct e; try done; by destruct (He b).
Qed.

Lemma guarded_flags (events : list Event) (s : State) :
  Forall (fun e => forall b, e <> SetTesting b /\ e <> SetTestingAverage b)
    events ->
  isAnyTestRunning s = true -> guarded events s = true.
Proof.
  revert s. induction events as [|e events IH]; intros s H Hs; [done|].
  apply Forall_cons in H as [He H]. cbn [guarded].
  rewrite Hs, orb_true_r. cbn [andb]. apply IH; [done|].
  destruct e; try done; by destruct (He b).
Qed.

Lemma guarded_split (pre post : list Event) (e : Event) (s : State) :
  guarded (pre ++ e :: post) s = true -> isSetter e = false ->
  isAnyTestRunning (replay pre s) = true.
Proof.
  rewrite guarded_app. cbn [guarded]. intros H He. rewrite He in H.
  apply andb_true_iff in H as [_ H]. by apply andb_true_iff in H as [H _].
Qed.

Lemma iterations_keep_flags (net : nat -> Probe) (N : Z) (first : nat)
    (js : list nat) :
  Forall (fun e => forall b, e <> SetTesting b /\ e <> SetTestingAverage b)
    (flat_map (iterationEvents net N first) js).
Proof.
  induction js as [|j js IH]; [by constructor|].
  cbn [flat_map]. apply Forall_app. split; [|done].
  unfold iterationEvents. destruct (_ <? _); repeat (apply Forall_cons; split);
    try done; by apply Forall_nil.
Qed.

(** X23. Both tests keep the two test buttons disabled from their first
    state change to their last: every probe and every pause of a test
    happens in a state in which [isAnyTestRunning] holds, whatever the state
    the test started from; the state a test ends in is the one its setters
    produce in the order of the trace; and a test started with both buttons
    enabled ends with both enabled. *)
Theorem buttons_disabled_while_probing (net : nat -> Probe) (N : nat)
    (w w' : World) :
  w' = (testConnection net w).2 \/ w' = (testAverageConnectionN net N w).2 ->
  let events := drop (length (trace w)) (trace w') in
  trace w' = trace w ++ events /\
  state w' = replay events (state w) /\
  (forall pre e post,
     events = pre ++ e :: post -> isSetter e = false ->
     isAnyTestRunning (replay pre (state w)) = true) /\
  (isAnyTestRunning (state w) = false ->
   isAnyTestRunning (state w') = false).
Proof.
  intros Hw. cbv zeta.
  assert (exists events,
    trace w' = trace w ++ events /\
    state w' = replay events (state w) /\
    guarded events (state w) = true /\
    (isAnyTestRunning (state w) = false ->
     isAnyTestRunning (state w') = false)) as (events & Ht & Hs & Hg & Hend).
  { destruct Hw as [-> | ->].
    - unfold testConnection, bind, setTesting, setPingResult, singlePing,
        bind, modify, emit.
      cbn [state issued trace testing testingAverage avgProgress pingResult].
      destruct (singlePing_result (net (issued w))) as [l|];
        cbn [state issued trace testing testingAverage avgProgress
             pingResult snd];
        rewrite <- !app_assoc; cbn [app];
        (eexists; split; [reflexivity|]);
        (split; [reflexivity|]);
        (split; [reflexivity|]);
        unfold isAnyTestRunning; cbn [testing testingAverage];
        by intros [_ ?]%orb_false_iff.
    - rewrite testAverageConnectionN_spec. cbn [snd trace state].
      eexists. split; [reflexivity|].
      pose proof (iterations_keep_flags net (Z.of_nat N) (issued w) (seq 0 N))
        as Hmid.
      set (mid := flat_map _ _) in *.
      rewrite !replay_app, !guarded_app.
      set (s1 := replay [SetTestingAverage true; SetAvgProgress 0;
                         SetPingResult (pendingResult N)] (state w)).
      destruct (replay_flags mid s1 Hmid) as [H1 H2].
      split_and!.
      + unfold replay at 1. cbn [foldl applyEvent]. by rewrite H1.
      + apply andb_true_iff. split; [done|].
        apply andb_true_iff. split; [|done].
        apply guarded_flags; [done|].
        unfold isAnyTestRunning. subst s1. cbn. apply orb_true_r.
      + unfold isAnyTestRunning. cbn [testing testingAverage].
        intros [-> _]%orb_false_iff. done. }
  rewrite Ht, drop_app_length. split_and!; try done.
  intros pre e post -> He. by apply (guarded_split pre post e).
Qed.

Lemma buttons_disabled_while_probing_witness :
  isAnyTestRunning (state (testAverageConnectionN net_up 5 initialWorld).2) =
  false.
Proof.
  refine (proj2 (proj2 (proj2
    (buttons_disabled_while_probing net_up 5 initialWorld _
       (or_intror eq_refl)))) _).
  reflexivity.
Defined.

End LatencyFacts.

(* ===================================================================== *)
(** ** Properties of the chat flow *)
(* ===================================================================== *)

Module ChatFacts.
Import JS Chat.

#[local] Arguments lit : simpl never.
#[local] Arguments litq : simpl never.

(** *** The updaters touch the last turn only *)

Lemma at_last {A} (init : list A) (x : A) :
  at_ (init ++ [x]) (Z.of_nat (length (init ++ [x])) - 1) = Some x.
Proof.
  unfold at_. rewrite length_app. simpl length.
  replace (Z.of_nat (length init + 1) - 1) with (Z.of_nat (length init)) by lia.
  destruct (Z.ltb_spec (Z.of_nat (length init)) 0); [lia|].
  rewrite Nat2Z.id. by rewrite list_lookup_middle.
Qed.

Lemma assign_last {A} (init : list A) (x y : A) :
  assign (init ++ [x]) (Z.of_nat (length (init ++ [x])) - 1) y = init ++ [y].
Proof.
  unfold assign. rewrite length_app. simpl length.
  replace (Z.of_nat (length init + 1) - 1) with (Z.of_nat (length init)) by lia.
  destruct (Z.ltb_spec (Z.of_nat (length init)) 0); [lia|].
  rewrite Nat2Z.id.
  replace (length init) with (length init + 0)%nat at 1 by lia.
  by rewrite insert_app_r.
Qed.

Lemma appendText_assistant (text : JSValue) (init : list ChatMessage)
    (c : JSString) :
  appendText text (init ++ [mkChatMessage assistant c]) =
  init ++ [mkChatMessage assistant (c ++ default [] (ToString text))].
Proof.
  unfold appendText, concat. rewrite at_last. cbn [role content].
  destruct (ToString text) as [t|]; cbn [mbind option_bind default].
  - by rewrite assign_last.
  - by rewrite app_nil_r.
Qed.

Lemma appendText_user (text : JSValue) (init : list ChatMessage)
    (c : JSString) :
  appendText text (init ++ [mkChatMessage user c]) =
  init ++ [mkChatMessage user c].
Proof. unfold appendText. by rewrite at_last. Qed.

Lemma appendText_nil (text : JSValue) : appendText text [] = [].
Proof. reflexivity. Qed.

Lemma replaceWithError_assistant (err : Thrown) (init : list ChatMessage)
    (c : JSString) :
  replaceWithError err (init ++ [mkChatMessage assistant c]) =
  init ++ [mkChatMessage assistant (lit "Error: " ++ errorMessage err)].
Proof. unfold replaceWithError. rewrite at_last. cbn. by rewrite assign_last. Qed.

(** *** One line *)

Lemma processLine_lineText (line : JSString) (prev : list ChatMessage) :
  processLine line prev =
  match lineText line with
  | Some text => appendText text prev
  | None => prev
  end.
Proof.
  unfold processLine, lineText.
  destruct (startsWith line (lit "data: ")); [|done].
  destruct (strictEquals _ _); [done|].
  destruct (JSON_parse _) as [parsed|]; [|done]. cbn.
  destruct (get parsed (lit "type")) as [type|]; [|done]. cbn.
  destruct (isString type _); [|done].
  by destruct (get parsed (lit "delta")).
Qed.

Lemma processLine_assistant (line : JSString) (init : list ChatMessage)
    (c : JSString) :
  processLine line (init ++ [mkChatMessage assistant c]) =
  init ++ [mkChatMessage assistant (c ++ lineFragment line)].
Proof.
  rewrite processLine_lineText. unfold lineFragment.
  destruct (lineText line).
  - apply appendText_assistant.
  - by rewrite app_nil_r.
Qed.

Lemma processLine_silent (line : JSString) (prev : list ChatMessage) :
  silent line -> processLine line prev = prev.
Proof. intros H. by rewrite processLine_lineText, H. Qed.

Lemma silent_no_prefix (line : JSString) :
  startsWith line (lit "data: ") = false -> silent line.
Proof. intros H. unfold silent, lineText. by rewrite H. Qed.

Lemma silent_malformed (payload : JSString) :
  JSON_parse payload = None -> silent (lit "data: " ++ payload).
Proof.
  intros H. unfold silent, lineText.
  destruct (startsWith _ _); [|done].
  change (slice (lit "data: " ++ payload) 6) with payload.
  destruct (strictEquals _ _); [done|]. by rewrite H.
Qed.

Lemma silent_empty : silent [].
Proof. reflexivity. Qed.

(** *** Lines of a chunk, chunks of a stream *)

Lemma processLines_app (l1 l2 : list JSString) (prev : list ChatMessage) :
  processLines (l1 ++ l2) prev = processLines l2 (processLines l1 prev).
Proof. apply foldl_app. Qed.

Lemma reduce_app (c1 c2 : list JSString) (prev : list ChatMessage) :
  reduce (c1 ++ c2) prev = reduce c2 (reduce c1 prev).
Proof. apply foldl_app. Qed.

Lemma split_no_sep (sep : Z) (s : JSString) :
  sep ∉ s -> split sep s = [s].
Proof.
  induction s as [|c s IH]; intros Hs; [done|].
  apply not_elem_of_cons in Hs as [Hc Hs]. simpl.
  destruct (Z.eqb_spec c sep); [congruence|]. by rewrite (IH Hs).
Qed.

Lemma split_nonempty (sep : Z) (s : JSString) : split sep s <> [].
Proof.
  destruct s as [|c s]; simpl; [done|].
  destruct (c =? sep); [done|]. by destruct (split sep s).
Qed.

(** Splitting around a separator that follows a piece without one. *)
Lemma split_line (sep : Z) (a b : JSString) :
  sep ∉ a -> split sep (a ++ sep :: b) = a :: split sep b.
Proof.
  induction a as [|c a IH]; intros Ha; simpl.
  - by rewrite Z.eqb_refl.
  - apply not_elem_of_cons in Ha as [Hc Ha].
    destruct (Z.eqb_spec c sep); [congruence|]. by rewrite (IH Ha).
Qed.

(** Splitting around any separator: the pieces before it, the pieces after. *)
Lemma split_app (sep : Z) (a b : JSString) :
  split sep (a ++ sep :: b) = split sep a ++ split sep b.
Proof.
  induction a as [|c a IH]; simpl.
  - by rewrite Z.eqb_refl.
  - destruct (Z.eqb_spec c sep); [by rewrite IH|].
    rewrite IH. pose proof (split_nonempty sep a).
    by destruct (split sep a).
Qed.

Lemma processLines_assistant (lines : list JSString)
    (init : list ChatMessage) (c : JSString) :
  processLines lines (init ++ [mkChatMessage assistant c]) =
  init ++ [mkChatMessage assistant (c ++ mjoin (lineFragment <$> lines))].
Proof.
  revert c. induction lines as [|line lines IH]; intros c.
  - cbn. by rewrite app_nil_r.
  - unfold processLines in *. cbn [foldl].
    rewrite processLine_assistant, IH. cbn. by rewrite <- app_assoc.
Qed.

Lemma processChunk_assistant (chunk : JSString)
    (init : list ChatMessage) (c : JSString) :
  processChunk chunk (init ++ [mkChatMessage assistant c]) =
  init ++ [mkChatMessage assistant
             (c ++ mjoin (lineFragment <$> split 10 chunk))].
Proof. apply processLines_assistant. Qed.

Lemma split_unlines (lines : list JSString) :
  Forall (fun line => 10 ∉ line) lines ->
  split 10 (unlines lines) = lines ++ [[]].
Proof.
  induction 1 as [|line lines Hline _ IH]; [done|].
  change (unlines (line :: lines)) with ((line ++ [10]) ++ unlines lines).
  rewrite <- app_assoc. cbn [app].
  by rewrite split_line, IH.
Qed.

Lemma processChunk_unlines (lines : list JSString) (prev : list ChatMessage) :
  Forall (fun line => 10 ∉ line) lines ->
  processChunk (unlines lines) prev = processLines lines prev.
Proof.
  intros H. unfold processChunk. rewrite (split_unlines _ H).
  fold (processLines (lines ++ [[]]) prev).
  rewrite processLines_app. cbn. apply processLine_silent, silent_empty.
Qed.

Lemma reduce_whole_lines (groups : list (list JSString))
    (prev : list ChatMessage) :
  Forall (Forall (fun line => 10 ∉ line)) groups ->
  reduce (unlines <$> groups) prev = processLines (mjoin groups) prev.
Proof.
  intros H. revert prev.
  induction H as [|g groups Hg _ IH]; intros prev; [done|].
  change (mjoin (g :: groups)) with (g ++ mjoin groups).
  rewrite processLines_app, <- IH, <- (processChunk_unlines g prev Hg).
  reflexivity.
Qed.

(** *** The reducer in the words of the specification *)

Lemma getOptional_member (key : JSString) (v : JSValue) :
  getOptional v key = default JUndefined (member key v).
Proof.
  destruct v; try done. cbn. by destruct (lookup key members).
Qed.

Lemma getOptional_default (key : JSString) (o : option JSValue) :
  getOptional (default JUndefined o) key =
  default JUndefined (o ≫= member key).
Proof. destruct o as [v|]; [apply getOptional_member | done]. Qed.

Lemma lineFragment_spec (line f : JSString) :
  specFragment line = Some f -> lineFragment line = f.
Proof.
  unfold specFragment, lineFragment, lineText, strictEquals.
  destruct (startsWith line (lit "data: ")); [|by intros [= <-]].
  cbn zeta. case_bool_decide; [by intros [= <-]|].
  destruct (JSON_parse _) as [envelope|]; [|by intros [= <-]].
  cbn [mbind option_bind].
  destruct envelope as [| |b|x|s|elements|members];
    try (by intros [= <-]).
  cbn [get member mbind option_bind isString].
  destruct (lookup (lit "type") members) as [| |b|x|type|elements|members'];
    try (by intros [= <-]).
  cbn [isString]. unfold strictEquals. case_bool_decide; [|by intros [= <-]].
  unfold fragmentAtPath.
  change (lookup (lit "delta") members)
    with (default JUndefined (Some (lookup (lit "delta") members))).
  set (o0 := member (lit "delta") (JObject members)).
  assert (Hdelta : default JUndefined (Some (lookup (lit "delta") members)) =
                   default JUndefined o0).
  { subst o0. cbn. by destruct (lookup (lit "delta") members). }
  rewrite Hdelta, !getOptional_default.
  set (path := ((o0 ≫= member (lit "message")) ≫= member (lit "content"))
               ≫= member (lit "text")).
  assert (Hp : (delta ← o0; message ← member (lit "message") delta;
                content ← member (lit "content") message;
                member (lit "text") content) = path).
  { subst path. destruct o0 as [d|]; [|done]. cbn.
    by destruct (member (lit "message") d). }
  rewrite Hp.
  destruct path as [[| |?|?|t|?|?]|]; try discriminate.
  - intros [= <-]. by destruct t.
  - by intros [= <-].
Qed.

(** *** The popup as a transition system *)

Section Transitions.

Variable apiKey : option JSString.

Lemma sendChatMessage_rejected (w : World) :
  ~ accepted w -> sendChatMessage apiKey w = w.
Proof.
  intros H. unfold sendChatMessage, accepted in *.
  case_bool_decide; [done|].
  destruct (chatLoading (state w)); [done|]. cbn. tauto.
Qed.

Lemma sendChatMessage_accepted (w : World) :
  accepted w ->
  sendChatMessage apiKey w =
  let userMessage := trim (chatInput (state w)) in
  let created :=
    chatMessages (state w)
    ++ [mkChatMessage user userMessage; mkChatMessage assistant []] in
  if noApiKey apiKey then
    mkWorld
      (mkState
         (replaceWithError (ErrorObject (lit "VITE_COHERE_KEY not set")) created)
         [] false)
      (inflight w) (requests w)
  else
    mkWorld (mkState created [] true) (inflight w ++ [AwaitFetch])
      (requests w
       ++ [mkRequest (chatMessages (state w)
                      ++ [mkChatMessage user userMessage])]).
Proof.
  intros [Hin Hload]. unfold sendChatMessage.
  case_bool_decide; [done|]. rewrite Hload. cbn [orb].
  unfold catch_, finally_, setChatMessages, setChatLoading, setChatInput, push.
  cbn [chatMessages chatInput chatLoading].
  rewrite <- !app_assoc. cbn [app].
  by destruct (noApiKey apiKey).
Qed.

Lemma catch_finally (err : Thrown) (s : State)
    (init : list ChatMessage) (c : JSString) :
  chatMessages s = init ++ [mkChatMessage assistant c] ->
  finally_ (catch_ err s) =
  mkState (init ++ [mkChatMessage assistant (lit "Error: " ++ errorMessage err)])
    (chatInput s) false.
Proof.
  intros H. unfold finally_, catch_, setChatMessages, setChatLoading.
  cbn [chatMessages chatInput chatLoading].
  by rewrite H, replaceWithError_assistant.
Qed.

(** Every way out of a suspended call keeps the transcript but for the
    content of its last, Assistant, turn. *)
Lemma afterFetch_last (f : Fetched) (s s' : State) (p : option Pending)
    (init : list ChatMessage) (c : JSString) :
  chatMessages s = init ++ [mkChatMessage assistant c] ->
  afterFetch f s = (s', p) ->
  (exists c', chatMessages s' = init ++ [mkChatMessage assistant c']) /\
  chatLoading s' = match p with Some _ => chatLoading s | None => false end.
Proof.
  intros Hs. unfold afterFetch.
  destruct f as [err|response].
  - rewrite (catch_finally _ _ _ _ Hs). intros [= <- <-]. cbn. eauto.
  - destruct (ok response); cbn [negb].
    + destruct (hasBody response); cbn [negb].
      * intros [= <- <-]. eauto.
      * rewrite (catch_finally _ _ _ _ Hs). intros [= <- <-]. cbn. eauto.
    + rewrite (catch_finally _ _ _ _ Hs). intros [= <- <-]. cbn. eauto.
Qed.

Lemma afterRead_last (d : TextDecoder) (r : ReadResult) (s s' : State)
    (p : option Pending) (init : list ChatMessage) (c : JSString) :
  chatMessages s = init ++ [mkChatMessage assistant c] ->
  afterRead d r s = (s', p) ->
  (exists c', chatMessages s' = init ++ [mkChatMessage assistant c']) /\
  chatLoading s' = match p with Some _ => chatLoading s | None => false end.
Proof.
  intros Hs. unfold afterRead.
  destruct r as [value| |err].
  - destruct (decode d value) as [d' chunk]. intros [= <- <-].
    unfold setChatMessages. cbn [chatMessages chatLoading].
    rewrite Hs, processChunk_assistant. eauto.
  - intros [= <- <-]. cbn. eauto.
  - rewrite (catch_finally _ _ _ _ Hs). intros [= <- <-]. cbn. eauto.
Qed.

Lemma Inv_step (w w' : World) (e : Event) :
  Inv w -> step apiKey w e = Some w' -> Inv w'.
Proof.
  intros HI. destruct e as [value| |k f|k r]; cbn [step].
  - intros [= <-]. exact HI.
  - intros [= <-].
    destruct (decide (accepted w)) as [Hacc|Hrej].
    + rewrite (sendChatMessage_accepted _ Hacc). cbn zeta.
      destruct HI as [[Hin Hload]|(p & init & c & Hin & Hload & _)].
      * destruct (noApiKey apiKey).
        -- left. by rewrite Hin.
        -- right. rewrite Hin. cbn [inflight state chatLoading chatMessages app].
           exists AwaitFetch,
             (chatMessages (state w)
              ++ [mkChatMessage user (trim (chatInput (state w)))]), [].
           split_and!; [done..|].
           by rewrite <- app_assoc.
      * destruct Hacc as [_ Hacc]. congruence.
    + by rewrite (sendChatMessage_rejected _ Hrej).
  - destruct (inflight w !! k) as [[|d]|] eqn:Hk; try discriminate.
    destruct (afterFetch f (state w)) as [s p'] eqn:Hf. intros [= <-].
    destruct HI as [[Hin _]|(p & init & c & Hin & Hload & Hmsgs)].
    { rewrite Hin in Hk. discriminate. }
    rewrite Hin in Hk |- *. destruct k; [|discriminate].
    destruct (afterFetch_last _ _ _ _ _ _ Hmsgs Hf) as [[c' Hc'] Hl].
    unfold Inv. destruct p' as [p'|]; cbn [resumed inflight state].
    + right. exists p', init, c'. by rewrite Hl, Hload.
    + left. by rewrite Hl.
  - destruct (inflight w !! k) as [[|d]|] eqn:Hk; try discriminate.
    destruct (afterRead d r (state w)) as [s p'] eqn:Hr. intros [= <-].
    destruct HI as [[Hin _]|(p & init & c & Hin & Hload & Hmsgs)].
    { rewrite Hin in Hk. discriminate. }
    rewrite Hin in Hk |- *. destruct k; [|discriminate].
    destruct (afterRead_last _ _ _ _ _ _ _ Hmsgs Hr) as [[c' Hc'] Hl].
    unfold Inv. destruct p' as [p'|]; cbn [resumed inflight state].
    + right. exists p', init, c'. by rewrite Hl, Hload.
    + left. by rewrite Hl.
Qed.

Lemma Inv_run (events : list Event) (w w' : World) :
  Inv w -> run apiKey w events = Some w' -> Inv w'.
Proof.
  revert w. induction events as [|e events IH]; intros w HI; cbn [run].
  - by intros [= <-].
  - destruct (step apiKey w e) as [w1|] eqn:He; [|discriminate]. cbn.
    apply IH. by eapply Inv_step.
Qed.

Lemma Inv_reachable (events : list Event) (w : World) :
  run apiKey initialWorld events = Some w -> Inv w.
Proof. apply Inv_run. by left. Qed.

(** The stream loop, read after read, is [reduce] on the texts the decoder
    yields. *)
Lemma run_reads (values : list (list Z)) :
  forall (d : TextDecoder) (s : State) (sent : list Request),
    run apiKey (mkWorld s [AwaitRead d] sent)
      ((fun value => ReadSettles 0 (ReadValue value)) <$> values) =
    Some (mkWorld
            (setChatMessages (reduce (decodeChunks d values).2) s)
            [AwaitRead (decodeChunks d values).1] sent).
Proof.
  induction values as [|value values IH]; intros d s sent.
  - cbn. by destruct s.
  - rewrite fmap_cons. cbn [run step inflight decodeChunks].
    change ([AwaitRead d] !! 0%nat) with (Some (AwaitRead d)).
    cbn [afterRead state requests].
    destruct (decode d value) as [d1 text].
    change (resumed 0 (Some (AwaitRead d1)) [AwaitRead d])
      with [AwaitRead d1].
    cbn [mbind option_bind]. rewrite IH.
    by destruct (decodeChunks d1 values) as [d2 texts].
Qed.

End Transitions.

(** *** Bytes and digits *)

(** A chunk of ASCII bytes, read when no sequence is open, decodes to
    itself. *)
Lemma decode_ascii (value : list Z) :
  forall d : TextDecoder,
    bytesNeeded d = 0 ->
    Forall (fun b => 0 <= b <= 127) value ->
    (decode d value).2 = value /\ bytesNeeded (decode d value).1 = 0.
Proof.
  induction value as [|b value IH]; intros d Hd Hascii; [done|].
  apply Forall_cons in Hascii as [Hb Hascii].
  cbn [decode]. unfold decodeByte, leadByte. rewrite Hd. cbn [Z.eqb].
  replace (b <=? 127) with true by lia.
  cbn [serialize bomSeen codePoint bytesSeen bytesNeeded lowerBoundary
       upperBoundary].
  replace (b =? 65279) with false by lia. rewrite andb_false_r.
  unfold codeUnits. replace (b <? 65536) with true by lia.
  specialize (IH (mkTextDecoder 0 0 0 128 191 true) eq_refl Hascii).
  destruct (decode (mkTextDecoder 0 0 0 128 191 true) value) as [d3 text].
  cbn in *. destruct IH as [-> ->]. done.
Qed.

(** A status code of at most three digits prints as its digits. *)
Lemma status_toString (z : Z) :
  0 <= z <= 999 -> Number_toString (Double_of_Z z) = digits z.
Proof.
  intros Hz.
  assert (Hall : forallb
            (fun n => bool_decide
                        (Number_toString (Double_of_Z (Z.of_nat n)) =
                         digits (Z.of_nat n)))
            (seq 0 1000) = true) by (by vm_compute).
  rewrite forallb_forall in Hall.
  specialize (Hall (Z.to_nat z)).
  rewrite Z2Nat.id in Hall by lia.
  eapply bool_decide_eq_true_1, Hall, in_seq. lia.
Qed.

(** *** The claims on the chat flow *)

(** C3. For a stream whose chunks are made of whole lines, however the
    lines are grouped into chunks, the last Assistant turn ends up with its
    content followed by the fragments of the lines in order, where the
    fragment of a line is what the specification says ([specFragment]): the
    prefix [data: ] is stripped, [[DONE]] is skipped, and an envelope of
    type [content-delta] gives the string at [delta.message.content.text],
    or the empty string if that path is missing; the rest of the transcript
    is unchanged. In particular the popup, fed the chunks of the example as
    bytes, ends with the Assistant content "Hi there". *)
Theorem stream_of_whole_lines :
  (forall (groups : list (list JSString)) (fragments : list JSString)
          (init : list ChatMessage) (c : JSString),
     Forall (Forall (fun line => 10 ∉ line)) groups ->
     Forall2 (fun line f => specFragment line = Some f)
       (mjoin groups) fragments ->
     reduce (unlines <$> groups) (init ++ [mkChatMessage assistant c]) =
     init ++ [mkChatMessage assistant (c ++ mjoin fragments)]) /\
  specFragment line_Hi = Some (lit "Hi") /\
  specFragment line_there = Some (lit " there") /\
  specFragment line_DONE = Some [] /\
  run key initialWorld
    [Input (lit "Hello"); Submit;
     FetchSettles 0 (Resolved (mkResponse 200 true));
     ReadSettles 0 (ReadValue (line_Hi ++ [10]));
     ReadSettles 0 (ReadValue (line_there ++ [10]));
     ReadSettles 0 (ReadValue (line_DONE ++ [10]));
     ReadSettles 0 ReadDone] =
  Some (mkWorld
          (mkState [mkChatMessage user (lit "Hello");
                    mkChatMessage assistant (lit "Hi there")] [] false)
          [] [mkRequest [mkChatMessage user (lit "Hello")]]).
Proof.
  split; [|split_and!; by vm_compute].
  intros groups fragments init c Hlines Hfrag.
  rewrite (reduce_whole_lines _ _ Hlines), processLines_assistant.
  assert (Hjoin : mjoin (lineFragment <$> mjoin groups) = mjoin fragments).
  { clear Hlines.
    induction Hfrag as [|line f lines fs Hf _ IH]; [done|].
    change (lineFragment line ++ mjoin (lineFragment <$> lines) =
            f ++ mjoin fs).
    by rewrite (lineFragment_spec _ _ Hf), IH. }
  by rewrite Hjoin.
Qed.

Lemma stream_of_whole_lines_witness :
  reduce (unlines <$> [[line_Hi; line_there]; []; [line_DONE]])
    ([mkChatMessage user (lit "Hello")] ++ [mkChatMessage assistant []]) =
  [mkChatMessage user (lit "Hello")]
  ++ [mkChatMessage assistant ([] ++ mjoin [lit "Hi"; lit " there"; []])].
Proof.
  apply (proj1 stream_of_whole_lines).
  - repeat constructor; apply (bool_decide_unpack _); by vm_compute.
  - repeat constructor; by vm_compute.
Defined.

Lemma processLines_cons (line : JSString) (lines : list JSString)
    (prev : list ChatMessage) :
  processLines (line :: lines) prev = processLines lines (processLine line prev).
Proof. reflexivity. Qed.

Lemma reduce_cons (chunk : JSString) (chunks : list JSString)
    (prev : list ChatMessage) :
  reduce (chunk :: chunks) prev =
  reduce chunks (processLines (split 10 chunk) prev).
Proof. reflexivity. Qed.

(** A silent line between whole lines of a chunk can be taken out. *)
Lemma processLines_silent_line (A line B : JSString) (prev : list ChatMessage) :
  silent line -> 10 ∉ line ->
  (A = [] \/ exists A', A = A' ++ [10]) ->
  processLines (split 10 (A ++ line ++ [10] ++ B)) prev =
  processLines (split 10 (A ++ B)) prev.
Proof.
  intros Hsilent Hline [->|[A' ->]].
  - cbn [app]. rewrite (split_line _ _ _ Hline), processLines_cons.
    by rewrite processLine_silent.
  - rewrite <- !app_assoc. cbn [app].
    rewrite !(split_app 10 A'), !processLines_app.
    rewrite (split_line _ _ _ Hline), processLines_cons.
    by rewrite processLine_silent.
Qed.

(** C9. A line [data: <payload>] whose payload [JSON.parse] rejects,
    standing between whole lines of a chunk, is discarded: the stream loop
    goes on, and it leaves the transcript exactly as the same stream without
    that line does. *)
Theorem malformed_line_discarded
    (before after : list JSString) (A payload B : JSString)
    (prev : list ChatMessage) :
  JSON_parse payload = None ->
  10 ∉ payload ->
  (A = [] \/ exists A', A = A' ++ [10]) ->
  reduce (before ++ [A ++ (lit "data: " ++ payload) ++ [10] ++ B] ++ after)
    prev =
  reduce (before ++ [A ++ B] ++ after) prev.
Proof.
  intros Hbad Hnl HA.
  assert (Hline : 10 ∉ lit "data: " ++ payload).
  { rewrite not_elem_of_app. split; [|done].
    apply (bool_decide_unpack _). by vm_compute. }
  rewrite !reduce_app. cbn [app]. rewrite !reduce_cons. f_equal.
  apply processLines_silent_line; auto using silent_malformed.
Qed.

Lemma malformed_line_discarded_witness :
  reduce ([] ++ [(line_Hi ++ [10]) ++ (lit "data: " ++ lit "not-json")
                 ++ [10] ++ (line_there ++ [10])] ++ [line_DONE ++ [10]])
    [mkChatMessage user (lit "Hello"); mkChatMessage assistant []] =
  reduce ([] ++ [(line_Hi ++ [10]) ++ (line_there ++ [10])]
          ++ [line_DONE ++ [10]])
    [mkChatMessage user (lit "Hello"); mkChatMessage assistant []].
Proof.
  apply (malformed_line_discarded [] [line_DONE ++ [10]] (line_Hi ++ [10])
           (lit "not-json") (line_there ++ [10])).
  - by vm_compute.
  - apply (bool_decide_unpack _). by vm_compute.
  - right. by exists line_Hi.
Defined.


(** C6. In every world the popup reaches, at most one call of
    [sendChatMessage] is suspended; the loading flag is up exactly while one
    is; and while the flag is up a submission changes nothing: not the
    state, not the suspended call, and no request is sent. *)
Theorem one_exchange_in_flight
    (apiKey : option JSString) (events : list Event) (w : World) :
  run apiKey initialWorld events = Some w ->
  (length (inflight w) <= 1)%nat /\
  (chatLoading (state w) = true <-> inflight w <> []) /\
  (chatLoading (state w) = true -> step apiKey w Submit = Some w).
Proof.
  intros Hrun. pose proof (Inv_reachable _ _ _ Hrun) as HI.
  split_and!.
  - destruct HI as [[-> _]|(p & _ & _ & -> & _)]; cbn; lia.
  - destruct HI as [[-> ->]|(p & _ & _ & -> & -> & _)]; split; done.
  - intros Hload. cbn [step]. f_equal. apply sendChatMessage_rejected.
    intros [_ Hacc]. congruence.
Qed.

Lemma one_exchange_in_flight_witness :
  let w :=
    mkWorld
      (mkState [mkChatMessage user (lit "Hello"); mkChatMessage assistant []]
         (lit "again") true)
      [AwaitFetch] [mkRequest [mkChatMessage user (lit "Hello")]] in
  (length (inflight w) <= 1)%nat /\
  (chatLoading (state w) = true <-> inflight w <> []) /\
  (chatLoading (state w) = true -> step key w Submit = Some w).
Proof.
  apply (one_exchange_in_flight key
           [Input (lit " Hello "); Submit; Input (lit "again"); Submit]).
  by vm_compute.
Defined.

(** C5. From any world the popup reaches: a submission that is taken
    appends to the transcript one User turn (the trimmed input) and one
    Assistant turn created with empty content, which without an API key is
    at once overwritten by the error text; a submission that is not taken
    changes nothing; editing the input leaves the transcript alone; and
    whenever a suspended call goes on (its fetch or its read settles, in
    whatever way) the transcript keeps every turn but the last, which is an
    Assistant turn before and after. *)
Theorem only_last_assistant_turn_mutated
    (apiKey : option JSString) (events : list Event) (w w' : World)
    (e : Event) :
  run apiKey initialWorld events = Some w ->
  step apiKey w e = Some w' ->
  match e with
  | Submit =>
      (accepted w ->
       let created :=
         chatMessages (state w)
         ++ [mkChatMessage user (trim (chatInput (state w)));
             mkChatMessage assistant []] in
       chatMessages (state w') =
         if noApiKey apiKey
         then replaceWithError (ErrorObject (lit "VITE_COHERE_KEY not set"))
                created
         else created) /\
      (~ accepted w -> w' = w)
  | Input _ => chatMessages (state w') = chatMessages (state w)
  | FetchSettles _ _ | ReadSettles _ _ =>
      exists (init : list ChatMessage) (c c' : JSString),
        chatMessages (state w) = init ++ [mkChatMessage assistant c] /\
        chatMessages (state w') = init ++ [mkChatMessage assistant c']
  end.
Proof.
  intros Hrun Hstep. pose proof (Inv_reachable _ _ _ Hrun) as HI.
  destruct e as [value| |k f|k r]; cbn [step] in Hstep.
  - by injection Hstep as <-.
  - injection Hstep as <-. split.
    + intros Hacc. rewrite (sendChatMessage_accepted _ _ Hacc). cbn zeta.
      by destruct (noApiKey apiKey).
    + apply sendChatMessage_rejected.
  - destruct (inflight w !! k) as [[|d]|] eqn:Hk; try discriminate.
    destruct (afterFetch f (state w)) as [s p'] eqn:Hf.
    injection Hstep as <-.
    destruct HI as [[Hin _]|(p & init & c & Hin & Hload & Hmsgs)].
    { rewrite Hin in Hk. discriminate. }
    destruct (afterFetch_last _ _ _ _ _ _ Hmsgs Hf) as [[c' Hc'] _].
    by exists init, c, c'.
  - destruct (inflight w !! k) as [[|d]|] eqn:Hk; try discriminate.
    destruct (afterRead d r (state w)) as [s p'] eqn:Hr.
    injection Hstep as <-.
    destruct HI as [[Hin _]|(p & init & c & Hin & Hload & Hmsgs)].
    { rewrite Hin in Hk. discriminate. }
    destruct (afterRead_last _ _ _ _ _ _ _ Hmsgs Hr) as [[c' Hc'] _].
    by exists init, c, c'.
Qed.

Lemma only_last_assistant_turn_mutated_witness :
  (exists (init : list ChatMessage) (c c' : JSString),
     [mkChatMessage user (lit "Hello"); mkChatMessage assistant []]
       = init ++ [mkChatMessage assistant c] /\
     [mkChatMessage user (lit "Hello"); mkChatMessage assistant (lit "Hi")]
       = init ++ [mkChatMessage assistant c']) /\
  [mkChatMessage user (lit "Hello"); mkChatMessage assistant []] =
  [] ++ [mkChatMessage user (lit "Hello"); mkChatMessage assistant []].
Proof.
  split.
  - apply (only_last_assistant_turn_mutated key
             [Input (lit " Hello "); Submit;
              FetchSettles 0 (Resolved (mkResponse 200 true))]
             (mkWorld
                (mkState [mkChatMessage user (lit "Hello");
                          mkChatMessage assistant []] [] true)
                [AwaitRead newTextDecoder]
                [mkRequest [mkChatMessage user (lit "Hello")]])
             (mkWorld
                (mkState [mkChatMessage user (lit "Hello");
                          mkChatMessage assistant (lit "Hi")] [] true)
                [AwaitRead (mkTextDecoder 0 0 0 128 191 true)]
                [mkRequest [mkChatMessage user (lit "Hello")]])
             (ReadSettles 0 (ReadValue (line_Hi ++ [10])))); by vm_compute.
  - apply (proj1
             (only_last_assistant_turn_mutated key
                [Input (lit " Hello ")]
                (mkWorld (mkState [] (lit " Hello ") false) [] [])
                (mkWorld
                   (mkState [mkChatMessage user (lit "Hello");
                             mkChatMessage assistant []] [] true)
                   [AwaitFetch] [mkRequest [mkChatMessage user (lit "Hello")]])
                Submit eq_refl eq_refl)).
    split; [by vm_compute | done].
Defined.

(** C4. From any world the popup reaches, every failure of the exchange
    leaves the transcript as it was but for the last, Assistant, turn, whose
    content, whatever it was, becomes [Error: ] followed by the message: the
    message of the error with which the fetch or a read rejects; [API
    error: ] and the status, in decimal digits, for a response whose status
    is outside 200..299 (so [Error: API error: 500] for status 500); [No
    response body] for an ok response without a body; and [VITE_COHERE_KEY
    not set] for a submission without an API key. *)
Theorem failure_overwrites_last_turn
    (apiKey : option JSString) (events : list Event) (w w' : World)
    (e : Event) :
  run apiKey initialWorld events = Some w ->
  step apiKey w e = Some w' ->
  (forall (k : nat) (err : Thrown),
     e = FetchSettles k (Rejected err) \/
     e = ReadSettles k (ReadRejected err) ->
     exists (init : list ChatMessage) (c : JSString),
       chatMessages (state w) = init ++ [mkChatMessage assistant c] /\
       chatMessages (state w') =
         init ++ [mkChatMessage assistant
                    (lit "Error: " ++ errorMessage err)]) /\
  (forall (k : nat) (response : Response),
     e = FetchSettles k (Resolved response) ->
     ~ (200 <= status response <= 299) ->
     exists (init : list ChatMessage) (c : JSString),
       chatMessages (state w) = init ++ [mkChatMessage assistant c] /\
       chatMessages (state w') =
         init ++ [mkChatMessage assistant
                    (lit "Error: API error: "
                     ++ Number_toString (Double_of_Z (status response)))] /\
       (0 <= status response <= 999 ->
        chatMessages (state w') =
          init ++ [mkChatMessage assistant
                     (lit "Error: API error: " ++ digits (status response))]) /\
       (status response = 500 ->
        chatMessages (state w') =
          init ++ [mkChatMessage assistant (lit "Error: API error: 500")])) /\
  (forall (k : nat) (response : Response),
     e = FetchSettles k (Resolved response) ->
     200 <= status response <= 299 -> hasBody response = false ->
     exists (init : list ChatMessage) (c : JSString),
       chatMessages (state w) = init ++ [mkChatMessage assistant c] /\
       chatMessages (state w') =
         init ++ [mkChatMessage assistant (lit "Error: No response body")]) /\
  (e = Submit -> accepted w -> noApiKey apiKey = true ->
   chatMessages (state w') =
     chatMessages (state w)
     ++ [mkChatMessage user (trim (chatInput (state w)));
         mkChatMessage assistant (lit "Error: VITE_COHERE_KEY not set")]).
Proof.
  intros Hrun Hstep. pose proof (Inv_reachable _ _ _ Hrun) as HI.
  assert (Hlast : forall k,
    is_Some (inflight w !! k) ->
    exists init c, chatMessages (state w) = init ++ [mkChatMessage assistant c]).
  { intros k [p Hk].
    destruct HI as [[Hin _]|(p0 & init & c & _ & _ & Hmsgs)]; [|eauto].
    rewrite Hin in Hk. discriminate. }
  split_and!.
  - intros k err [-> | ->]; cbn [step] in Hstep.
    + destruct (inflight w !! k) as [[|d]|] eqn:Hk; try discriminate.
      destruct (Hlast k) as (init & c & Hmsgs); [by rewrite Hk|].
      cbn [afterFetch] in Hstep.
      rewrite (catch_finally _ _ _ _ Hmsgs) in Hstep.
      injection Hstep as <-. by exists init, c.
    + destruct (inflight w !! k) as [[|d]|] eqn:Hk; try discriminate.
      destruct (Hlast k) as (init & c & Hmsgs); [by rewrite Hk|].
      cbn [afterRead] in Hstep.
      rewrite (catch_finally _ _ _ _ Hmsgs) in Hstep.
      injection Hstep as <-. by exists init, c.
  - intros k response -> Hstatus. cbn [step] in Hstep.
    destruct (inflight w !! k) as [[|d]|] eqn:Hk; try discriminate.
    destruct (Hlast k) as (init & c & Hmsgs); [by rewrite Hk|].
    cbn [afterFetch] in Hstep.
    replace (ok response) with false in Hstep
      by (unfold ok; symmetry; apply andb_false_iff; lia).
    cbn [negb] in Hstep.
    rewrite (catch_finally _ _ _ _ Hmsgs) in Hstep.
    injection Hstep as <-. exists init, c.
    cbn [state chatMessages errorMessage]. split_and!; try done.
    + intros Hdigits. by rewrite status_toString.
    + by intros ->.
  - intros k response -> Hstatus Hbody. cbn [step] in Hstep.
    destruct (inflight w !! k) as [[|d]|] eqn:Hk; try discriminate.
    destruct (Hlast k) as (init & c & Hmsgs); [by rewrite Hk|].
    cbn [afterFetch] in Hstep.
    replace (ok response) with true in Hstep
      by (unfold ok; symmetry; apply andb_true_iff; lia).
    rewrite Hbody in Hstep. cbn [negb] in Hstep.
    rewrite (catch_finally _ _ _ _ Hmsgs) in Hstep.
    injection Hstep as <-. by exists init, c.
  - intros -> Hacc Hkey. cbn [step] in Hstep. injection Hstep as <-.
    rewrite (sendChatMessage_accepted _ _ Hacc). cbn zeta. rewrite Hkey.
    cbn [state chatMessages].
    set (u := mkChatMessage user (trim (chatInput (state w)))).
    change [u; mkChatMessage assistant []]
      with ([u] ++ [mkChatMessage assistant []]).
    rewrite app_assoc, replaceWithError_assistant.
    by rewrite <- app_assoc.
Qed.

Lemma failure_overwrites_last_turn_witness :
  (exists (init : list ChatMessage) (c : JSString),
     [mkChatMessage user (lit "Hello"); mkChatMessage assistant (lit "Hi")]
       = init ++ [mkChatMessage assistant c] /\
     [mkChatMessage user (lit "Hello");
      mkChatMessage assistant (lit "Error: network error")]
       = init ++ [mkChatMessage assistant
                    (lit "Error: "
                     ++ errorMessage (ErrorObject (lit "network error")))]) /\
  (exists (init : list ChatMessage) (c : JSString),
     [mkChatMessage user (lit "Hello"); mkChatMessage assistant []]
       = init ++ [mkChatMessage assistant c] /\
     [mkChatMessage user (lit "Hello");
      mkChatMessage assistant (lit "Error: API error: 500")]
       = init ++ [mkChatMessage assistant
                    (lit "Error: API error: "
                     ++ Number_toString (Double_of_Z 500))] /\
     (0 <= 500 <= 999 ->
      [mkChatMessage user (lit "Hello");
       mkChatMessage assistant (lit "Error: API error: 500")]
        = init ++ [mkChatMessage assistant
                     (lit "Error: API error: " ++ digits 500)]) /\
     (500 = 500 ->
      [mkChatMessage user (lit "Hello");
       mkChatMessage assistant (lit "Error: API error: 500")]
        = init ++ [mkChatMessage assistant (lit "Error: API error: 500")])).
Proof.
  split.
  - apply (proj1
             (failure_overwrites_last_turn key
                [Input (lit " Hello "); Submit;
                 FetchSettles 0 (Resolved (mkResponse 200 true));
                 ReadSettles 0 (ReadValue (line_Hi ++ [10]))]
                (mkWorld
                   (mkState [mkChatMessage user (lit "Hello");
                             mkChatMessage assistant (lit "Hi")] [] true)
                   [AwaitRead (mkTextDecoder 0 0 0 128 191 true)]
                   [mkRequest [mkChatMessage user (lit "Hello")]])
                (mkWorld
                   (mkState [mkChatMessage user (lit "Hello");
                             mkChatMessage assistant
                               (lit "Error: network error")] [] false)
                   [] [mkRequest [mkChatMessage user (lit "Hello")]])
                (ReadSettles 0 (ReadRejected (ErrorObject (lit "network error"))))
                eq_refl eq_refl) 0%nat (ErrorObject (lit "network error"))).
    by right.
  - apply (proj1 (proj2
             (failure_overwrites_last_turn key
                [Input (lit " Hello "); Submit]
                (mkWorld
                   (mkState [mkChatMessage user (lit "Hello");
                             mkChatMessage assistant []] [] true)
                   [AwaitFetch]
                   [mkRequest [mkChatMessage user (lit "Hello")]])
                (mkWorld
                   (mkState [mkChatMessage user (lit "Hello");
                             mkChatMessage assistant
                               (lit "Error: API error: 500")] [] false)
                   [] [mkRequest [mkChatMessage user (lit "Hello")]])
                (FetchSettles 0 (Resolved (mkResponse 500 true)))
                eq_refl eq_refl)) 0%nat (mkResponse 500 true) eq_refl).
    cbn [status]. lia.
Defined.

(** *** No proper prefix of an object's text is a JSON text *)

Lemma lex_lexRun (s : JSString) (st : LexState) :
  lex st s =
  '(st', toks) ← lexRun st s; fin ← finish st'; Some (toks ++ fin).
Proof.
  revert st. induction s as [|c r IH]; intros st; cbn [lex lexRun].
  - cbn. by destruct (finish st).
  - destruct (lexStep st c) as [[st1 t1]|]; [|done]. cbn.
    rewrite IH. destruct (lexRun st1 r) as [[st2 t2]|]; [|done]. cbn.
    destruct (finish st2); [|done]. cbn. by rewrite app_assoc.
Qed.

Lemma lexRun_app (a b : JSString) (st : LexState) :
  lexRun st (a ++ b) =
  '(st1, t1) ← lexRun st a; '(st2, t2) ← lexRun st1 b; Some (st2, t1 ++ t2).
Proof.
  revert st. induction a as [|c a IH]; intros st; cbn [lexRun app].
  - cbn. by destruct (lexRun st b) as [[? ?]|].
  - destruct (lexStep st c) as [[st1 t1]|]; [|done]. cbn.
    rewrite IH. destruct (lexRun st1 a) as [[st2 t2]|]; [|done]. cbn.
    destruct (lexRun st2 b) as [[st3 t3]|]; [|done]. cbn.
    by rewrite app_assoc.
Qed.

Lemma parseTokens_parseRun (toks : list Token) (st : ParseState) :
  parseTokens st toks = parseRun st toks ≫= result.
Proof.
  revert st. induction toks as [|tok toks IH]; intros st; cbn.
  - by destruct st.
  - destruct (parseStep st tok); [apply IH | done].
Qed.

Lemma parseRun_app (t1 t2 : list Token) (st : ParseState) :
  parseRun st (t1 ++ t2) = parseRun st t1 ≫= fun st' => parseRun st' t2.
Proof.
  revert st. induction t1 as [|tok t1 IH]; intros st; cbn; [done|].
  destruct (parseStep st tok); [apply IH | done].
Qed.

Lemma parseRun_done (v : JSValue) (toks : list Token) (st : ParseState) :
  parseRun (PDone v) toks = Some st -> toks = [] /\ st = PDone v.
Proof.
  destruct toks as [|tok toks]; cbn.
  - by intros [= <-].
  - by destruct tok.
Qed.

(** A number completes a text only where the text is that number. *)
Lemma parseStep_number (st s1 s1' : ParseState) (d d' : Decimal) (v : JSValue) :
  parseStep st (TNumber d) = Some s1 ->
  parseStep st (TNumber d') = Some s1' ->
  s1 = PDone v ->
  exists x, s1' = PDone (JNumber x).
Proof.
  destruct st as [stack|stack| | | | | |]; cbn; try discriminate.
  - destruct stack as [|[?|? ?] ?]; cbn; intros [= <-] [= <-]; try discriminate.
    eauto.
  - intros [= <-]. discriminate.
Qed.

Lemma numberToken_number (ph : NumPhase) (a : NumAcc) (tok : Token) :
  numberToken ph a = Some tok -> exists d, tok = TNumber d.
Proof. destruct ph; cbn; intros [= <-]; eauto. Qed.

(** The tokens still to come when the text is cut inside a number start
    with that number. *)
Lemma lexRun_number (b : JSString) :
  forall (ph : NumPhase) (a : NumAcc) (st : LexState) (tb fb : list Token),
    lexRun (LNumber ph a) b = Some (st, tb) ->
    finish st = Some fb ->
    exists d rest, tb ++ fb = TNumber d :: rest.
Proof.
  induction b as [|c b IH]; intros ph a st tb fb; cbn [lexRun].
  - intros [= <- <-]. cbn.
    destruct (numberToken ph a) as [tok|] eqn:Htok; [|done].
    intros [= <-]. destruct (numberToken_number _ _ _ Htok) as [d ->]. eauto.
  - cbn [lexStep].
    destruct (stepNumber ph a c) as [[ph' a']|].
    + cbn. destruct (lexRun (LNumber ph' a') b) as [[st2 t2]|] eqn:Hb; [|done].
      cbn. intros [= <- <-]. cbn. eauto.
    + destruct (numberToken ph a) as [tok|] eqn:Htok; [|done].
      destruct (stepReady c) as [[st' toks]|]; [|done]. cbn.
      destruct (lexRun st' b) as [[st2 t2]|]; [|done]. cbn.
      intros [= <- <-] _.
      destruct (numberToken_number _ _ _ Htok) as [d ->]. cbn. eauto.
Qed.

(** Inside a token, a code unit that yields no token leaves the lexer
    inside a token. *)
Lemma lexStep_quiet (st st1 : LexState) (c : Z) :
  st <> LReady -> lexStep st c = Some (st1, []) -> st1 <> LReady.
Proof.
  intros Hst. destruct st as [|acc|acc|acc value count|ph a|rest tok];
    [done|..]; cbn [lexStep]; intros H;
    repeat case_match; simplify_eq; done.
Qed.

Lemma lexRun_inside (b : JSString) :
  forall (st st' : LexState) (tb fb : list Token),
    st <> LReady ->
    lexRun st b = Some (st', tb) ->
    finish st' = Some fb ->
    tb ++ fb <> [].
Proof.
  induction b as [|c b IH]; intros st st' tb fb Hst; cbn [lexRun].
  - intros [= <- <-]. destruct st; try done. cbn.
    destruct (numberToken ph a); [|done]. by intros [= <-].
  - destruct (lexStep st c) as [[st1 t1]|] eqn:Hc; [|done]. cbn.
    destruct (lexRun st1 b) as [[st2 t2]|] eqn:Hb; [|done]. cbn.
    intros [= <- <-] Hfin.
    destruct t1 as [|tok t1]; [|done]. cbn.
    eapply IH; [|exact Hb|exact Hfin]. by eapply lexStep_quiet.
Qed.

Lemma stepReady_progress (c : Z) (st : LexState) (toks : list Token) :
  isJSONWhiteSpace c = false ->
  stepReady c = Some (st, toks) ->
  toks <> [] \/ st <> LReady.
Proof.
  unfold stepReady. intros ->.
  repeat case_match; intros [= <- <-]; (by left) || (by right).
Qed.

(** Between tokens, a text with a code unit other than white space yields a
    token. *)
Lemma lexRun_ready (b : JSString) :
  forall (st : LexState) (tb fb : list Token),
    (exists c, c ∈ b /\ isJSONWhiteSpace c = false) ->
    lexRun LReady b = Some (st, tb) ->
    finish st = Some fb ->
    tb ++ fb <> [].
Proof.
  induction b as [|c b IH]; intros st tb fb (x & Hx & Hws).
  - by apply elem_of_nil in Hx.
  - cbn [lexRun lexStep].
    destruct (stepReady c) as [[st1 t1]|] eqn:Hc; [|done]. cbn.
    destruct (lexRun st1 b) as [[st2 t2]|] eqn:Hb; [|done]. cbn.
    intros [= <- <-] Hfin.
    destruct (isJSONWhiteSpace c) eqn:Hcws.
    + unfold stepReady in Hc. rewrite Hcws in Hc. injection Hc as <- <-.
      cbn. eapply IH; [|exact Hb|exact Hfin].
      apply elem_of_cons in Hx as [->|Hx]; [congruence | eauto].
    + destruct (stepReady_progress _ _ _ Hcws Hc) as [Ht|Hst].
      * by destruct t1.
      * destruct t1; [|done]. cbn. by eapply lexRun_inside.
Qed.

(** *** White space after a text *)

Lemma literalState_step (st st' : LexState) (c : Z) (toks : list Token) :
  literalState st -> lexStep st c = Some (st', toks) -> literalState st'.
Proof.
  intros Hst. destruct st as [|acc|acc|acc value count|ph a|rest tok];
    cbn [lexStep]; intros H.
  - unfold stepReady in H.
    repeat case_match; simplify_eq; cbn; try done;
      repeat constructor.
  - repeat case_match; simplify_eq; done.
  - repeat case_match; simplify_eq; done.
  - repeat case_match; simplify_eq; done.
  - destruct (stepNumber ph a c) as [[ph' a']|]; [by simplify_eq|].
    destruct (numberToken ph a); [|done].
    destruct (stepReady c) as [[st1 t1]|] eqn:Hc; [|done].
    simplify_eq. unfold stepReady in Hc.
    repeat case_match; simplify_eq; cbn; try done; repeat constructor.
  - destruct rest as [|x rest']; [done|].
    apply Forall_cons in Hst as [_ Hst].
    repeat case_match; simplify_eq; done.
Qed.

Lemma literalState_run (s : JSString) :
  forall (st st' : LexState) (toks : list Token),
    literalState st -> lexRun st s = Some (st', toks) -> literalState st'.
Proof.
  induction s as [|c s IH]; intros st st' toks Hst; cbn [lexRun].
  - by intros [= <- _].
  - destruct (lexStep st c) as [[st1 t1]|] eqn:Hc; [|done]. cbn.
    destruct (lexRun st1 s) as [[st2 t2]|] eqn:Hs; [|done]. cbn.
    intros [= <- _]. eapply IH; [|exact Hs]. by eapply literalState_step.
Qed.

(** White space after the last token changes nothing. *)
Lemma lexStep_trailing (st : LexState) (c : Z) :
  literalState st -> isJSONWhiteSpace c = true ->
  (lexStep st c ≫= fun '(st', toks) => fin ← finish st'; Some (toks ++ fin))
  = finish st.
Proof.
  intros Hst Hc. destruct st as [|acc|acc|acc value count|ph a|rest tok];
    cbn [lexStep finish].
  - unfold stepReady. by rewrite Hc.
  - repeat case_match; try done;
      unfold isJSONWhiteSpace in Hc; lia.
  - repeat case_match; try done; unfold isJSONWhiteSpace in Hc; lia.
  - unfold hexValue, isDigit.
    repeat case_match; try done; unfold isJSONWhiteSpace in Hc; lia.
  - assert (Hn : stepNumber ph a c = None).
    { unfold stepNumber, isDigit. unfold isJSONWhiteSpace in Hc.
      destruct ph; repeat case_match; try done; lia. }
    rewrite Hn. unfold stepReady. rewrite Hc.
    destruct (numberToken ph a); [|done]. done.
  - destruct rest as [|x rest']; [done|].
    apply Forall_cons in Hst as [Hx _].
    destruct (Z.eqb_spec c x) as [->|]; [congruence | done].
Qed.

Lemma lex_trailing (s : JSString) (c : Z) :
  isJSONWhiteSpace c = true ->
  lex LReady (s ++ [c]) = lex LReady s.
Proof.
  intros Hc. rewrite !lex_lexRun, lexRun_app.
  destruct (lexRun LReady s) as [[st toks]|] eqn:Hs; [|done].
  cbn [mbind option_bind lexRun].
  pose proof (literalState_run s LReady st toks I Hs) as Hst.
  pose proof (lexStep_trailing st c Hst Hc) as Ht.
  destruct (lexStep st c) as [[st1 t1]|]; cbn in *.
  - rewrite app_nil_r.
    destruct (finish st1) as [f1|]; cbn in *;
      destruct (finish st) as [f0|]; cbn in *; try done.
    injection Ht as <-. by rewrite app_assoc.
  - by destruct (finish st).
Qed.

Lemma JSON_parse_trailing (s : JSString) (c : Z) :
  isJSONWhiteSpace c = true -> JSON_parse (s ++ [c]) = JSON_parse s.
Proof. intros Hc. unfold JSON_parse. by rewrite (lex_trailing s c Hc). Qed.

(** A text that parses to an object has no parseable prefix, unless only
    white space is cut off. *)
Lemma JSON_parse_prefix (a b : JSString) (members : list (JSString * JSValue)) :
  JSON_parse (a ++ b) = Some (JObject members) ->
  (exists c, c ∈ b /\ isJSONWhiteSpace c = false) ->
  JSON_parse a = None.
Proof.
  unfold JSON_parse. rewrite !lex_lexRun, lexRun_app.
  destruct (lexRun LReady a) as [[sa ta]|]; [|done]. cbn.
  destruct (lexRun sa b) as [[sb tb]|] eqn:Hb; [|done]. cbn.
  destruct (finish sb) as [fb|] eqn:Hfb; [|done]. cbn.
  destruct (finish sa) as [fa|] eqn:Hfa; [|done]. cbn.
  rewrite !parseTokens_parseRun, <- app_assoc, !parseRun_app.
  destruct (parseRun (PValue []) ta) as [s|]; [|done]. cbn.
  intros Hparse Hb_ws.
  destruct sa as [| | | |ph acc|]; try discriminate.
  - injection Hfa as <-. cbn.
    destruct s as [| | | | | | |v]; try done.
    destruct (parseRun (PDone v) (tb ++ fb)) as [s2|] eqn:H2; [|done].
    apply parseRun_done in H2 as [Hnil _].
    by destruct (lexRun_ready _ _ _ _ Hb_ws Hb Hfb).
  - destruct (lexRun_number _ _ _ _ _ _ Hb Hfb) as (d' & rest & Htoks).
    rewrite Htoks in Hparse. cbn in Hfa.
    destruct (numberToken ph acc) as [tok|] eqn:Htok; [|done].
    injection Hfa as <-.
    destruct (numberToken_number _ _ _ Htok) as [d ->].
    cbn [parseRun] in *.
    destruct (parseStep s (TNumber d)) as [s1|] eqn:H1; [|done].
    destruct (parseStep s (TNumber d')) as [s1'|] eqn:H1'; [|done].
    cbn in *.
    destruct s1 as [| | | | | | |v]; try done.
    destruct (parseStep_number _ _ _ _ _ _ H1 H1' eq_refl) as [x ->].
    destruct (parseRun (PDone (JNumber x)) rest) as [s2|] eqn:H2; [|done].
    apply parseRun_done in H2 as [_ ->]. discriminate.
Qed.

(** The first part of an event line cut in two hands nothing to the
    updater, as long as the cut leaves more than white space behind. *)
Lemma silent_first_part (a b payload : JSString)
    (members : list (JSString * JSValue)) :
  a ++ b = lit "data: " ++ payload ->
  JSON_parse payload = Some (JObject members) ->
  (exists c, c ∈ b /\ isJSONWhiteSpace c = false) ->
  silent a.
Proof.
  intros Hcut Hparse Hb.
  destruct (decide (length a < 6)%nat) as [Hshort|Hlong].
  - apply silent_no_prefix. unfold startsWith.
    apply bool_decide_eq_false. intros Heq.
    apply (f_equal length) in Heq. rewrite length_take in Heq.
    change (length (lit "data: ")) with 6%nat in Heq. lia.
  - assert (Ha : a = lit "data: " ++ drop 6 a).
    { rewrite <- (take_drop 6 a) at 1. f_equal.
      apply (f_equal (take 6)) in Hcut.
      rewrite take_app_le in Hcut by lia. exact Hcut. }
    rewrite Ha. apply silent_malformed.
    apply (JSON_parse_prefix _ b members); [|done].
    apply (f_equal (drop 6)) in Hcut.
    rewrite drop_app_le in Hcut by lia. by rewrite Hcut.
Qed.

(** C10 as stated: an event line cut in two between two chunk reads loses
    its fragment. Counterexample: the line of the example with a space after
    its payload, cut before that space; the first chunk is then a whole
    event by itself, and "Hi" is appended. *)
Lemma split_line_counterexample :
  ~ (forall (a b f : JSString) (prev : list ChatMessage),
       a <> [] -> b <> [] -> 10 ∉ a ++ b ->
       specFragment (a ++ b) = Some f ->
       reduce [a; b ++ [10]] prev = prev).
Proof.
  intros H.
  specialize (H line_Hi (lit " ") (lit "Hi")
                [mkChatMessage user (lit "Hello"); mkChatMessage assistant []]).
  assert (Hne : reduce [line_Hi; lit " " ++ [10]]
                  [mkChatMessage user (lit "Hello"); mkChatMessage assistant []]
                = [mkChatMessage user (lit "Hello");
                   mkChatMessage assistant (lit "Hi")]) by (by vm_compute).
  rewrite H in Hne; try (by vm_compute).
  apply (bool_decide_unpack _). by vm_compute.
Qed.

(** *** A line cut in two *)

Lemma lex_app (a b : JSString) (st : LexState) :
  lex st (a ++ b) =
  '(st1, t1) ← lexRun st a; rest ← lex st1 b; Some (t1 ++ rest).
Proof.
  rewrite !lex_lexRun, lexRun_app.
  destruct (lexRun st a) as [[st1 t1]|]; [|done]. cbn [mbind option_bind].
  rewrite lex_lexRun.
  destruct (lexRun st1 b) as [[st2 t2]|]; [|done]. cbn [mbind option_bind].
  destruct (finish st2); [|done]. cbn [mbind option_bind].
  by rewrite app_assoc.
Qed.

Lemma literalLetters_step (st st' : LexState) (c : Z) (toks : list Token) :
  literalLetters st -> lexStep st c = Some (st', toks) -> literalLetters st'.
Proof.
  intros Hst. destruct st as [|acc|acc|acc value count|ph a|rest tok];
    cbn [lexStep]; intros H.
  - unfold stepReady in H.
    repeat case_match; simplify_eq; cbn; try done;
      apply (bool_decide_unpack _); by vm_compute.
  - repeat case_match; simplify_eq; done.
  - repeat case_match; simplify_eq; done.
  - repeat case_match; simplify_eq; done.
  - destruct (stepNumber ph a c) as [[ph' a']|]; [by simplify_eq|].
    destruct (numberToken ph a); [|done].
    destruct (stepReady c) as [[st1 t1]|] eqn:Hc; [|done].
    simplify_eq. unfold stepReady in Hc.
    repeat case_match; simplify_eq; cbn; try done;
      apply (bool_decide_unpack _); by vm_compute.
  - destruct rest as [|x rest']; [done|].
    apply Forall_cons in Hst as [_ Hst].
    repeat case_match; simplify_eq; done.
Qed.

Lemma literalLetters_run (s : JSString) :
  forall (st st' : LexState) (toks : list Token),
    literalLetters st -> lexRun st s = Some (st', toks) -> literalLetters st'.
Proof.
  induction s as [|c s IH]; intros st st' toks Hst; cbn [lexRun].
  - by intros [= <- _].
  - destruct (lexStep st c) as [[st1 t1]|] eqn:Hc; [|done]. cbn.
    destruct (lexRun st1 s) as [[st2 t2]|] eqn:Hs; [|done]. cbn.
    intros [= <- _]. eapply IH; [|exact Hs]. by eapply literalLetters_step.
Qed.

(** The letter [d] is read inside a string only. *)
Lemma lexStep_d (st st' : LexState) (toks : list Token) :
  literalLetters st -> lexStep st 100 = Some (st', toks) ->
  match st' with
  | LString _ | LUnicode _ _ _ => True
  | _ => False
  end.
Proof.
  intros Hst. destruct st as [|acc|acc|acc value count|ph a|rest tok];
    cbn [lexStep].
  - by vm_compute.
  - intros H. cbn in H. by simplify_eq.
  - by vm_compute.
  - intros H. cbn in H. destruct (count =? 3)%nat; by simplify_eq.
  - destruct ph; by vm_compute.
  - destruct rest as [|x rest']; [done|].
    apply Forall_cons in Hst as [Hx _].
    destruct (Z.eqb_spec 100 x) as [<-|]; [|done].
    exfalso. revert Hx. apply (bool_decide_unpack _). by vm_compute.
Qed.

(** After the text [data: ] the lexer, if it got that far, stands inside a
    string. *)
Lemma lexRun_data (st st' : LexState) (toks : list Token) :
  literalLetters st -> lexRun st (lit "data: ") = Some (st', toks) ->
  exists acc, st' = LString acc.
Proof.
  intros Hst. change (lit "data: ") with ([100] ++ [97; 116; 97; 58; 32]).
  rewrite lexRun_app. cbn [lexRun].
  destruct (lexStep st 100) as [[st1 t1]|] eqn:H1; [|done].
  pose proof (lexStep_d _ _ _ Hst H1) as Hd.
  cbn [mbind option_bind].
  destruct st1 as [|acc|acc|acc value count|ph a|rest tok]; try done.
  - cbn. intros [= <- _]. eauto.
  - (* inside a unicode escape: [a] is a digit of it, [t] is not *)
    cbn [lexRun lexStep hexValue isDigit]. cbn.
    destruct (count =? 3)%nat; cbn; [|done].
    intros [= <- _]. eauto.
Qed.

Lemma stepReady_outside (c : Z) (st' : LexState) (toks : list Token) :
  c <> 34 -> stepReady c = Some (st', toks) -> outsideString st'.
Proof.
  intros Hc H. unfold stepReady in H.
  repeat case_match; simplify_eq; try done. lia.
Qed.

Lemma stepNumber_no_quote (ph : NumPhase) (a : NumAcc) (c : Z) :
  c = 34 \/ c = 92 -> stepNumber ph a c = None.
Proof. intros [-> | ->]; by destruct ph. Qed.

(** Outside a string, a quote opens one. *)
Lemma lexStep_quote (st st' : LexState) (toks : list Token) :
  outsideString st -> literalLetters st ->
  lexStep st 34 = Some (st', toks) -> exists acc, st' = LString acc.
Proof.
  intros Ho Hl. destruct st as [| | | |ph a|rest tok]; try done;
    cbn [lexStep].
  - intros H. vm_compute in H. simplify_eq. eauto.
  - rewrite stepNumber_no_quote by (by left).
    destruct (numberToken ph a); [|done].
    intros H. vm_compute in H. simplify_eq. eauto.
  - destruct rest as [|x rest']; [done|].
    apply Forall_cons in Hl as [Hx _].
    destruct (Z.eqb_spec 34 x) as [<-|]; [|done].
    exfalso. revert Hx. apply (bool_decide_unpack _). by vm_compute.
Qed.

(** Outside a string, a backslash is an error. *)
Lemma lexStep_backslash (st : LexState) :
  outsideString st -> literalLetters st -> lexStep st 92 = None.
Proof.
  intros Ho Hl. destruct st as [| | | |ph a|rest tok]; try done;
    cbn [lexStep].
  - rewrite stepNumber_no_quote by (by right).
    by destruct (numberToken ph a).
  - destruct rest as [|x rest']; [done|].
    apply Forall_cons in Hl as [Hx _].
    destruct (Z.eqb_spec 92 x) as [<-|]; [|done].
    exfalso. revert Hx. apply (bool_decide_unpack _). by vm_compute.
Qed.

(** Outside a string, any other code unit leaves the lexer outside. *)
Lemma lexStep_outside (st st' : LexState) (c : Z) (toks : list Token) :
  outsideString st -> c <> 34 ->
  lexStep st c = Some (st', toks) -> outsideString st'.
Proof.
  intros Ho Hc. destruct st as [| | | |ph a|rest tok]; try done;
    cbn [lexStep].
  - by apply stepReady_outside.
  - destruct (stepNumber ph a c) as [[ph' a']|]; [by intros [= <- _]|].
    destruct (numberToken ph a); [|done].
    destruct (stepReady c) as [[st1 t1]|] eqn:Hr; [|done].
    intros [= <- _]. by eapply stepReady_outside.
  - destruct rest as [|x rest']; [done|].
    destruct (c =? x); [|done]. destruct rest'; by intros [= <- _].
Qed.

(** Inside a string, a code unit that is no quote and no backslash leaves
    the lexer inside. *)
Lemma lexStep_inside (acc : JSString) (st' : LexState) (c : Z)
    (toks : list Token) :
  c <> 34 -> c <> 92 ->
  lexStep (LString acc) c = Some (st', toks) -> exists acc', st' = LString acc'.
Proof.
  intros H34 H92. cbn [lexStep].
  destruct (Z.eqb_spec c 34); [done|]. destruct (Z.eqb_spec c 92); [done|].
  destruct (c <? 32); [done|]. intros [= <- _]. eauto.
Qed.

(** Two readings of one text, one from inside a string and one from
    outside: when the first succeeds, the second fails. *)
Lemma lex_flip (r : JSString) :
  forall stA stB : LexState,
    literalLetters stA -> literalLetters stB ->
    (exists acc, stA = LString acc) /\ outsideString stB \/
    outsideString stA /\ (exists acc, stB = LString acc) ->
    is_Some (lex stA r) -> lex stB r = None.
Proof.
  induction r as [|c r IH]; intros stA stB HlA HlB Hrel HA.
  - destruct Hrel as [[[acc ->] _]|[_ [acc ->]]]; [|done].
    by destruct HA as [? [=]].
  - cbn [lex] in *.
    destruct (lexStep stA c) as [[stA' tA]|] eqn:EA;
      [|by destruct HA as [? [=]]].
    cbn [mbind option_bind] in HA.
    assert (HA' : is_Some (lex stA' r)).
    { destruct (lex stA' r); [eauto | by destruct HA as [? [=]]]. }
    destruct (lexStep stB c) as [[stB' tB]|] eqn:EB; [|done].
    cbn [mbind option_bind].
    enough (Hnext : lex stB' r = None) by (by rewrite Hnext).
    pose proof (literalLetters_step _ _ _ _ HlA EA) as HlA'.
    pose proof (literalLetters_step _ _ _ _ HlB EB) as HlB'.
    apply (IH stA' stB' HlA' HlB'); [|done].
    destruct (decide (c = 34)) as [->|H34].
    { destruct Hrel as [[[acc ->] HB]|[HAo [acc ->]]].
      - right. cbn in EA. simplify_eq. split; [done|].
        by eapply lexStep_quote.
      - left. cbn in EB. simplify_eq. split; [|done].
        by eapply lexStep_quote. }
    destruct (decide (c = 92)) as [->|H92].
    { destruct Hrel as [[[acc ->] HB]|[HAo [acc ->]]].
      - by rewrite lexStep_backslash in EB.
      - by rewrite lexStep_backslash in EA. }
    destruct Hrel as [[[acc ->] HB]|[HAo [acc ->]]].
    + left. split; [by eapply lexStep_inside | by eapply lexStep_outside].
    + right. split; [by eapply lexStep_outside | by eapply lexStep_inside].
Qed.

(** What follows the text [data: ] inside a text that can be read is no
    text that can be read. *)
Lemma lex_after_data (before rest : JSString) :
  is_Some (lex LReady (before ++ lit "data: " ++ rest)) ->
  lex LReady rest = None.
Proof.
  rewrite app_assoc, lex_app, lexRun_app.
  destruct (lexRun LReady before) as [[st1 t1]|] eqn:H1;
    [|by intros [? [=]]].
  cbn [mbind option_bind].
  destruct (lexRun st1 (lit "data: ")) as [[st2 t2]|] eqn:H2;
    [|by intros [? [=]]].
  cbn [mbind option_bind]. intros HA.
  assert (HA' : is_Some (lex st2 rest)).
  { destruct (lex st2 rest); [eauto | by destruct HA as [? [=]]]. }
  pose proof (literalLetters_run before LReady st1 t1 I H1) as Hl1.
  destruct (lexRun_data _ _ _ Hl1 H2) as [acc ->].
  apply (lex_flip rest (LString acc) LReady); [done|done| |done].
  left. split; [eauto | done].
Qed.

Lemma JSON_parse_after_data (before rest : JSString) (v : JSValue) :
  JSON_parse (before ++ lit "data: " ++ rest) = Some v ->
  JSON_parse rest = None.
Proof.
  unfold JSON_parse. intros H.
  rewrite (lex_after_data before rest); [done|].
  destruct (lex LReady _); [eauto | done].
Qed.

(** The second part of an event line cut in two hands nothing to the
    updater either: it lacks the prefix, or what follows the prefix starts
    inside a string of the payload. *)
Lemma silent_second_part (a b payload : JSString) (v : JSValue) :
  a ++ b = lit "data: " ++ payload ->
  a <> [] ->
  JSON_parse payload = Some v ->
  silent b.
Proof.
  intros Hcut Ha Hparse.
  destruct (startsWith b (lit "data: ")) eqn:Hs; [|by apply silent_no_prefix].
  unfold startsWith in Hs. apply bool_decide_eq_true_1 in Hs.
  change (length (lit "data: ")) with 6%nat in Hs.
  assert (Hb : b = lit "data: " ++ drop 6 b).
  { by rewrite <- Hs, take_drop. }
  destruct (decide (length a < 6)%nat) as [Hshort|Hlong].
  - exfalso. rewrite Hb in Hcut.
    change (lit "data: ") with [100; 97; 116; 97; 58; 32] in Hcut.
    destruct a as [|a0 [|a1 [|a2 [|a3 [|a4 [|a5 a6]]]]]];
      cbn in Hshort; try lia; try done; by simplify_eq.
  - assert (Ha6 : a = lit "data: " ++ drop 6 a).
    { rewrite <- (take_drop 6 a) at 1. f_equal.
      apply (f_equal (take 6)) in Hcut.
      rewrite take_app_le in Hcut by lia. exact Hcut. }
    apply (f_equal (drop 6)) in Hcut.
    rewrite drop_app_le in Hcut by lia.
    change (drop 6 (lit "data: " ++ payload)) with payload in Hcut.
    rewrite Hb. apply silent_malformed.
    apply (JSON_parse_after_data (drop 6 a) _ v).
    by rewrite <- Hb, Hcut.
Qed.

(** White space after a line changes nothing in what it hands over. *)
Lemma lineText_trailing (line : JSString) (c : Z) :
  isJSONWhiteSpace c = true -> lineText (line ++ [c]) = lineText line.
Proof.
  intros Hc. unfold lineText, startsWith.
  change (length (lit "data: ")) with 6%nat.
  destruct (decide (length line < 6)%nat) as [Hshort|Hlong].
  - rewrite (bool_decide_eq_false_2 (take 6 line = lit "data: ")).
    2: { intros E. apply (f_equal length) in E. rewrite length_take in E.
         change (length (lit "data: ")) with 6%nat in E. lia. }
    case_bool_decide as E; [|done]. cbn zeta.
    assert (Hlen : length (line ++ [c]) = 6%nat).
    { apply (f_equal length) in E. rewrite length_take in E.
      change (length (lit "data: ")) with 6%nat in E.
      rewrite length_app in *. cbn [length] in *. lia. }
    unfold slice. rewrite drop_ge by lia. by vm_compute.
  - rewrite take_app_le by lia.
    case_bool_decide; [|done]. cbn zeta.
    unfold slice. rewrite drop_app_le by lia.
    unfold strictEquals.
    rewrite (bool_decide_eq_false_2 (drop 6 line ++ [c] = lit "[DONE]")).
    2: { intros E. apply (f_equal reverse) in E. rewrite reverse_app in E.
         vm_compute in E. injection E as -> _. done. }
    rewrite JSON_parse_trailing by done.
    case_bool_decide as Hdone; [|done].
    rewrite Hdone. by vm_compute.
Qed.

Lemma lineText_trailing_all (line b : JSString) :
  Forall (fun c => isJSONWhiteSpace c = true) b ->
  lineText (line ++ b) = lineText line.
Proof.
  revert line. induction b as [|c b IH]; intros line Hb.
  - by rewrite app_nil_r.
  - apply Forall_cons in Hb as [Hc Hb].
    change (c :: b) with ([c] ++ b). rewrite app_assoc, IH by done.
    by apply lineText_trailing.
Qed.

(** C10, amended. The line of an event (the prefix [data: ] and a payload
    that parses to an object) is cut in two between two chunk reads, after
    its first code unit or later. If the cut leaves more than JSON white
    space for the second chunk, the event is lost: the stream loop leaves
    the transcript exactly as the same stream without that line does (the
    first part fails the prefix or the JSON check, and the second part lacks
    the prefix or fails the JSON check). If it leaves JSON white space only,
    the event is kept: the transcript is the one the uncut stream gives.
    (The loop keeps no partial line from one chunk to the next.) *)
Theorem split_line_dropped
    (before after : list JSString) (A a b B payload : JSString)
    (members : list (JSString * JSValue)) (prev : list ChatMessage) :
  a ++ b = lit "data: " ++ payload ->
  JSON_parse payload = Some (JObject members) ->
  10 ∉ a ++ b ->
  a <> [] ->
  (A = [] \/ exists A', A = A' ++ [10]) ->
  ((exists c, c ∈ b /\ isJSONWhiteSpace c = false) ->
   reduce (before ++ [A ++ a; b ++ [10] ++ B] ++ after) prev =
   reduce (before ++ [A; B] ++ after) prev) /\
  (Forall (fun c => isJSONWhiteSpace c = true) b ->
   reduce (before ++ [A ++ a; b ++ [10] ++ B] ++ after) prev =
   reduce (before ++ [A ++ a ++ b ++ [10]; B] ++ after) prev).
Proof.
  intros Hcut Hparse Hnl Hane HA.
  apply not_elem_of_app in Hnl as [Ha_nl Hb_nl].
  pose proof (silent_second_part _ _ _ _ Hcut Hane Hparse) as Hb_silent.
  assert (E2 : forall p,
    processLines (split 10 (b ++ [10] ++ B)) p = processLines (split 10 B) p).
  { intros p. cbn [app]. rewrite (split_line _ _ _ Hb_nl), processLines_cons.
    by rewrite processLine_silent. }
  split.
  - intros Hb.
    pose proof (silent_first_part _ _ _ _ Hcut Hparse Hb) as Ha.
    assert (E1 : forall p,
      processLines (split 10 (A ++ a)) p = processLines (split 10 A) p).
    { intros p. destruct HA as [->|[A' ->]].
      - cbn [app]. rewrite (split_no_sep _ _ Ha_nl). cbn.
        by rewrite !processLine_silent.
      - rewrite <- !app_assoc. cbn [app].
        rewrite !(split_app 10 A'), !processLines_app.
        rewrite (split_no_sep _ _ Ha_nl). cbn.
        by rewrite !processLine_silent. }
    rewrite !reduce_app. cbn [app]. rewrite !reduce_cons.
    by rewrite E1, E2.
  - intros Hws.
    pose proof (lineText_trailing_all a b Hws) as Hsame.
    assert (Hab_nl : 10 ∉ a ++ b) by (by apply not_elem_of_app).
    assert (E0 : forall p,
      processLines (split 10 a) p = processLines (split 10 (a ++ b ++ [10])) p).
    { intros p. rewrite (split_no_sep _ _ Ha_nl).
      rewrite (app_assoc a b [10]), (split_line _ _ _ Hab_nl).
      cbn. by rewrite !processLine_lineText, Hsame. }
    assert (E1 : forall p,
      processLines (split 10 (A ++ a)) p =
      processLines (split 10 (A ++ a ++ b ++ [10])) p).
    { intros p. destruct HA as [->|[A' ->]].
      - cbn [app]. apply E0.
      - rewrite <- !app_assoc. cbn [app].
        rewrite !(split_app 10 A'), !processLines_app. apply E0. }
    rewrite !reduce_app. cbn [app]. rewrite !reduce_cons.
    by rewrite E1, E2.
Qed.

Lemma split_line_dropped_witness :
  reduce ([] ++ [[] ++ take 40 line_Hi; drop 40 line_Hi ++ [10]
                 ++ (line_there ++ [10])] ++ [line_DONE ++ [10]])
    [mkChatMessage user (lit "Hello"); mkChatMessage assistant []] =
  reduce ([] ++ [[]; line_there ++ [10]] ++ [line_DONE ++ [10]])
    [mkChatMessage user (lit "Hello"); mkChatMessage assistant []] /\
  reduce ([] ++ [[] ++ line_Hi; lit " " ++ [10] ++ (line_there ++ [10])]
          ++ [line_DONE ++ [10]])
    [mkChatMessage user (lit "Hello"); mkChatMessage assistant []] =
  reduce ([] ++ [[] ++ line_Hi ++ lit " " ++ [10]; line_there ++ [10]]
          ++ [line_DONE ++ [10]])
    [mkChatMessage user (lit "Hello"); mkChatMessage assistant []].
Proof.
  split.
  - apply (split_line_dropped [] [line_DONE ++ [10]] [] (take 40 line_Hi)
             (drop 40 line_Hi) (line_there ++ [10]) (drop 6 line_Hi)
             [(lit "type", JString (lit "content-delta"));
              (lit "delta",
               JObject
                 [(lit "message",
                   JObject
                     [(lit "content",
                       JObject [(lit "text", JString (lit "Hi"))])])])]).
    + by vm_compute.
    + by vm_compute.
    + apply (bool_decide_unpack _). by vm_compute.
    + by vm_compute.
    + by left.
    + exists 125. split; [|done]. apply (bool_decide_unpack _). by vm_compute.
  - apply (split_line_dropped [] [line_DONE ++ [10]] [] line_Hi
             (lit " ") (line_there ++ [10]) (drop 6 line_Hi ++ lit " ")
             [(lit "type", JString (lit "content-delta"));
              (lit "delta",
               JObject
                 [(lit "message",
                   JObject
                     [(lit "content",
                       JObject [(lit "text", JString (lit "Hi"))])])])]).
    + by vm_compute.
    + by vm_compute.
    + apply (bool_decide_unpack _). by vm_compute.
    + by vm_compute.
    + by left.
    + by repeat constructor.
Defined.

(** *** Further properties of the chat flow *)

Lemma replaceWithError_user (err : Thrown) (init : list ChatMessage)
    (c : JSString) :
  replaceWithError err (init ++ [mkChatMessage user c]) =
  init ++ [mkChatMessage user c].
Proof. unfold replaceWithError. by rewrite at_last. Qed.

Lemma transcript_end (l : list ChatMessage) :
  l = [] \/
  (exists init c, l = init ++ [mkChatMessage user c]) \/
  (exists init c, l = init ++ [mkChatMessage assistant c]).
Proof.
  destruct l as [|m l'] using rev_ind; [by left|].
  destruct m as [[|] c]; right; [left | right]; eauto.
Qed.

Lemma lastOnly_id : lastOnly (fun l => l).
Proof. intros l. by left. Qed.

Lemma lastOnly_appendText (text : JSValue) : lastOnly (appendText text).
Proof.
  intros l. destruct (transcript_end l) as [->|[(init & c & ->)|(init & c & ->)]].
  - by left.
  - left. apply appendText_user.
  - right. exists init, c, (c ++ default [] (ToString text)).
    by rewrite appendText_assistant.
Qed.

Lemma lastOnly_replaceWithError (err : Thrown) :
  lastOnly (replaceWithError err).
Proof.
  intros l. destruct (transcript_end l) as [->|[(init & c & ->)|(init & c & ->)]].
  - by left.
  - left. apply replaceWithError_user.
  - right. exists init, c, (lit "Error: " ++ errorMessage err).
    by rewrite replaceWithError_assistant.
Qed.

Lemma lastOnly_compose (f g : list ChatMessage -> list ChatMessage) :
  lastOnly f -> lastOnly g -> lastOnly (fun l => g (f l)).
Proof.
  intros Hf Hg l.
  destruct (Hf l) as [->|(init & c & c' & -> & ->)]; [apply Hg|].
  destruct (Hg (init ++ [mkChatMessage assistant c']))
    as [->|(init2 & c2 & c2' & E & ->)].
  - right. by exists init, c, c'.
  - apply app_inj_tail in E as [-> _]. right. by exists init2, c, c2'.
Qed.

Lemma lastOnly_processLine (line : JSString) : lastOnly (processLine line).
Proof.
  intros l. rewrite processLine_lineText.
  destruct (lineText line); [apply lastOnly_appendText | by left].
Qed.

Lemma lastOnly_processLines (lines : list JSString) :
  lastOnly (processLines lines).
Proof.
  induction lines as [|line lines IH]; [apply lastOnly_id|].
  apply (lastOnly_compose (processLine line) (processLines lines));
    [apply lastOnly_processLine | exact IH].
Qed.

Lemma lastOnly_processChunk (chunk : JSString) : lastOnly (processChunk chunk).
Proof. apply lastOnly_processLines. Qed.

Lemma lastOnly_reduce (chunks : list JSString) : lastOnly (reduce chunks).
Proof.
  induction chunks as [|chunk chunks IH]; [apply lastOnly_id|].
  apply (lastOnly_compose (processChunk chunk) (reduce chunks));
    [apply lastOnly_processChunk | exact IH].
Qed.

Lemma lastOnly_roles (f : list ChatMessage -> list ChatMessage)
    (l : list ChatMessage) :
  lastOnly f -> role <$> f l = role <$> l.
Proof.
  intros Hf. destruct (Hf l) as [->|(init & c & c' & -> & ->)]; [done|].
  by rewrite !fmap_app.
Qed.

(** X6. A stream never adds, removes or reorders turns and never changes a
    role: whatever the chunks, the transcript after the stream loop has the
    roles it had. A transcript that is empty or ends with a User turn comes
    out of the loop, and out of the error handler, exactly as it went in: no
    stream and no failure can alter a User turn. *)
Theorem stream_keeps_turns (chunks : list JSString) (err : Thrown)
    (l : list ChatMessage) :
  role <$> reduce chunks l = role <$> l /\
  role <$> replaceWithError err l = role <$> l /\
  ((l = [] \/ exists init c, l = init ++ [mkChatMessage user c]) ->
   reduce chunks l = l /\ replaceWithError err l = l).
Proof.
  split_and!.
  - apply lastOnly_roles, lastOnly_reduce.
  - apply lastOnly_roles, lastOnly_replaceWithError.
  - intros Hend.
    assert (Hkeep : forall f, lastOnly f -> f l = l).
    { intros f Hf. destruct (Hf l) as [E|(init & c & c' & E & _)]; [done|].
      destruct Hend as [->|(init' & c0 & ->)].
      - by destruct init.
      - by apply app_inj_tail in E as [_ [=]]. }
    split; apply Hkeep;
      [apply lastOnly_reduce | apply lastOnly_replaceWithError].
Qed.

Lemma stream_keeps_turns_witness :
  reduce [line_Hi ++ [10]; line_there ++ [10]]
    ([] ++ [mkChatMessage user (lit "Hello")]) =
  [] ++ [mkChatMessage user (lit "Hello")] /\
  replaceWithError NotAnError ([] ++ [mkChatMessage user (lit "Hello")]) =
  [] ++ [mkChatMessage user (lit "Hello")].
Proof.
  apply (stream_keeps_turns [line_Hi ++ [10]; line_there ++ [10]] NotAnError).
  right. by exists [], (lit "Hello").
Defined.

(** *** What one event does to the transcript and to the requests *)

Section Events.

Variable apiKey : option JSString.

(** Every event but a submission runs an updater that touches the last
    turn alone, and sends nothing. *)
Lemma step_updater (w w' : World) (e : Event) :
  e <> Submit ->
  step apiKey w e = Some w' ->
  requests w' = requests w /\
  exists f, lastOnly f /\
            chatMessages (state w') = f (chatMessages (state w)).
Proof.
  intros He. destruct e as [value| |k f|k r]; [|done|..]; cbn [step].
  - intros [= <-]. split; [done|]. exists (fun l => l). split; [|done].
    apply lastOnly_id.
  - destruct (inflight w !! k) as [[|d]|]; try discriminate.
    unfold afterFetch, finally_, catch_, setChatLoading, setChatMessages.
    destruct f as [err|response];
      [|destruct (ok response); [destruct (hasBody response)|]];
      cbn [negb chatMessages chatInput chatLoading];
      intros [= <-]; (split; [done|]); cbn [state chatMessages];
      (by exists (fun l => l); split; [apply lastOnly_id|])
      || (eexists; split; [apply lastOnly_replaceWithError | done]).
  - destruct (inflight w !! k) as [[|d]|]; try discriminate.
    unfold afterRead, finally_, catch_, setChatLoading, setChatMessages.
    destruct r as [value| |err]; [destruct (decode d value) as [d' chunk]|..];
      cbn [chatMessages chatInput chatLoading];
      intros [= <-]; (split; [done|]); cbn [state chatMessages].
    + eexists; split; [apply (lastOnly_processChunk chunk) | done].
    + by exists (fun l => l); split; [apply lastOnly_id|].
    + eexists; split; [apply lastOnly_replaceWithError | done].
Qed.

(** A submission that is taken appends the two turns, runs the error
    updater if there is no key, and otherwise sends the transcript as it
    was, with the new User turn. *)
Lemma step_submit (w w' : World) :
  accepted w ->
  step apiKey w Submit = Some w' ->
  let u := mkChatMessage user (trim (chatInput (state w))) in
  (exists f, lastOnly f /\
     chatMessages (state w') =
       f (chatMessages (state w) ++ [u; mkChatMessage assistant []])) /\
  requests w' =
    requests w
    ++ (if noApiKey apiKey then []
        else [mkRequest (chatMessages (state w) ++ [u])]).
Proof.
  intros Hacc. cbn [step]. intros [= <-].
  rewrite (sendChatMessage_accepted _ _ Hacc). cbn zeta.
  destruct (noApiKey apiKey); cbn [state chatMessages requests]; split.
  - eexists; split; [apply lastOnly_replaceWithError | done].
  - by rewrite app_nil_r.
  - by exists (fun l => l); split; [apply lastOnly_id|].
  - done.
Qed.

Lemma sendChatMessage_changes (w : World) :
  accepted w -> sendChatMessage apiKey w <> w.
Proof.
  intros Hacc E.
  destruct (step_submit w (sendChatMessage apiKey w) Hacc eq_refl)
    as [(f & Hf & Hmsgs) _].
  rewrite E in Hmsgs. apply (f_equal (fmap role)) in Hmsgs.
  rewrite (lastOnly_roles f _ Hf), fmap_app in Hmsgs.
  apply (f_equal length) in Hmsgs. rewrite length_app in Hmsgs.
  cbn in Hmsgs. lia.
Qed.

(** X7. The send button is enabled exactly when a submission is taken, and
    a submission is taken exactly when it changes something: clicking an
    enabled button always has an effect, and the guard of the handler
    rejects precisely what the button would not let through. *)
Theorem send_button_matches_guard (w : World) :
  (sendButtonDisabled (state w) = false <-> accepted w) /\
  (accepted w <-> sendChatMessage apiKey w <> w).
Proof.
  split.
  - unfold sendButtonDisabled, accepted.
    destruct (chatLoading (state w)); cbn [orb].
    + split; [done | by intros [_ [=]]].
    + rewrite bool_decide_eq_false. tauto.
  - split; [apply sendChatMessage_changes|].
    intros Hne. destruct (decide (accepted w)) as [|Hrej]; [done|].
    by destruct Hne; apply sendChatMessage_rejected.
Qed.

(** X8. A key press submits only if it is Enter without Shift: then, and
    only then, the default action is prevented, and the world becomes what
    [sendChatMessage] makes of it. Any other key, and Shift+Enter, leave
    the world as it is; so does Enter on a blank input or while an exchange
    is loading, although the default action is prevented all the same. *)
Theorem handleKeyDown_effect (e : KeyboardEvent.t) (w : World) :
  let enter :=
    KeyboardEvent.key e = lit "Enter" /\ KeyboardEvent.shiftKey e = false in
  ((handleKeyDown apiKey e w).1 = true <-> enter) /\
  (enter -> (handleKeyDown apiKey e w).2 = sendChatMessage apiKey w) /\
  ((handleKeyDown apiKey e w).2 <> w <-> enter /\ accepted w).
Proof.
  cbn zeta. unfold handleKeyDown, strictEquals.
  destruct (KeyboardEvent.shiftKey e) eqn:Hs; case_bool_decide as Hk;
    cbn [andb negb fst snd].
  3: { split_and!; [tauto | done |]. split.
       - intros Hne. split; [done|].
         destruct (decide (accepted w)) as [|Hrej]; [done|].
         by destruct Hne; apply sendChatMessage_rejected.
       - intros [_ Hacc]. by apply sendChatMessage_changes. }
  all: split_and!;
    [ split; [done | intros [? ?]; congruence]
    | intros [? ?]; congruence
    | split; [done | intros [[? ?] _]; congruence] ].
Qed.

End Events.

(** *** Invariants of the transcript and of the requests *)

Lemma trimStart_suffix (s : JSString) : exists p, s = p ++ trimStart s.
Proof.
  induction s as [|c s [p IH]]; [by exists []|]. cbn.
  destruct (isWhiteSpace c); [|by exists []].
  exists (c :: p). cbn. by rewrite <- IH.
Qed.

Lemma trimStart_head (s : JSString) (c : Z) (r : JSString) :
  trimStart s = c :: r -> isWhiteSpace c = false.
Proof.
  induction s as [|x s IH]; [done|]. cbn.
  destruct (isWhiteSpace x) eqn:Hx; [done|]. by intros [= <- _].
Qed.

Lemma trimStart_fixed (c : Z) (r : JSString) :
  isWhiteSpace c = false -> trimStart (c :: r) = c :: r.
Proof. intros H. cbn. by rewrite H. Qed.

Lemma trim_idempotent (s : JSString) : trim (trim s) = trim s.
Proof.
  unfold trim.
  destruct (trimStart (reverse (trimStart s))) as [|c u] eqn:Hu; [done|].
  pose proof (trimStart_head _ _ _ Hu) as Hc.
  destruct (trimStart_suffix (reverse (trimStart s))) as [p Hp].
  rewrite Hu in Hp. apply (f_equal reverse) in Hp.
  rewrite reverse_involutive, reverse_app in Hp.
  assert (Hfix : trimStart (reverse (c :: u)) = reverse (c :: u)).
  { destruct (reverse (c :: u)) as [|x v] eqn:Hr.
    - apply (f_equal length) in Hr. rewrite length_reverse in Hr. done.
    - apply trimStart_fixed. cbn in Hp. by eapply trimStart_head. }
  by rewrite Hfix, reverse_involutive, (trimStart_fixed _ _ Hc).
Qed.

Lemma replicate_pairs (n : nat) :
  mjoin (replicate n [user; assistant]) ++ [user; assistant] =
  mjoin (replicate (S n) [user; assistant]).
Proof.
  change (mjoin (replicate (S n) [user; assistant]))
    with ([user; assistant] ++ mjoin (replicate n [user; assistant])).
  induction n as [|n IH]; [done|].
  change (mjoin (replicate (S n) [user; assistant]))
    with ([user; assistant] ++ mjoin (replicate n [user; assistant])).
  by rewrite <- app_assoc, IH.
Qed.

Lemma length_pairs (n : nat) :
  length (mjoin (replicate n [user; assistant])) = (2 * n)%nat.
Proof.
  induction n as [|n IH]; [done|].
  change (mjoin (replicate (S n) [user; assistant]))
    with ([user; assistant] ++ mjoin (replicate n [user; assistant])).
  rewrite length_app, IH. cbn [length]. lia.
Qed.

Lemma lastOnly_prefix (f : list ChatMessage -> list ChatMessage)
    (sent rest : list ChatMessage) :
  lastOnly f -> rest <> [] ->
  exists rest', rest' <> [] /\ f (sent ++ rest) = sent ++ rest'.
Proof.
  intros Hf Hrest.
  destruct (Hf (sent ++ rest)) as [->|(init & c & c' & E & ->)]; [eauto|].
  destruct rest as [|m rest0 _] using rev_ind; [done|].
  rewrite app_assoc in E. apply app_inj_tail in E as [<- _].
  exists (rest0 ++ [mkChatMessage assistant c']).
  split; [by destruct rest0|]. by rewrite app_assoc.
Qed.

Lemma lastOnly_Forall (Q : ChatMessage -> Prop)
    (f : list ChatMessage -> list ChatMessage) (l : list ChatMessage) :
  (forall c, Q (mkChatMessage assistant c)) ->
  lastOnly f -> Forall Q l -> Forall Q (f l).
Proof.
  intros HQ Hf Hl.
  destruct (Hf l) as [->|(init & c & c' & -> & ->)]; [done|].
  apply Forall_app in Hl as [Hinit _].
  apply Forall_app. split; [done|]. by constructor.
Qed.

Lemma submit_or_not (e : Event) : e = Submit \/ e <> Submit.
Proof. destruct e; (by left) || (by right). Qed.

Section Reachable.

Variable apiKey : option JSString.

(** Induction over the events that lead to a world. *)
Lemma reachable_ind (P : World -> Prop) :
  P initialWorld ->
  (forall w w' e, P w -> step apiKey w e = Some w' -> P w') ->
  forall events w, run apiKey initialWorld events = Some w -> P w.
Proof.
  intros H0 Hstep.
  assert (Hgen : forall events w w',
            P w -> run apiKey w events = Some w' -> P w').
  { induction events as [|e events IH]; intros w w' Hw; cbn [run].
    - by intros [= <-].
    - destruct (step apiKey w e) as [w1|] eqn:He; [|done]. cbn.
      apply IH. by eapply Hstep. }
  intros events w. by apply Hgen.
Qed.

(** X9. In every world the popup reaches, the transcript is a sequence of
    pairs, a User turn followed by an Assistant turn; with an API key the
    popup has sent exactly one request per pair, and without one it has
    sent none. *)
Theorem turns_come_in_pairs (events : list Event) (w : World) :
  run apiKey initialWorld events = Some w ->
  exists n : nat,
    role <$> chatMessages (state w) = mjoin (replicate n [user; assistant]) /\
    length (chatMessages (state w)) = (2 * n)%nat /\
    (noApiKey apiKey = false -> length (requests w) = n) /\
    (noApiKey apiKey = true -> requests w = []).
Proof.
  revert events w.
  apply (reachable_ind (fun w =>
    exists n : nat,
      role <$> chatMessages (state w) = mjoin (replicate n [user; assistant]) /\
      length (chatMessages (state w)) = (2 * n)%nat /\
      (noApiKey apiKey = false -> length (requests w) = n) /\
      (noApiKey apiKey = true -> requests w = []))).
  - by exists 0%nat.
  - intros w w' e (n & Hroles & Hlen & Hkey & Hnokey) Hstep.
    destruct (submit_or_not e) as [->|He].
    + destruct (decide (accepted w)) as [Hacc|Hrej].
      * destruct (step_submit apiKey w w' Hacc Hstep)
          as [(f & Hf & Hmsgs) Hreq].
        exists (S n).
        assert (Hr : role <$> chatMessages (state w') =
                     mjoin (replicate (S n) [user; assistant])).
        { rewrite Hmsgs, (lastOnly_roles f _ Hf), fmap_app, Hroles.
          apply replicate_pairs. }
        split_and!; [done| | |].
        -- apply (f_equal length) in Hr. rewrite length_fmap in Hr.
           by rewrite Hr, length_pairs.
        -- intros Hk. rewrite Hreq, Hk, length_app, (Hkey Hk). cbn. lia.
        -- intros Hk. rewrite Hreq, Hk, app_nil_r. by apply Hnokey.
      * cbn [step] in Hstep. rewrite (sendChatMessage_rejected _ _ Hrej) in Hstep.
        injection Hstep as <-. by exists n.
    + destruct (step_updater apiKey w w' e He Hstep) as [Hreq (f & Hf & Hmsgs)].
      exists n. rewrite Hreq, Hmsgs, (lastOnly_roles f _ Hf).
      split_and!; try done.
      rewrite <- Hlen, <- !(length_fmap role), (lastOnly_roles f _ Hf). done.
Qed.


(** X10. Whatever was sent stays on screen: in every world the popup
    reaches, the messages of each request sent so far are the first turns
    of the transcript as it is now, they end with a User turn, and the
    transcript goes on after them. The history the API was given is never
    rewritten afterwards, and the Assistant turn being streamed is never
    part of a request. *)
Theorem requests_are_transcript_prefixes
    (events : list Event) (w : World) (r : Request) :
  run apiKey initialWorld events = Some w ->
  r ∈ requests w ->
  (exists rest, rest <> [] /\
                chatMessages (state w) = messages r ++ rest) /\
  (exists history c, messages r = history ++ [mkChatMessage user c]).
Proof.
  revert events w.
  apply (reachable_ind (fun w =>
    r ∈ requests w ->
    (exists rest, rest <> [] /\
                  chatMessages (state w) = messages r ++ rest) /\
    (exists history c, messages r = history ++ [mkChatMessage user c]))).
  - intros Hr. by apply elem_of_nil in Hr.
  - intros w w' e IH Hstep Hr.
    destruct (submit_or_not e) as [->|He].
    + destruct (decide (accepted w)) as [Hacc|Hrej].
      * destruct (step_submit apiKey w w' Hacc Hstep)
          as [(f & Hf & Hmsgs) Hreq].
        cbn zeta in Hmsgs, Hreq. rewrite Hreq in Hr.
        apply elem_of_app in Hr as [Hold|Hnew].
        -- destruct (IH Hold) as [(rest & Hrest & Hpre) Huser].
           split; [|done]. rewrite Hmsgs, Hpre, <- app_assoc.
           apply lastOnly_prefix; [done | by destruct rest].
        -- destruct (noApiKey apiKey); [by apply elem_of_nil in Hnew|].
           apply list_elem_of_singleton in Hnew as ->. cbn [messages].
           split; [|eauto]. rewrite Hmsgs.
           change [mkChatMessage user (trim (chatInput (state w)));
                   mkChatMessage assistant []]
             with ([mkChatMessage user (trim (chatInput (state w)))]
                   ++ [mkChatMessage assistant []]).
           rewrite app_assoc. by apply lastOnly_prefix.
      * cbn [step] in Hstep.
        rewrite (sendChatMessage_rejected _ _ Hrej) in Hstep.
        injection Hstep as <-. by apply IH.
    + destruct (step_updater apiKey w w' e He Hstep) as [Hreq (f & Hf & Hmsgs)].
      rewrite Hreq in Hr.
      destruct (IH Hr) as [(rest & Hrest & Hpre) Huser].
      split; [|done]. rewrite Hmsgs, Hpre. by apply lastOnly_prefix.
Qed.

(** X11. Every User turn of the transcript holds a text that is not empty
    and has no white space at either end: the popup stores what the user
    typed trimmed, never stores a blank message, and nothing alters a User
    turn later. *)
Theorem user_turns_are_trimmed (events : list Event) (w : World) :
  run apiKey initialWorld events = Some w ->
  Forall (fun m => role m = user -> trimmed (content m))
    (chatMessages (state w)).
Proof.
  revert events w.
  apply (reachable_ind (fun w =>
    Forall (fun m => role m = user -> trimmed (content m))
      (chatMessages (state w)))); [by constructor|].
  intros w w' e IH Hstep.
  destruct (submit_or_not e) as [->|He].
  - destruct (decide (accepted w)) as [Hacc|Hrej].
    + destruct (step_submit apiKey w w' Hacc Hstep) as [(f & Hf & Hmsgs) _].
      rewrite Hmsgs. apply lastOnly_Forall; [done..|].
      apply Forall_app. split; [done|].
      apply Forall_cons. split; [|by apply Forall_cons].
      intros _. destruct Hacc as [Hne _]. split; [done|].
      apply trim_idempotent.
    + cbn [step] in Hstep.
      rewrite (sendChatMessage_rejected _ _ Hrej) in Hstep.
      by injection Hstep as <-.
  - destruct (step_updater apiKey w w' e He Hstep) as [_ (f & Hf & Hmsgs)].
    rewrite Hmsgs. by apply lastOnly_Forall.
Qed.

(** X12. While the stream is read the answer only grows. When a chunk
    arrives for the suspended call and the text of each of its lines has a
    string form, the call goes on reading, and the transcript is as it was
    but for the content of the last Assistant turn, which keeps all it had
    and gets the fragments of the chunk's lines at its end. The end of the
    stream changes nothing in the transcript, lowers the loading flag and
    leaves no call suspended. *)
Theorem reading_only_appends (events : list Event) (w : World) (k : nat)
    (d : TextDecoder) :
  run apiKey initialWorld events = Some w ->
  inflight w !! k = Some (AwaitRead d) ->
  (forall value,
     Forall (fun line => coerces line = true)
       (split 10 (decode d value).2) ->
     exists (init : list ChatMessage) (c : JSString) (w' : World),
       step apiKey w (ReadSettles k (ReadValue value)) = Some w' /\
       chatMessages (state w) = init ++ [mkChatMessage assistant c] /\
       chatMessages (state w') =
         init ++ [mkChatMessage assistant
                    (c ++ mjoin (lineFragment
                                   <$> split 10 (decode d value).2))] /\
       chatLoading (state w') = true /\
       inflight w' = [AwaitRead (decode d value).1]) /\
  (exists w' : World,
     step apiKey w (ReadSettles k ReadDone) = Some w' /\
     chatMessages (state w') = chatMessages (state w) /\
     chatLoading (state w') = false /\
     inflight w' = [] /\
     requests w' = requests w).
Proof.
  intros Hrun Hk. pose proof (Inv_reachable _ _ _ Hrun) as HI.
  destruct HI as [[Hin _]|(p & init & c & Hin & Hload & Hmsgs)].
  { rewrite Hin in Hk. discriminate. }
  rewrite Hin in Hk. destruct k; [|discriminate]. injection Hk as ->.
  split.
  - intros value _. cbn [step]. rewrite Hin.
    change ([AwaitRead d] !! 0%nat) with (Some (AwaitRead d)).
    cbn [afterRead]. destruct (decode d value) as [d' chunk] eqn:Hdec.
    exists init, c. eexists. split; [reflexivity|].
    unfold setChatMessages.
    cbn [state chatMessages chatLoading inflight snd fst].
    rewrite Hmsgs, processChunk_assistant. by split_and!.
  - cbn [step]. rewrite Hin.
    change ([AwaitRead d] !! 0%nat) with (Some (AwaitRead d)).
    cbn [afterRead]. eexists. split; [reflexivity|]. by split_and!.
Qed.

End Reachable.

Lemma requests_are_transcript_prefixes_witness :
  (exists rest, rest <> [] /\
     [mkChatMessage user (lit "Hello"); mkChatMessage assistant (lit "Hi")] =
     messages (mkRequest [mkChatMessage user (lit "Hello")]) ++ rest) /\
  (exists history c,
     messages (mkRequest [mkChatMessage user (lit "Hello")]) =
     history ++ [mkChatMessage user c]).
Proof.
  apply (requests_are_transcript_prefixes key
           [Input (lit " Hello "); Submit;
            FetchSettles 0 (Resolved (mkResponse 200 true));
            ReadSettles 0 (ReadValue (line_Hi ++ [10]))]
           (mkWorld
              (mkState [mkChatMessage user (lit "Hello");
                        mkChatMessage assistant (lit "Hi")] [] true)
              [AwaitRead (mkTextDecoder 0 0 0 128 191 true)]
              [mkRequest [mkChatMessage user (lit "Hello")]])).
  - by vm_compute.
  - left.
Defined.

Lemma user_turns_are_trimmed_witness :
  Forall (fun m => role m = user -> trimmed (content m))
    [mkChatMessage user (lit "Hello"); mkChatMessage assistant []].
Proof.
  apply (user_turns_are_trimmed key [Input (lit " Hello "); Submit]
           (mkWorld
              (mkState [mkChatMessage user (lit "Hello");
                        mkChatMessage assistant []] [] true)
              [AwaitFetch] [mkRequest [mkChatMessage user (lit "Hello")]])).
  by vm_compute.
Defined.

Lemma reading_only_appends_witness :
  (exists (init : list ChatMessage) (c : JSString) (w' : World),
     step key
       (mkWorld
          (mkState
             [mkChatMessage user (lit "Hello"); mkChatMessage assistant []]
             [] true)
          [AwaitRead newTextDecoder]
          [mkRequest [mkChatMessage user (lit "Hello")]])
       (ReadSettles 0 (ReadValue (line_Hi ++ [10] ++ line_there ++ [10]))) =
     Some w' /\
     [mkChatMessage user (lit "Hello"); mkChatMessage assistant []] =
     init ++ [mkChatMessage assistant c] /\
     chatMessages (state w') =
       init ++ [mkChatMessage assistant
                  (c ++ mjoin (lineFragment
                                 <$> split 10
                                       (decode newTextDecoder
                                          (line_Hi ++ [10] ++ line_there
                                           ++ [10])).2))] /\
     chatLoading (state w') = true /\
     inflight w' =
       [AwaitRead
          (decode newTextDecoder (line_Hi ++ [10] ++ line_there ++ [10])).1]) /\
  (exists w' : World,
     step key
       (mkWorld
          (mkState
             [mkChatMessage user (lit "Hello"); mkChatMessage assistant []]
             [] true)
          [AwaitRead newTextDecoder]
          [mkRequest [mkChatMessage user (lit "Hello")]])
       (ReadSettles 0 ReadDone) = Some w' /\
     chatMessages (state w') =
       [mkChatMessage user (lit "Hello"); mkChatMessage assistant []] /\
     chatLoading (state w') = false /\
     inflight w' = [] /\
     requests w' = [mkRequest [mkChatMessage user (lit "Hello")]]).
Proof.
  pose proof
    (reading_only_appends key
       [Input (lit " Hello "); Submit;
        FetchSettles 0 (Resolved (mkResponse 200 true))]
       (mkWorld
          (mkState [mkChatMessage user (lit "Hello");
                    mkChatMessage assistant []] [] true)
          [AwaitRead newTextDecoder]
          [mkRequest [mkChatMessage user (lit "Hello")]])
       0 newTextDecoder ltac:(by vm_compute) eq_refl) as [Hchunk Hend].
  split; [|exact Hend].
  apply (Hchunk (line_Hi ++ [10] ++ line_there ++ [10])).
  apply (bool_decide_unpack _). by vm_compute.
Defined.
Lemma turns_come_in_pairs_witness :
  exists n : nat,
    role <$> [mkChatMessage user (lit "Hello"); mkChatMessage assistant []] =
      mjoin (replicate n [user; assistant]) /\
    length [mkChatMessage user (lit "Hello"); mkChatMessage assistant []] =
      (2 * n)%nat /\
    (noApiKey key = false ->
     length [mkRequest [mkChatMessage user (lit "Hello")]] = n) /\
    (noApiKey key = true -> [mkRequest [mkChatMessage user (lit "Hello")]] = []).
Proof.
  apply (turns_come_in_pairs key
           [Input (lit " Hello "); Submit; Input (lit "again"); Submit]
           (mkWorld
              (mkState [mkChatMessage user (lit "Hello");
                        mkChatMessage assistant []] (lit "again") true)
              [AwaitFetch] [mkRequest [mkChatMessage user (lit "Hello")]])).
  by vm_compute.
Defined.

(** *** Carriage returns *)

Lemma lineText_CR (line : JSString) : lineText (line ++ [13]) = lineText line.
Proof.
  unfold lineText, startsWith.
  change (length (lit "data: ")) with 6%nat.
  destruct (decide (length line < 6)%nat) as [Hshort|Hlong].
  - rewrite !bool_decide_eq_false_2; [done| |].
    + intros E. apply (f_equal length) in E. rewrite length_take in E.
      change (length (lit "data: ")) with 6%nat in E. lia.
    + intros E.
      rewrite take_ge in E by (rewrite length_app; cbn [length]; lia).
      assert (H13 : 13 ∈ lit "data: ")
        by (rewrite <- E; apply elem_of_app; right; left).
      revert H13. apply (bool_decide_unpack _). by vm_compute.
  - rewrite take_app_le by lia.
    case_bool_decide; [|done]. cbn zeta.
    unfold slice. rewrite drop_app_le by lia.
    unfold strictEquals.
    rewrite (bool_decide_eq_false_2 (drop 6 line ++ [13] = lit "[DONE]")).
    2: { intros E. apply (f_equal reverse) in E. rewrite reverse_app in E.
         by vm_compute in E. }
    rewrite JSON_parse_trailing by done.
    case_bool_decide as Hdone; [|done].
    rewrite Hdone. by vm_compute.
Qed.

Lemma unlinesCRLF_unlines (lines : list JSString) :
  unlinesCRLF lines = unlines ((fun line => line ++ [13]) <$> lines).
Proof.
  unfold unlinesCRLF, unlines. rewrite <- list_fmap_compose.
  f_equal. apply list_fmap_ext. intros _ line _. cbn.
  by rewrite <- app_assoc.
Qed.

Lemma processLines_CR (lines : list JSString) (prev : list ChatMessage) :
  processLines ((fun line => line ++ [13]) <$> lines) prev =
  processLines lines prev.
Proof.
  revert prev. induction lines as [|line lines IH]; intros prev; [done|].
  rewrite fmap_cons, !processLines_cons, IH.
  by rewrite !processLine_lineText, lineText_CR.
Qed.

(** X14. A stream whose lines end with a carriage return and a line feed
    gives the transcript that the same lines ending with a line feed alone
    give: the carriage return left at the end of each line by the split on
    line feeds is harmless, after a payload as after the sentinel. *)
Theorem carriage_returns_are_harmless
    (groups : list (list JSString)) (prev : list ChatMessage) :
  Forall (Forall (fun line => 10 ∉ line)) groups ->
  reduce (unlinesCRLF <$> groups) prev = reduce (unlines <$> groups) prev.
Proof.
  intros Hlines.
  assert (Hcr : Forall (Forall (fun line => 10 ∉ line))
                  ((fun g : list JSString => (fun line => line ++ [13]) <$> g)
                   <$> groups)).
  { apply Forall_fmap. eapply Forall_impl; [exact Hlines|].
    intros g Hg. apply Forall_fmap. eapply Forall_impl; [exact Hg|].
    intros line Hline. cbn. rewrite not_elem_of_app. split; [done|].
    by apply (bool_decide_unpack _). }
  rewrite (reduce_whole_lines _ _ Hlines).
  replace (unlinesCRLF <$> groups)
    with (unlines <$> ((fun g : list JSString => (fun line => line ++ [13]) <$> g)
                   <$> groups)).
  2: { rewrite <- list_fmap_compose. apply list_fmap_ext.
       intros _ g _. cbn. by rewrite unlinesCRLF_unlines. }
  rewrite (reduce_whole_lines _ _ Hcr).
  clear. revert prev. induction groups as [|g groups IH]; intros prev; [done|].
  rewrite fmap_cons.
  change (mjoin (?x :: ?xs)) with (x ++ mjoin xs).
  by rewrite !processLines_app, processLines_CR, IH.
Qed.

Lemma carriage_returns_are_harmless_witness :
  reduce (unlinesCRLF <$> [[line_Hi; line_there]; [line_DONE]])
    [mkChatMessage user (lit "Hello"); mkChatMessage assistant []] =
  reduce (unlines <$> [[line_Hi; line_there]; [line_DONE]])
    [mkChatMessage user (lit "Hello"); mkChatMessage assistant []].
Proof.
  apply (carriage_returns_are_harmless [[line_Hi; line_there]; [line_DONE]]).
  repeat constructor; apply (bool_decide_unpack _); by vm_compute.
Defined.

(** *** A whole exchange *)

Lemma run_app (apiKey : option JSString) (e1 e2 : list Event) :
  forall w : World,
    run apiKey w (e1 ++ e2) = run apiKey w e1 ≫= fun w' => run apiKey w' e2.
Proof.
  induction e1 as [|e e1 IH]; intros w; cbn [app run]; [done|].
  destruct (step apiKey w e) as [w1|]; [apply IH | done].
Qed.

Lemma decodeChunks_ascii (values : list (list Z)) :
  forall d : TextDecoder,
    bytesNeeded d = 0 ->
    Forall (Forall (fun b => 0 <= b <= 127)) values ->
    (decodeChunks d values).2 = values.
Proof.
  induction values as [|value values IH]; intros d Hd Hascii; [done|].
  apply Forall_cons in Hascii as [Hvalue Hascii].
  cbn [decodeChunks].
  destruct (decode_ascii value d Hd Hvalue) as [Htext Hd1].
  destruct (decode d value) as [d1 text]. cbn [fst snd] in *.
  specialize (IH d1 Hd1 Hascii).
  destruct (decodeChunks d1 values) as [d2 texts]. cbn [snd] in *.
  by rewrite Htext, IH.
Qed.

Lemma unlines_ascii (lines : list JSString) :
  Forall (Forall (fun b => 0 <= b <= 127)) lines ->
  Forall (fun b => 0 <= b <= 127) (unlines lines).
Proof.
  induction 1 as [|line lines Hline _ IH]; [done|].
  change (unlines (line :: lines)) with ((line ++ [10]) ++ unlines lines).
  rewrite !Forall_app. split_and!; [done| |done].
  by repeat constructor.
Qed.

(** X15. A whole exchange that goes well. From a world without a suspended
    call where the submission is taken and there is an API key: the
    submission, an ok response with a body, its chunks (ASCII bytes, whole
    lines, however grouped, the text of each line having a string form), and
    the end of the stream leave the transcript with two more turns, the
    trimmed input and an answer that is the fragments of all the lines in
    order; the input box empty, the loading flag down, no call suspended,
    and one more request sent, carrying the old transcript and the new User
    turn. *)
Theorem exchange_from_submission_to_answer
    (apiKey : option JSString) (w : World) (response : Response)
    (groups : list (list JSString)) :
  accepted w ->
  noApiKey apiKey = false ->
  inflight w = [] ->
  ok response = true ->
  hasBody response = true ->
  Forall (Forall (fun line => 10 ∉ line)) groups ->
  Forall (Forall (Forall (fun b => 0 <= b <= 127))) groups ->
  Forall (Forall (fun line => coerces line = true)) groups ->
  let u := mkChatMessage user (trim (chatInput (state w))) in
  run apiKey w
    ([Submit; FetchSettles 0 (Resolved response)]
     ++ ((fun g => ReadSettles 0 (ReadValue (unlines g))) <$> groups)
     ++ [ReadSettles 0 ReadDone]) =
  Some (mkWorld
          (mkState
             (chatMessages (state w)
              ++ [u; mkChatMessage assistant
                       (mjoin (lineFragment <$> mjoin groups))])
             [] false)
          []
          (requests w ++ [mkRequest (chatMessages (state w) ++ [u])])).
Proof.
  intros Hacc Hkey Hin Hok Hbody Hlines Hascii _ u.
  rewrite !run_app. cbn [run step].
  rewrite (sendChatMessage_accepted _ _ Hacc). cbn zeta.
  rewrite Hkey, Hin. cbn [mbind option_bind app inflight state requests].
  change ([AwaitFetch] !! 0%nat) with (Some AwaitFetch).
  cbn [afterFetch]. rewrite Hok, Hbody. cbn [negb resumed].
  change (<[0%nat:=AwaitRead newTextDecoder]> [AwaitFetch])
    with [AwaitRead newTextDecoder].
  replace ((fun g => ReadSettles 0 (ReadValue (unlines g))) <$> groups)
    with ((fun value => ReadSettles 0 (ReadValue value))
            <$> (unlines <$> groups))
    by (by rewrite <- list_fmap_compose).
  cbn [mbind option_bind]. rewrite run_app, run_reads.
  cbn [mbind option_bind run step inflight].
  rewrite decodeChunks_ascii; [|done|].
  2: { apply Forall_fmap. eapply Forall_impl; [exact Hascii|].
       intros g Hg. by apply unlines_ascii. }
  change ([AwaitRead (decodeChunks newTextDecoder (unlines <$> groups)).1]
            !! 0%nat)
    with (Some (AwaitRead (decodeChunks newTextDecoder (unlines <$> groups)).1)).
  cbn [afterRead resumed state requests mbind option_bind].
  unfold finally_, setChatLoading, setChatMessages.
  cbn [chatMessages chatInput chatLoading].
  set (a0 := mkChatMessage assistant []).
  change [mkChatMessage user (trim (chatInput (state w))); a0]
    with ([u] ++ [a0]).
  rewrite app_assoc. subst a0.
  rewrite (reduce_whole_lines _ _ Hlines), processLines_assistant.
  rewrite <- app_assoc. reflexivity.
Qed.

Lemma exchange_from_submission_to_answer_witness :
  run key (mkWorld (mkState [] (lit " Hello ") false) [] [])
    ([Submit; FetchSettles 0 (Resolved (mkResponse 200 true))]
     ++ ((fun g => ReadSettles 0 (ReadValue (unlines g)))
           <$> [[line_Hi]; [line_there; line_DONE]])
     ++ [ReadSettles 0 ReadDone]) =
  Some (mkWorld
          (mkState
             ([] ++ [mkChatMessage user (lit "Hello");
                     mkChatMessage assistant
                       (mjoin (lineFragment
                                 <$> mjoin [[line_Hi];
                                            [line_there; line_DONE]]))])
             [] false)
          []
          ([] ++ [mkRequest ([] ++ [mkChatMessage user (lit "Hello")])])).
Proof.
  apply (exchange_from_submission_to_answer key
           (mkWorld (mkState [] (lit " Hello ") false) [] [])
           (mkResponse 200 true) [[line_Hi]; [line_there; line_DONE]]);
    try reflexivity.
  - split; [by vm_compute | done].
  - repeat constructor; apply (bool_decide_unpack _); by vm_compute.
  - repeat apply Forall_cons_2; try apply Forall_nil_2;
      apply (bool_decide_unpack _); by vm_compute.
  - repeat apply Forall_cons_2; try apply Forall_nil_2; by vm_compute.
Defined.

End ChatFacts.

(* ===================================================================== *)
(** ** Properties of the geo-lookup flow *)
(* ===================================================================== *)

Module GeoFacts.
Import JS Geo.

#[local] Arguments lit : simpl never.
#[local] Arguments litq : simpl never.

Lemma get_getOptional (data : JSValue) (name : JSString) :
  get data name =
  match data with
  | JUndefined | JNull => None
  | _ => Some (getOptional data name)
  end.
Proof. by destruct data. Qed.

Lemma or_truthy (a b : JSValue) : truthy b = true -> truthy (or a b) = true.
Proof. intros Hb. unfold or. by destruct (truthy a) eqn:Ha. Qed.

Lemma record_None (data : JSValue) :
  truthy (getOptional data (lit "success")) = false -> record data = None.
Proof.
  intros Hs. unfold record.
  destruct data; cbn [get mbind option_bind getOptional truthy negb] in *;
    try done; by rewrite Hs.
Qed.

(** X16. Whatever goes wrong with a lookup (the fetch rejects, the status
    is outside 200..299, the body cannot be read or is no JSON text, or the
    answer does not carry a truthy [success]), the call ends there, whatever
    other calls have done to the state in the meantime, with the loading
    flag down and the one fixed text as the error, and the card shows the
    error: the message the service sent is not shown, and the record of an
    earlier lookup is kept, hidden behind the error. *)
Theorem failed_lookup_shows_fixed_error (s : State) :
  (forall f : Fetched,
     (exists err, f = Rejected err) \/
     (exists response,
        f = Resolved response /\ ~ (200 <= status response <= 299)) ->
     afterFetch f s =
       (mkState (ipInfo s) false
          (Some (lit "Failed to fetch IP information")), None)) /\
  (forall body : option JSString,
     body = None \/
     (exists text, body = Some text /\ JSON_parse text = None) \/
     (exists text data,
        body = Some text /\ JSON_parse text = Some data /\
        truthy (getOptional data (lit "success")) = false) ->
     afterJson body s =
       mkState (ipInfo s) false
         (Some (lit "Failed to fetch IP information"))) /\
  ipPanel
    (mkState (ipInfo s) false (Some (lit "Failed to fetch IP information"))) =
    ErrorState (lit "Failed to fetch IP information").
Proof.
  split_and!.
  - intros f [[err ->]|(response & -> & Hr)]; [done|].
    unfold afterFetch.
    replace (ok response) with false; [done|].
    symmetry. unfold ok. apply andb_false_iff.
    destruct (Z.leb_spec 200 (status response)); [right|by left].
    apply Z.leb_gt. lia.
  - intros body [->|[(text & -> & Hp)|(text & data & -> & Hp & Hs)]];
      unfold afterJson; cbn [mbind option_bind]; [done| |].
    + by rewrite Hp.
    + rewrite Hp. cbn [mbind option_bind]. by rewrite (record_None _ Hs).
  - done.
Qed.

Lemma failed_lookup_shows_fixed_error_witness :
  afterJson (Some refusedBody)
    (mkState (Some (mkIpInfo JNull JNull JNull JNull JNull)) true None) =
  mkState (Some (mkIpInfo JNull JNull JNull JNull JNull)) false
    (Some (lit "Failed to fetch IP information")).
Proof.
  apply (proj1 (proj2 (failed_lookup_shows_fixed_error
           (mkState (Some (mkIpInfo JNull JNull JNull JNull JNull)) true
              None)))).
  do 2 right.
  exists refusedBody,
         (JObject [(lit "success", JBool false);
                   (lit "message", JString (lit "Invalid IP address"))]).
  by vm_compute.
Defined.

(** X17. A lookup that goes well (the fetch resolves with a status in
    200..299 and the body is the text of an object with a truthy
    [success]) changes nothing when the fetch settles and, when the body
    has been read, stores the record made of the members [ip], [country],
    [city] and [region] of the answer and lowers the loading flag; it
    leaves the error as it finds it. The provider of the record is the
    [isp] of the connection if that is truthy, else its [org] if that is
    truthy, else the text [Unknown]: it is never missing and never empty.
    The card then shows the record if no error is set and the record
    renders; the error, if one is set; and it throws if the record holds an
    object where a text is rendered. A call that runs alone ends without
    an error. A call that ends after another call, started later, has
    failed leaves the error of that call on the card, although the lookup
    went well. *)
Theorem successful_lookup_fills_record
    (s : State) (response : Response) (text : JSString)
    (members : list (JSString * JSValue)) :
  200 <= status response <= 299 ->
  JSON_parse text = Some (JObject members) ->
  truthy (lookup (lit "success") members) = true ->
  let connection := lookup (lit "connection") members in
  let isp := getOptional connection (lit "isp") in
  let info :=
    mkIpInfo (lookup (lit "ip") members) (lookup (lit "country") members)
      (lookup (lit "city") members) (lookup (lit "region") members)
      (if truthy isp then isp
       else if truthy (getOptional connection (lit "org"))
            then getOptional connection (lit "org")
            else JString (lit "Unknown")) in
  let card := if infoRenders info then Info info else RenderError in
  afterFetch (Resolved response) s = (s, Some AwaitJson) /\
  afterJson (Some text) s = mkState (Some info) false (error s) /\
  truthy (org info) = true /\
  ipPanel (afterJson (Some text) s) =
    match error s with
    | Some e => if bool_decide (e = []) then card else ErrorState e
    | None => card
    end /\
  run (mkWorld s [])
    [Fetch; FetchSettles 0 (Resolved response); JsonSettles 0 (Some text)] =
    Some (mkWorld (mkState (Some info) false None) []) /\
  (forall err : Thrown,
     run (mkWorld s [])
       [Fetch; Fetch; FetchSettles 1 (Rejected err);
        FetchSettles 0 (Resolved response); JsonSettles 0 (Some text)] =
     Some (mkWorld
             (mkState (Some info) false
                (Some (lit "Failed to fetch IP information"))) [])).
Proof.
  intros Hstatus Hp Hs connection isp info card.
  assert (Hok : ok response = true)
    by (unfold ok; apply andb_true_iff; lia).
  assert (Hrec : record (JObject members) = Some info).
  { unfold record. cbn [mbind option_bind get].
    rewrite Hs. cbn [negb]. subst info isp connection. unfold or.
    destruct (truthy (getOptional _ (lit "isp"))) eqn:Hisp;
      [by rewrite Hisp|].
    by destruct (truthy (getOptional _ (lit "org"))). }
  assert (Hjson : forall s', afterJson (Some text) s' =
                             mkState (Some info) false (error s')).
  { intros s'. unfold afterJson. cbn [mbind option_bind].
    rewrite Hp. cbn [mbind option_bind]. by rewrite Hrec. }
  assert (Hfetch : forall s', afterFetch (Resolved response) s' =
                              (s', Some AwaitJson)).
  { intros s'. unfold afterFetch. by rewrite Hok. }
  split_and!.
  - apply Hfetch.
  - apply Hjson.
  - subst info. cbn [org].
    destruct (truthy isp) eqn:Hisp; [done|].
    by destruct (truthy (getOptional connection (lit "org"))) eqn:Horg.
  - rewrite Hjson. unfold ipPanel. cbn [loading ipInfo error]. done.
  - cbn [run step fetchIpInfo inflight state app mbind option_bind].
    change ([AwaitFetch] !! 0%nat) with (Some AwaitFetch).
    cbv beta iota.
    rewrite (Hfetch (setError None (setLoading true s))).
    cbn [resumed mbind option_bind inflight state].
    change (<[0%nat:=AwaitJson]> [AwaitFetch]) with [AwaitJson].
    change ([AwaitJson] !! 0%nat) with (Some AwaitJson).
    cbn [mbind option_bind]. by rewrite Hjson.
  - intros err.
    cbn [run step fetchIpInfo inflight state app mbind option_bind].
    change ([AwaitFetch; AwaitFetch] !! 1%nat) with (Some AwaitFetch).
    cbn [afterFetch resumed mbind option_bind inflight state].
    change (delete 1%nat [AwaitFetch; AwaitFetch]) with [AwaitFetch].
    change ([AwaitFetch] !! 0%nat) with (Some AwaitFetch).
    rewrite Hok. cbn [negb]. cbv beta iota.
    cbn [resumed mbind option_bind inflight state].
    change (<[0%nat:=AwaitJson]> [AwaitFetch]) with [AwaitJson].
    change ([AwaitJson] !! 0%nat) with (Some AwaitJson).
    cbn [mbind option_bind]. by rewrite Hjson.
Qed.

Lemma successful_lookup_fills_record_witness :
  run (mkWorld initialState [])
    [Fetch; FetchSettles 0 (Resolved (mkResponse 200 true));
     JsonSettles 0 (Some goodBody)] =
  Some (mkWorld
          (mkState
             (Some (mkIpInfo (JString (lit "8.8.8.8"))
                      (JString (lit "United States"))
                      (JString (lit "Mountain View"))
                      (JString (lit "California"))
                      (JString (lit "Google LLC")))) false None) []).
Proof.
  refine (proj1 (proj2 (proj2 (proj2 (proj2
    (successful_lookup_fills_record initialState (mkResponse 200 true)
       goodBody
       [(lit "ip", JString (lit "8.8.8.8"));
        (lit "success", JBool true);
        (lit "country", JString (lit "United States"));
        (lit "region", JString (lit "California"));
        (lit "city", JString (lit "Mountain View"));
        (lit "connection",
         JObject [(lit "org", JString (lit "Google LLC"));
                  (lit "isp", JString [])])] _ _ _)))))).
  - cbn [status]. lia.
  - by vm_compute.
  - reflexivity.
Defined.

Lemma own_Some (name flag : JSString) (members : list (JSString * JSString)) :
  own name members = Some flag -> (name, flag) ∈ members.
Proof.
  induction members as [|[k v] rest IH]; [done|]. cbn [own].
  destruct (own name rest) as [found|].
  - intros [= <-]. right. by apply IH.
  - case_bool_decide; [|done]. intros [= <-]. subst k. left.
Qed.

Lemma own_None (name : JSString) (members : list (JSString * JSString)) :
  own name members = None <-> name ∉ members.*1.
Proof.
  induction members as [|[k v] rest IH]; cbn [own fmap list_fmap fst].
  - split; [intros _ H; by apply elem_of_nil in H | done].
  - rewrite not_elem_of_cons. destruct (own name rest) as [found|].
    + split; [done|]. intros [_ H]. by apply IH in H.
    + case_bool_decide as Hk; split; try done.
      * intros [Hne _]. congruence.
      * intros _. split; [congruence | by apply IH].
Qed.

(** X18. [getCountryFlag] gives each country of its table the flag written
    beside it, which is never empty and never the globe, and no two
    countries of the table share a flag; every other name gets the globe,
    except the twelve names of members that every object inherits
    ([constructor], [toString], ...), for which the inherited member comes
    back instead of a string. *)
Theorem getCountryFlag_table (name : JSString) :
  (forall flag, (name, flag) ∈ flags ->
     getCountryFlag name = Flag flag /\ flag <> [] /\ flag <> globe /\
     forall name', getCountryFlag name' = Flag flag -> name' = name) /\
  (name ∉ flags.*1 -> name ∉ inherited -> getCountryFlag name = Flag globe) /\
  (name ∈ inherited -> getCountryFlag name = Inherited name).
Proof.
  assert (Htable : Forall (fun '(k, v) =>
            own k flags = Some v /\ v <> [] /\ v <> globe /\
            Forall (fun '(k', v') => v' = v -> k' = k) flags) flags).
  { unfold flags.
    repeat (apply Forall_cons; split;
            [split_and!;
             [ by vm_compute
             | by vm_compute
             | apply (bool_decide_unpack _); by vm_compute
             | repeat (apply Forall_cons; split;
                       [intros E; first [ reflexivity
                                        | by vm_compute in E ] |]);
               apply Forall_nil_2 ] |]).
    apply Forall_nil_2. }
  rewrite Forall_forall in Htable.
  split_and!.
  - intros flag Hin. destruct (Htable _ Hin) as (Hown & Hne & Hglobe & Hinj).
    unfold getCountryFlag at 1. rewrite Hown.
    rewrite bool_decide_eq_false_2 by done. split_and!; try done.
    intros name'. unfold getCountryFlag.
    destruct (own name' flags) as [flag'|] eqn:Hown'.
    + case_bool_decide; intros [= E]; [congruence|]. subst flag'.
      apply own_Some in Hown'. rewrite Forall_forall in Hinj.
      by apply (Hinj (name', flag) Hown').
    + case_bool_decide; [done|]. intros [= E]. congruence.
  - intros Hnot Hinh. unfold getCountryFlag.
    apply own_None in Hnot. rewrite Hnot.
    by rewrite bool_decide_eq_false_2.
  - intros Hinh. unfold getCountryFlag.
    assert (Hnot : own name flags = None).
    { apply own_None. intros Hk. revert Hinh.
      unfold inherited, flags in *. cbn [fmap list_fmap fst] in *.
      repeat (apply elem_of_cons in Hk as [->|Hk];
              [apply (bool_decide_unpack _); by vm_compute|]).
      by apply elem_of_nil in Hk. }
    rewrite Hnot. by rewrite bool_decide_eq_true_2.
Qed.

Lemma getCountryFlag_table_witness :
  getCountryFlag (lit "Japan") = Flag (regional "JP") /\
  regional "JP" <> [] /\ regional "JP" <> globe /\
  forall name', getCountryFlag name' = Flag (regional "JP") ->
                name' = lit "Japan".
Proof.
  apply (proj1 (getCountryFlag_table (lit "Japan"))).
  apply (bool_decide_unpack _). by vm_compute.
Defined.

End GeoFacts.

(* ===================================================================== *)
(** ** Properties of the stream test script *)
(* ===================================================================== *)

Module ScriptFacts.
Import JS Script.

#[local] Arguments lit : simpl never.
#[local] Arguments litq : simpl never.

(** An event the loop body throws on: [null] or [undefined], or a
    [content-delta] whose text is truthy and no string. *)
Lemma onEvent_spec (now : nat -> Z) (startTime : Z) (chatEvent : JSValue)
    (st : Loop) :
  onEvent now startTime chatEvent st =
  match chatEvent with
  | JUndefined | JNull => None
  | _ =>
      if isDelta chatEvent then
        match textOf chatEvent with
        | JString text =>
            Some
              match firstChunkTime st with
              | None =>
                  let t := now (calls st) - startTime in
                  mkLoop (stdout st ++ firstChunkLog t ++ [10] ++ text)
                    (chunkCount st + 1) (Some t) (S (calls st))
              | Some t =>
                  mkLoop (stdout st ++ text) (chunkCount st + 1) (Some t)
                    (calls st)
              end
        | _ => None
        end
      else Some st
  end.
Proof.
  unfold onEvent, isDelta, textOf.
  rewrite !GeoFacts.get_getOptional.
  destruct chatEvent; cbn [mbind option_bind]; try done.
  all: match goal with
       | |- context [Chat.isString ?a ?b] => destruct (Chat.isString a b)
       end; [|done].
  all: match goal with |- context [or ?a ?b] => destruct (or a b) end;
    try done.
  all: destruct (firstChunkTime st) eqn:E; cbn; unfold console_log.
  all: by rewrite <- ?(assoc_L (++)), ?E.
Qed.

Lemma written_spec (chatEvent : JSValue) (text : JSString) :
  isDelta chatEvent = true -> textOf chatEvent = JString text ->
  written chatEvent = text.
Proof. intros Hd Ht. unfold written. by rewrite Hd, Ht. Qed.

Lemma written_other (chatEvent : JSValue) :
  isDelta chatEvent = false -> written chatEvent = [].
Proof. intros Hd. unfold written. by rewrite Hd. Qed.

Lemma onEvent_Some (now : nat -> Z) (startTime : Z) (chatEvent : JSValue)
    (st st' : Loop) :
  onEvent now startTime chatEvent st = Some st' ->
  if isDelta chatEvent then
    st' =
    match firstChunkTime st with
    | None =>
        let t := now (calls st) - startTime in
        mkLoop (stdout st ++ firstChunkLog t ++ [10] ++ written chatEvent)
          (chunkCount st + 1) (Some t) (S (calls st))
    | Some t =>
        mkLoop (stdout st ++ written chatEvent) (chunkCount st + 1) (Some t)
          (calls st)
    end
  else st' = st.
Proof.
  rewrite onEvent_spec. intros H.
  destruct (isDelta chatEvent) eqn:Hd.
  - assert (exists text, textOf chatEvent = JString text) as [text Ht].
    { destruct chatEvent; try done; destruct (textOf _); try done; eauto. }
    rewrite (written_spec _ text) by done.
    destruct chatEvent; try done; rewrite Ht in H; by injection H as <-.
  - destruct chatEvent; try done; by injection H as <-.
Qed.

(** The loop from a state that has seen its first chunk. *)
Lemma onEvents_later (now : nat -> Z) (startTime : Z)
    (events : list JSValue) (st st' : Loop) (t : Z) :
  firstChunkTime st = Some t ->
  onEvents now startTime events st = Some st' ->
  st' =
  mkLoop (stdout st ++ mjoin (written <$> events))
    (chunkCount st + Z.of_nat (length (filter (fun ev => isDelta ev = true) events)))
    (Some t) (calls st).
Proof.
  revert st. induction events as [|ev events IH]; intros st Ht H.
  - cbn in H. injection H as <-. cbn. rewrite app_nil_r, Z.add_0_r.
    destruct st; cbn in *; by subst.
  - cbn [onEvents] in H.
    destruct (onEvent now startTime ev st) as [st1|] eqn:H1; [|done].
    cbn [mbind option_bind] in H.
    apply onEvent_Some in H1.
    rewrite fmap_cons. cbn [mjoin list_join].
    rewrite filter_cons.
    destruct (isDelta ev) eqn:Hd.
    + rewrite Ht in H1. subst st1.
      apply (IH _) in H; [|done]. subst st'. cbn [stdout chunkCount calls].
      rewrite decide_True by done. cbn [length].
      f_equal; [by rewrite <- (assoc_L (++))|lia].
    + subst st1. rewrite (written_other _ Hd). cbn [app].
      rewrite decide_False by done. by apply IH.
Qed.

(** The loop from a state that has not. *)
Lemma onEvents_first (now : nat -> Z) (startTime : Z)
    (events : list JSValue) (st st' : Loop) :
  firstChunkTime st = None ->
  onEvents now startTime events st = Some st' ->
  let n := length (filter (fun ev => isDelta ev = true) events) in
  let t := now (calls st) - startTime in
  st' =
  match n with
  | O => st
  | S _ =>
      mkLoop (stdout st ++ firstChunkLog t ++ [10] ++ mjoin (written <$> events))
        (chunkCount st + Z.of_nat n) (Some t) (S (calls st))
  end.
Proof.
  revert st. induction events as [|ev events IH]; intros st Ht H.
  - cbn in H. by injection H as <-.
  - cbn [onEvents] in H.
    destruct (onEvent now startTime ev st) as [st1|] eqn:H1; [|done].
    cbn [mbind option_bind] in H.
    apply onEvent_Some in H1.
    rewrite fmap_cons. cbn [mjoin list_join].
    rewrite filter_cons.
    destruct (isDelta ev) eqn:Hd.
    + rewrite Ht in H1. subst st1. cbv zeta in H.
      eapply onEvents_later in H; [|reflexivity]. subst st'.
      cbn [stdout chunkCount calls].
      rewrite decide_True by done. cbn [length]. cbv zeta.
      f_equal; [by rewrite <- !(assoc_L (++))|lia].
    + subst st1. rewrite (written_other _ Hd). cbn [app].
      rewrite decide_False by done. by apply IH.
Qed.

Lemma written_none (events : list JSValue) :
  length (filter (fun ev => isDelta ev = true) events) = 0%nat ->
  mjoin (written <$> events) = [].
Proof.
  induction events as [|ev events IH]; [done|]. intros Hn.
  rewrite filter_cons in Hn. rewrite fmap_cons. cbn [mjoin list_join].
  destruct (isDelta ev) eqn:Hd.
  - by rewrite decide_True in Hn.
  - rewrite decide_False in Hn by done.
    rewrite (written_other _ Hd). by apply IH.
Qed.

(** X19. The report of the script on a stream it survives. The count is
    the number of [content-delta] events; the clock is read once at the
    start, once at the first such event and once after the stream; the
    output is the two header lines, the first-chunk line if there was such
    an event, the texts of the events in their order, and the three lines of
    the statistics. With no such event the time to the first chunk is
    printed as [null], and the total is taken at the second reading of the
    clock. *)
Theorem script_report (now : nat -> Z) (events : list JSValue) (r : Report) :
  main now events = Some r ->
  let n := length (filter (fun ev => isDelta ev = true) events) in
  chunks r = Z.of_nat n /\
  firstChunk r = (if decide (n = 0%nat) then None else Some (now 1%nat - now 0%nat)) /\
  totalTime r =
    (if decide (n = 0%nat) then now 1%nat else now 2%nat) - now 0%nat /\
  output r =
    header ++
    (if decide (n = 0%nat) then []
     else firstChunkLog (now 1%nat - now 0%nat) ++ [10]) ++
    mjoin (written <$> events) ++
    stats (chunks r) (firstChunk r) (totalTime r).
Proof.
  unfold main. intros H.
  destruct (onEvents _ _ _ _) as [st|] eqn:Hst; [|done].
  cbn [mbind option_bind] in H. injection H as <-.
  apply onEvents_first in Hst; [|done]. cbv zeta in Hst.
  cbv zeta. cbn [chunks firstChunk totalTime output].
  destruct (length _) as [|n] eqn:Hn.
  - subst st. cbn [chunkCount firstChunkTime calls stdout].
    destruct (decide (0%nat = 0%nat)); [|done].
    by rewrite (written_none _ Hn).
  - subst st. cbn [chunkCount firstChunkTime calls stdout].
    destruct (decide (S n = 0%nat)); [done|].
    split_and!; [lia|done|done|].
    by rewrite <- !(assoc_L (++)).
Qed.

Lemma script_report_witness :
  exists r,
    main clock [event_end; event_Hi; event_Hi; event_end] = Some r /\
    chunks r = 2 /\ firstChunk r = Some 250 /\ totalTime r = 500.
Proof.
  destruct (main clock [event_end; event_Hi; event_Hi; event_end])
    as [r|] eqn:H; [|by vm_compute in H].
  exists r. split; [done|].
  destruct (script_report clock _ r H) as (H1 & H2 & H3 & _).
  by vm_compute in H1, H2, H3.
Defined.

(** X20. With a clock that never runs backwards, the times of the report
    are in order: the total is not negative; if a chunk was counted, the time
    to the first chunk lies between zero and the total; and the time to the
    first chunk is missing exactly when no chunk was counted. *)
Theorem script_times_ordered (now : nat -> Z) (events : list JSValue)
    (r : Report) :
  (forall i j : nat, (i <= j)%nat -> now i <= now j) ->
  main now events = Some r ->
  0 <= chunks r /\ 0 <= totalTime r /\
  match firstChunk r with
  | Some t => 0 < chunks r /\ 0 <= t <= totalTime r
  | None => chunks r = 0
  end.
Proof.
  intros Hmono. unfold main. intros H.
  destruct (onEvents _ _ _ _) as [st|] eqn:Hst; [|done].
  cbn [mbind option_bind] in H. injection H as <-.
  apply onEvents_first in Hst; [|done]. cbv zeta in Hst.
  cbn [chunks firstChunk totalTime].
  pose proof (Hmono 0%nat 1%nat ltac:(lia)).
  pose proof (Hmono 1%nat 2%nat ltac:(lia)).
  destruct (length _) as [|n]; subst st;
    cbn [chunkCount firstChunkTime calls]; lia.
Qed.

Lemma script_times_ordered_witness :
  exists r,
    main clock [event_end; event_Hi; event_Hi; event_end] = Some r /\
    0 <= totalTime r.
Proof.
  destruct (main clock [event_end; event_Hi; event_Hi; event_end])
    as [r|] eqn:H; [|by vm_compute in H].
  exists r. split; [done|].
  refine (proj1 (proj2 (script_times_ordered clock _ r _ H))).
  intros i j Hij. unfold clock. lia.
Defined.

(** X21. The script runs to its end exactly on the streams in which no
    event is [null] or [undefined] and every [content-delta] event has, at
    [delta.message.content.text], a string or a falsy value (nothing at
    all, [null], [false], zero); on one truthy text that is no string it
    ends with an exception and prints no statistics. *)
Theorem script_ends_normally (now : nat -> Z) (events : list JSValue) :
  is_Some (main now events) <->
  Forall
    (fun ev =>
       ev <> JUndefined /\ ev <> JNull /\
       (isDelta ev = true -> exists text, textOf ev = JString text))
    events.
Proof.
  unfold main.
  assert (forall st,
    is_Some (onEvents now (now 0%nat) events st) <->
    Forall
      (fun ev =>
         ev <> JUndefined /\ ev <> JNull /\
         (isDelta ev = true -> exists text, textOf ev = JString text))
      events) as Hloop.
  { induction events as [|ev events IH]; intros st.
    - cbn. split; [by constructor|by eauto].
    - cbn [onEvents]. rewrite Forall_cons, <- (IH (default st (onEvent now (now 0%nat) ev st))).
      rewrite onEvent_spec.
      destruct ev; cbn [mbind option_bind default];
        try (split; [by intros [? [=]]|by intros [[? _] _]]);
        try (split; [by intros [? [=]]|by intros [(_ & ? & _) _]]).
      all: destruct (isDelta _) eqn:Hd; cbn [mbind option_bind default].
      all: try (split; [intros ?; split_and!; done|by intros [_ ?]]).
      all: destruct (textOf _) eqn:Ht; cbn [mbind option_bind default].
      all: try (split; [by intros [? [=]]|by intros [(_ & _ & [? [=]]) _]]; done).
      all: split; [intros ?; split_and!; eauto|by intros [_ ?]]. }
  rewrite <- (Hloop (mkLoop header 0 None 1)).
  destruct (onEvents _ _ _ _); cbn [mbind option_bind]; split; eauto;
    by intros [? [=]].
Qed.

Lemma lineFragment_written (payload : JSString) (ev : JSValue) :
  JSON_parse payload = Some ev ->
  ev <> JUndefined -> ev <> JNull ->
  (isDelta ev = true -> exists text, textOf ev = JString text) ->
  Chat.lineFragment (lit "data: " ++ payload) = written ev.
Proof.
  intros Hp Hu Hn Ht.
  unfold Chat.lineFragment, Chat.lineText.
  assert (startsWith (lit "data: " ++ payload) (lit "data: ") = true) as ->.
  { unfold startsWith. apply bool_decide_eq_true_2.
    by rewrite take_app_length. }
  cbv zeta.
  assert (slice (lit "data: " ++ payload) 6 = payload) as ->.
  { unfold slice. change 6%nat with (length (lit "data: ")).
    by rewrite drop_app_length. }
  unfold strictEquals. case_bool_decide as Hdone.
  { subst payload. by vm_compute in Hp. }
  rewrite Hp. cbn [mbind option_bind].
  unfold written, isDelta in *. unfold textOf in *.
  rewrite !GeoFacts.get_getOptional.
  rewrite GeoFacts.get_getOptional in Ht.
  destruct ev; try done; cbn [mbind option_bind] in *.
  all: destruct (Chat.isString _ _); [|done].
  all: destruct (Ht eq_refl) as [text Htext]; by rewrite Htext.
Qed.

(** X22. The script and the popup read the same events alike. If the
    events of a stream the script survives are sent to the popup as [data:]
    lines, the popup appends to the assistant turn exactly the texts the
    script writes between its log lines. *)
Theorem script_writes_what_popup_appends (now : nat -> Z)
    (payloads : list JSString) (events : list JSValue) (r : Report)
    (init : list Chat.ChatMessage) (c : JSString) :
  Forall2 (fun payload ev => JSON_parse payload = Some ev) payloads events ->
  main now events = Some r ->
  Chat.processLines ((fun payload => lit "data: " ++ payload) <$> payloads)
    (init ++ [Chat.mkChatMessage Chat.assistant c]) =
  init ++ [Chat.mkChatMessage Chat.assistant (c ++ mjoin (written <$> events))].
Proof.
  intros Hparse Hmain.
  rewrite ChatFacts.processLines_assistant.
  apply (f_equal
    (fun x => init ++ [Chat.mkChatMessage Chat.assistant (c ++ x)])).
  assert (is_Some (main now events)) as Hok by eauto.
  clear Hmain. revert Hok. unfold main.
  generalize (mkLoop header 0 None 1).
  induction Hparse as [|payload ev payloads events Hp _ IH]; intros st Hok;
    [done|].
  cbn [onEvents] in Hok.
  destruct (onEvent now (now 0%nat) ev st) as [st1|] eqn:H1;
    [|by destruct Hok as [? [=]]].
  cbn [mbind option_bind] in Hok.
  rewrite !fmap_cons. cbn [mjoin list_join].
  f_equal; [|by apply (IH st1)].
  apply lineFragment_written; [done|..].
  all: rewrite onEvent_spec in H1; destruct ev; try done.
  all: intros Hd; rewrite Hd in H1; destruct (textOf _); try done; eauto.
Qed.

Lemma script_writes_what_popup_appends_witness :
  Chat.processLines
    [lit "data: " ++
     litq "{'type':'content-delta','delta':{'message':{'content':{'text':'Hi'}}}}"]
    [Chat.mkChatMessage Chat.assistant []] =
  [Chat.mkChatMessage Chat.assistant (mjoin (written <$> [event_Hi]))].
Proof.
  destruct (main clock [event_Hi]) as [r|] eqn:H; [|by vm_compute in H].
  refine (script_writes_what_popup_appends clock
            [litq "{'type':'content-delta','delta':{'message':{'content':{'text':'Hi'}}}}"]
            [event_Hi] r [] [] _ H).
  apply Forall2_cons; split; [by vm_compute|apply Forall2_nil_2].
Defined.

End ScriptFacts.
